(** * Sequence / regex rewriter of z3: a shallow embedding of
      [src/ast/rewriter/seq_rewriter.cpp] and the properties checked on it.

    Terms are the solver's hash-consed applications: a declaration kind,
    its parameters and an ordered list of arguments.  Two terms built the
    same way are the same node, so pointer equality of the source is
    structural equality here. *)

From Stdlib Require Import List ZArith Bool Lia Arith PeanoNat.
Import ListNotations.

Set Implicit Arguments.

(** ** Expression model *)

(** Sorts of the fragment handled by the rewriter. *)
Inductive sort : Type :=
| Bool_sort
| Int_sort
| Char_sort
| Seq_sort (elem : sort)
| Re_sort (seq : sort)
| Array_sort (dom rng : sort)
| Uninterp_sort (name : nat).

(** A [zstring] is a vector of unsigned character codes. *)
Definition zstring := list nat.

(** Declaration kinds, with the names they carry in the source.
    [OP_ITE] lives in the basic family, the [OP_SEQ_], [OP_RE_] and
    [OP_STRING_] kinds in the sequence family, [_OP_RE_IS_NULLABLE] is the
    internal tag used as memoization key. *)
Inductive decl_kind : Type :=
| OP_TRUE | OP_FALSE | OP_EQ | OP_ITE | OP_AND | OP_OR | OP_NOT
| OP_UNINTERPRETED
| OP_NUM | OP_ADD | OP_SUB | OP_MUL | OP_GE | OP_LE
| OP_CHAR_CONST | OP_CHAR_LE
| OP_SELECT
| OP_SEQ_UNIT | OP_SEQ_EMPTY | OP_SEQ_CONCAT | OP_SEQ_PREFIX | OP_SEQ_SUFFIX
| OP_SEQ_CONTAINS | OP_SEQ_EXTRACT | OP_SEQ_REPLACE | OP_SEQ_AT | OP_SEQ_NTH
| OP_SEQ_LENGTH | OP_SEQ_INDEX | OP_SEQ_TO_RE | OP_SEQ_IN_RE
| OP_RE_PLUS | OP_RE_STAR | OP_RE_OPTION | OP_RE_RANGE | OP_RE_CONCAT
| OP_RE_UNION | OP_RE_DIFF | OP_RE_INTERSECT | OP_RE_LOOP | OP_RE_COMPLEMENT
| OP_RE_EMPTY_SET | OP_RE_FULL_SEQ_SET | OP_RE_FULL_CHAR_SET | OP_RE_OF_PRED
| OP_RE_REVERSE | OP_RE_DERIVATIVE | _OP_RE_IS_NULLABLE
| OP_STRING_CONST | OP_STRING_ITOS | OP_STRING_STOI.

(** Parameters of a declaration: loop bounds, numerals, string constants,
    names and sorts. *)
Inductive parameter : Type :=
| P_int (n : nat)
| P_num (z : Z)
| P_str (s : zstring)
| P_sym (n : nat)
| P_sort (s : sort).

Unset Elimination Schemes.

Inductive expr : Type :=
| App (k : decl_kind) (ps : list parameter) (args : list expr).

Set Elimination Schemes.

(** Induction over terms, with the hypothesis on every argument. *)
Section expr_induction.
Variable P : expr -> Prop.
Hypothesis P_App :
  forall k ps args, Forall P args -> P (App k ps args).

Fixpoint expr_ind (e : expr) : P e :=
  match e with
  | App k ps args =>
      P_App k ps
        ((fix all (l : list expr) : Forall P l :=
            match l with
            | [] => Forall_nil P
            | x :: xs => Forall_cons x (expr_ind x) (all xs)
            end) args)
  end.
End expr_induction.

Definition sort_eq_dec (a b : sort) : {a = b} + {a <> b}.
Proof. decide equality; apply Nat.eq_dec. Defined.

Definition decl_kind_eq_dec (a b : decl_kind) : {a = b} + {a <> b}.
Proof. decide equality. Defined.

Definition parameter_eq_dec (a b : parameter) : {a = b} + {a <> b}.
Proof.
  decide equality; try apply Nat.eq_dec; try apply Z.eq_dec;
    try apply sort_eq_dec; apply (list_eq_dec Nat.eq_dec).
Defined.

Fixpoint expr_eq_dec (a b : expr) {struct a} : {a = b} + {a <> b}.
Proof.
  destruct a as [k ps args], b as [k' ps' args'].
  destruct (decl_kind_eq_dec k k') as [Hk | Hk];
    [ | right; intro H; inversion H; contradiction ].
  destruct (list_eq_dec parameter_eq_dec ps ps') as [Hp | Hp];
    [ | right; intro H; inversion H; contradiction ].
  assert (Hargs : {args = args'} + {args <> args'}).
  { clear - expr_eq_dec. revert args'.
    induction args as [ | x xs IH]; intros [ | y ys].
    - left; reflexivity.
    - right; discriminate.
    - right; discriminate.
    - destruct (expr_eq_dec x y) as [Hx | Hx];
        [ | right; intro H; inversion H; contradiction ].
      destruct (IH ys) as [Hxs | Hxs];
        [ left; congruence | right; intro H; inversion H; contradiction ]. }
  destruct Hargs as [Ha | Ha];
    [ left; congruence | right; intro H; inversion H; contradiction ].
Defined.

Arguments expr_eq_dec : simpl never.

(** Pointer equality [a == b] of two hash-consed terms. *)
Definition expr_eqb (a b : expr) : bool :=
  if expr_eq_dec a b then true else false.

(** ** Term constructors and recognizers

    The constructors of [ast_manager] (basic family), [arith_util],
    [seq_util::str] and [seq_util::re], under the names the source calls
    them by. *)

Definition mk_true : expr := App OP_TRUE [] [].
Definition mk_false : expr := App OP_FALSE [] [].
Definition mk_eq (a b : expr) : expr := App OP_EQ [] [a; b].
Definition mk_ite (c t e : expr) : expr := App OP_ITE [] [c; t; e].
Definition mk_const (name : nat) (s : sort) : expr :=
  App OP_UNINTERPRETED [P_sym name; P_sort s] [].
Definition mk_char (c : nat) : expr := App OP_CHAR_CONST [P_int c] [].
Definition mk_char_le (a b : expr) : expr := App OP_CHAR_LE [] [a; b].
Definition mk_select (a i : expr) : expr := App OP_SELECT [] [a; i].

(** [m().mk_and], [m().mk_or], [m().mk_not]: the plain applications. *)
Definition m_mk_and (a b : expr) : expr := App OP_AND [] [a; b].
Definition m_mk_or (a b : expr) : expr := App OP_OR [] [a; b].
Definition m_mk_not (a : expr) : expr := App OP_NOT [] [a].

(** [m().is_true(e)] and [m().is_false(e)] compare with the one node of
    each literal. *)
Definition is_true (e : expr) : bool :=
  match e with App OP_TRUE [] [] => true | _ => false end.
Definition is_false (e : expr) : bool :=
  match e with App OP_FALSE [] [] => true | _ => false end.

Module autil.
Definition mk_numeral (z : Z) : expr := App OP_NUM [P_num z] [].
Definition mk_int (z : Z) : expr := mk_numeral z.
Definition mk_add (a b : expr) : expr := App OP_ADD [] [a; b].
Definition mk_sub (a b : expr) : expr := App OP_SUB [] [a; b].
Definition mk_mul (a b : expr) : expr := App OP_MUL [] [a; b].
Definition mk_ge (a b : expr) : expr := App OP_GE [] [a; b].
Definition is_numeral (e : expr) : option Z :=
  match e with App OP_NUM [P_num z] _ => Some z | _ => None end.
Definition is_add (e : expr) : bool :=
  match e with App OP_ADD _ _ => true | _ => false end.
Definition is_mul (e : expr) : bool :=
  match e with App OP_MUL _ _ => true | _ => false end.
End autil.

Module str.
Definition mk_empty (s : sort) : expr := App OP_SEQ_EMPTY [P_sort s] [].
Definition mk_string (z : zstring) : expr := App OP_STRING_CONST [P_str z] [].
Definition mk_unit (e : expr) : expr := App OP_SEQ_UNIT [] [e].
Definition mk_concat (a b : expr) : expr := App OP_SEQ_CONCAT [] [a; b].
Definition mk_length (a : expr) : expr := App OP_SEQ_LENGTH [] [a].
Definition mk_substr (a b c : expr) : expr := App OP_SEQ_EXTRACT [] [a; b; c].
Definition mk_itos (n : expr) : expr := App OP_STRING_ITOS [] [n].
Definition mk_stoi (s : expr) : expr := App OP_STRING_STOI [] [s].

Definition is_string (e : expr) : option zstring :=
  match e with App OP_STRING_CONST [P_str z] _ => Some z | _ => None end.
Definition is_unit (e : expr) : option expr :=
  match e with App OP_SEQ_UNIT _ [a] => Some a | _ => None end.
(** [is_empty]: the empty-sequence node, or an empty string constant. *)
Definition is_empty (e : expr) : bool :=
  match e with
  | App OP_SEQ_EMPTY _ _ => true
  | App OP_STRING_CONST [P_str []] _ => true
  | _ => false
  end.
Definition is_concat (e : expr) : option (expr * expr) :=
  match e with App OP_SEQ_CONCAT _ [a; b] => Some (a, b) | _ => None end.
Definition is_length (e : expr) : option expr :=
  match e with App OP_SEQ_LENGTH _ [a] => Some a | _ => None end.
Definition is_itos (e : expr) : option expr :=
  match e with App OP_STRING_ITOS _ [a] => Some a | _ => None end.
Definition is_extract (e : expr) : option (expr * expr * expr) :=
  match e with App OP_SEQ_EXTRACT _ [a; b; c] => Some (a, b, c) | _ => None end.
End str.

Module re.
Definition mk_to_re (s : expr) : expr := App OP_SEQ_TO_RE [] [s].
Definition mk_in_re (s r : expr) : expr := App OP_SEQ_IN_RE [] [s; r].
Definition mk_concat (a b : expr) : expr := App OP_RE_CONCAT [] [a; b].
Definition mk_union (a b : expr) : expr := App OP_RE_UNION [] [a; b].
Definition mk_inter (a b : expr) : expr := App OP_RE_INTERSECT [] [a; b].
Definition mk_diff (a b : expr) : expr := App OP_RE_DIFF [] [a; b].
Definition mk_star (a : expr) : expr := App OP_RE_STAR [] [a].
Definition mk_plus (a : expr) : expr := App OP_RE_PLUS [] [a].
Definition mk_opt (a : expr) : expr := App OP_RE_OPTION [] [a].
Definition mk_complement (a : expr) : expr := App OP_RE_COMPLEMENT [] [a].
Definition mk_reverse (a : expr) : expr := App OP_RE_REVERSE [] [a].
Definition mk_derivative (ele r : expr) : expr := App OP_RE_DERIVATIVE [] [ele; r].
Definition mk_range (a b : expr) : expr := App OP_RE_RANGE [] [a; b].
Definition mk_of_pred (p : expr) : expr := App OP_RE_OF_PRED [] [p].
(** [mk_loop(r, lo)] and [mk_loop(r, lo, hi)]: the bounds are
    parameters of the declaration. *)
Definition mk_loop (r : expr) (lo : nat) : expr := App OP_RE_LOOP [P_int lo] [r].
Definition mk_loop2 (r : expr) (lo hi : nat) : expr :=
  App OP_RE_LOOP [P_int lo; P_int hi] [r].
(** [mk_empty], [mk_full_seq], [mk_full_char] take the regex sort. *)
Definition mk_empty (s : sort) : expr := App OP_RE_EMPTY_SET [P_sort s] [].
Definition mk_full_seq (s : sort) : expr := App OP_RE_FULL_SEQ_SET [P_sort s] [].
Definition mk_full_char (s : sort) : expr := App OP_RE_FULL_CHAR_SET [P_sort s] [].
End re.

(** [mk_app(fid, k, ...)]: the application of the parameterless
    declaration of kind [k]. *)
Definition mk_app (k : decl_kind) (args : list expr) : expr := App k [] args.

Definition get_decl_kind (e : expr) : decl_kind :=
  match e with App k _ _ => k end.

(** ** Sorts of terms *)

Definition sort_of_param (ps : list parameter) : sort :=
  match ps with
  | [P_sort s] => s
  | [P_sym _; P_sort s] => s
  | _ => Uninterp_sort 0
  end.

(** [m().get_sort(e)]: the range of the declaration, computed from the
    kind, the parameters and the sorts of the arguments. *)
Fixpoint get_sort (e : expr) : sort :=
  match e with
  | App k ps args =>
      match k, args with
      | OP_TRUE, _ | OP_FALSE, _ | OP_EQ, _ | OP_AND, _ | OP_OR, _
      | OP_NOT, _ | OP_GE, _ | OP_LE, _ | OP_CHAR_LE, _
      | OP_SEQ_PREFIX, _ | OP_SEQ_SUFFIX, _ | OP_SEQ_CONTAINS, _
      | OP_SEQ_IN_RE, _ | _OP_RE_IS_NULLABLE, _ => Bool_sort
      | OP_NUM, _ | OP_ADD, _ | OP_SUB, _ | OP_MUL, _
      | OP_SEQ_LENGTH, _ | OP_SEQ_INDEX, _ | OP_STRING_STOI, _ => Int_sort
      | OP_CHAR_CONST, _ => Char_sort
      | OP_STRING_CONST, _ | OP_STRING_ITOS, _ => Seq_sort Char_sort
      | OP_UNINTERPRETED, _ | OP_SEQ_EMPTY, _ | OP_RE_EMPTY_SET, _
      | OP_RE_FULL_SEQ_SET, _ | OP_RE_FULL_CHAR_SET, _ => sort_of_param ps
      | OP_ITE, [_; t; _] => get_sort t
      | OP_SELECT, a :: _ =>
          match get_sort a with Array_sort _ r => r | _ => Uninterp_sort 0 end
      | OP_SEQ_UNIT, [a] => Seq_sort (get_sort a)
      | OP_SEQ_NTH, a :: _ =>
          match get_sort a with Seq_sort t => t | _ => Uninterp_sort 0 end
      | OP_SEQ_CONCAT, a :: _ | OP_SEQ_EXTRACT, a :: _
      | OP_SEQ_REPLACE, a :: _ | OP_SEQ_AT, a :: _ => get_sort a
      | OP_SEQ_TO_RE, [a] => Re_sort (get_sort a)
      | OP_RE_RANGE, a :: _ => Re_sort (get_sort a)
      | OP_RE_OF_PRED, [p] =>
          match get_sort p with
          | Array_sort d _ => Re_sort (Seq_sort d)
          | _ => Uninterp_sort 0
          end
      | OP_RE_DERIVATIVE, [_; r] => get_sort r
      | OP_RE_PLUS, a :: _ | OP_RE_STAR, a :: _ | OP_RE_OPTION, a :: _
      | OP_RE_CONCAT, a :: _ | OP_RE_UNION, a :: _ | OP_RE_DIFF, a :: _
      | OP_RE_INTERSECT, a :: _ | OP_RE_LOOP, a :: _
      | OP_RE_COMPLEMENT, a :: _ | OP_RE_REVERSE, a :: _ => get_sort a
      | _, _ => Uninterp_sort 0
      end
  end.

(** [m_util.is_re(r, seq_sort)]: the sort of [r] is a regex sort over
    [seq_sort]. *)
Definition is_re (e : expr) : option sort :=
  match get_sort e with Re_sort s => Some s | _ => None end.

Arguments is_re : simpl never.

(** [m_util.is_seq(s, ele_sort)]. *)
Definition is_seq_sort (s : sort) : option sort :=
  match s with Seq_sort t => Some t | _ => None end.

(** ** Collaborators outside the rewriter

    What the rewriter calls but does not define: the identifier of a
    term ([expr::get_id]), the manager's distinct / equal oracle, the
    boolean helpers of [ast_util], the encoding of a [zstring] as text
    and the reading and printing of numerals ([rational]), the hash of a
    vector of terms and the [coalesce_chars] configuration flag.  They
    are taken as an interface; every development below is generic in
    it. *)
Class externals : Type := {
  get_id : expr -> nat;
  are_distinct : expr -> expr -> bool;
  are_equal : expr -> expr -> bool;
  mk_and : expr -> expr -> expr;
  mk_or : expr -> expr -> expr;
  mk_not : expr -> expr;
  zencode : zstring -> list nat;
  rational_of_string : list nat -> Z;
  rational_to_string : Z -> list nat;
  vector_hash : list expr -> nat;
  m_coalesce_chars : bool
}.

(** ** Strings

    Modelled from the spec: [zstring::extract(offset, len)] is absent from
    the sources; the spec describes it as the literal sub-string with
    [len] clipped at the tail. *)
Definition zextract (s : zstring) (offset len : nat) : zstring :=
  firstn len (skipn offset s).

(** ** The memoization cache [seq_rewriter::op_cache]

    An entry maps an operator tag and up to three operand identities to a
    result.  Modelled from the spec: the hash table [m_table] and the
    bound [m_max_cache_size] are declared in the absent header; the table
    is kept as an association list holding one entry per key. *)
Definition op_key : Type :=
  (decl_kind * option expr * option expr * option expr)%type.

Definition option_expr_eq_dec (a b : option expr) : {a = b} + {a <> b}.
Proof. decide equality; apply expr_eq_dec. Defined.

Definition op_key_eq_dec (a b : op_key) : {a = b} + {a <> b}.
Proof.
  decide equality; try apply option_expr_eq_dec.
  decide equality; try apply option_expr_eq_dec.
  decide equality; try apply option_expr_eq_dec.
  apply decl_kind_eq_dec.
Defined.

Arguments op_key_eq_dec : simpl never.

Record op_cache : Type := {
  m_table : list (op_key * expr);
  m_max_cache_size : nat
}.

Fixpoint table_find (t : list (op_key * expr)) (key : op_key) : option expr :=
  match t with
  | [] => None
  | (key', r) :: t' =>
      if op_key_eq_dec key key' then Some r else table_find t' key
  end.

Definition table_remove (t : list (op_key * expr)) (key : op_key) :
  list (op_key * expr) :=
  filter (fun e => if op_key_eq_dec key (fst e) then false else true) t.

Module op_cache_ops.
(** [op_cache::find]: the entry [e] is built with a null result, the
    table is searched with the one-argument [m_table.find(e)], whose
    answer is not used, and the result field of [e] is returned as it
    was built. *)
Definition find (c : op_cache) (op : decl_kind) (a b cc : option expr) :
  option expr :=
  let e : op_key * option expr := ((op, a, b, cc), None) in
  let _ := table_find (m_table c) (fst e) in
  snd e.

Arguments find : simpl never.

Definition cleanup (c : op_cache) : op_cache :=
  if m_max_cache_size c <=? length (m_table c)
  then {| m_table := []; m_max_cache_size := m_max_cache_size c |}
  else c.

Definition insert (c : op_cache) (op : decl_kind) (a b cc : option expr)
  (r : expr) : op_cache :=
  let c' := cleanup c in
  {| m_table := ((op, a, b, cc), r) :: table_remove (m_table c') (op, a, b, cc);
     m_max_cache_size := m_max_cache_size c' |}.

Definition empty (max : nat) : op_cache :=
  {| m_table := []; m_max_cache_size := max |}.
End op_cache_ops.

(** Every entry found in the cache satisfies [P]. *)
Definition cache_all (P : op_key -> expr -> Prop) (c : op_cache) : Prop :=
  forall k a b cc r, op_cache_ops.find c k a b cc = Some r -> P (k, a, b, cc) r.

(** ** Computations over the cache

    The rewriter's methods thread the cache, may stop on a failed
    [VERIFY] (or on dereferencing a null condition), and the recursive
    ones that are not structural are run with a bound on their depth. *)
Inductive outcome (A : Type) : Type :=
| Done (a : A) (c : op_cache)
| Abort
| Timeout.

Arguments Abort {A}.
Arguments Timeout {A}.

Definition M (A : Type) : Type := op_cache -> outcome A.

Definition ret {A : Type} (a : A) : M A := fun c => Done a c.

Definition bind {A B : Type} (m : M A) (f : A -> M B) : M B :=
  fun c =>
    match m c with
    | Done a c' => f a c'
    | Abort => Abort
    | Timeout => Timeout
    end.

Definition abort {A : Type} : M A := fun _ => Abort.
Definition timeout {A : Type} : M A := fun _ => Timeout.

Notation "x <- m ;; k" := (bind m (fun x => k))
  (at level 61, m at next level, right associativity).

(** [VERIFY(m_util.is_re(r, seq_sort))]. *)
Definition verify_is_re (r : expr) : M sort :=
  match is_re r with Some s => ret s | None => abort end.

Inductive br_status : Type :=
| BR_REWRITE1 | BR_REWRITE2 | BR_REWRITE3 | BR_REWRITE_FULL | BR_DONE | BR_FAILED.

Section rewriter.
Context {ext : externals}.

(** ** Nullability *)

(** [is_nullable_rec], with the call to [is_nullable(r)] passed in. *)
Definition is_nullable_rec_with (self : M expr) (r : expr) : M expr :=
  fun c =>
    match op_cache_ops.find c _OP_RE_IS_NULLABLE (Some r) None None with
    | Some result => Done result c
    | None =>
        match self c with
        | Done result c' =>
            Done result
              (op_cache_ops.insert c' _OP_RE_IS_NULLABLE (Some r) None None result)
        | Abort => Abort
        | Timeout => Timeout
        end
    end.

(** [seq_rewriter::is_nullable].  The two operands of [mk_and] and [mk_or]
    are evaluated left to right. *)
Fixpoint is_nullable (r : expr) : M expr :=
  let rec_ (r' : expr) (self : M expr) := is_nullable_rec_with self r' in
  match r with
  | App OP_RE_CONCAT _ [r1; r2] | App OP_RE_INTERSECT _ [r1; r2] =>
      n1 <- rec_ r1 (is_nullable r1) ;;
      n2 <- rec_ r2 (is_nullable r2) ;;
      ret (mk_and n1 n2)
  | App OP_RE_UNION _ [r1; r2] =>
      n1 <- rec_ r1 (is_nullable r1) ;;
      n2 <- rec_ r2 (is_nullable r2) ;;
      ret (mk_or n1 n2)
  | App OP_RE_DIFF _ [r1; r2] =>
      n2 <- rec_ r2 (is_nullable r2) ;;
      n1 <- rec_ r1 (is_nullable r1) ;;
      ret (mk_and n1 (mk_not n2))
  | App OP_RE_STAR _ _ | App OP_RE_OPTION _ _ | App OP_RE_FULL_SEQ_SET _ _
  | App OP_RE_LOOP [P_int 0] [_] | App OP_RE_LOOP [P_int 0; P_int _] [_] =>
      ret mk_true
  | App OP_RE_FULL_CHAR_SET _ _ | App OP_RE_EMPTY_SET _ _
  | App OP_RE_OF_PRED _ _ | App OP_RE_RANGE _ _ =>
      ret mk_false
  | App OP_RE_PLUS _ [r1] | App OP_RE_LOOP [P_int (S _)] [r1]
  | App OP_RE_LOOP [P_int (S _); P_int _] [r1] | App OP_RE_REVERSE _ [r1] =>
      rec_ r1 (is_nullable r1)
  | App OP_RE_COMPLEMENT _ [r1] =>
      n1 <- rec_ r1 (is_nullable r1) ;;
      ret (mk_not n1)
  | App OP_SEQ_TO_RE _ [r1] =>
      seq_sort <- verify_is_re r ;;
      ret (mk_eq (str.mk_empty seq_sort) r1)
  | App OP_ITE _ [cond; r1; r2] =>
      n1 <- rec_ r1 (is_nullable r1) ;;
      n2 <- rec_ r2 (is_nullable r2) ;;
      ret (mk_ite cond n1 n2)
  | _ =>
      seq_sort <- verify_is_re r ;;
      ret (re.mk_in_re (str.mk_empty seq_sort) r)
  end.

Definition is_nullable_rec (r : expr) : M expr :=
  is_nullable_rec_with (is_nullable r) r.

(** ** Derivatives *)

Definition re_and (cond r : expr) : expr :=
  if is_true cond then r
  else
    let re_empty := re.mk_empty (get_sort r) in
    if is_false cond then re_empty
    else mk_ite cond r re_empty.

Definition re_predicate (cond : expr) (seq_sort : sort) : expr :=
  re_and cond (re.mk_to_re (str.mk_empty seq_sort)).

(** [mk_seq_concat(a, b, result)]. *)
Definition mk_seq_concat_core (a b : expr) : br_status * option expr :=
  let isc1 := if m_coalesce_chars then str.is_string a else None in
  let isc2 := if m_coalesce_chars then str.is_string b else None in
  match isc1, isc2 with
  | Some s1, Some s2 => (BR_DONE, Some (str.mk_string (s1 ++ s2)))
  | _, _ =>
      match str.is_concat a with
      | Some (c, d) =>
          (BR_REWRITE2, Some (str.mk_concat c (str.mk_concat d b)))
      | None =>
          if str.is_empty a then (BR_DONE, Some b)
          else if str.is_empty b then (BR_DONE, Some a)
          else
            match isc1, str.is_concat b with
            | Some s1, Some (c, d) =>
                match str.is_string c with
                | Some s2 =>
                    (BR_DONE, Some (str.mk_concat (str.mk_string (s1 ++ s2)) d))
                | None => (BR_FAILED, None)
                end
            | _, _ => (BR_FAILED, None)
            end
      end
  end.

(** [expr_ref mk_seq_concat(a, b)]. *)
Definition mk_seq_concat (a b : expr) : expr :=
  match mk_seq_concat_core a b with
  | (BR_FAILED, _) | (_, None) => str.mk_concat a b
  | (_, Some result) => result
  end.

(** [get_head_tail]: [s = head + tail] where [|head| = 1]. *)
Fixpoint get_head_tail (s : expr) : option (expr * expr) :=
  match s with
  | App OP_SEQ_UNIT _ [h] => Some (h, str.mk_empty (get_sort s))
  | App OP_STRING_CONST [P_str (c :: s1)] _ =>
      Some (mk_char c, str.mk_string (zextract (c :: s1) 1 (length (c :: s1))))
  | App OP_SEQ_CONCAT _ [h; t] =>
      match get_head_tail h with
      | Some (head, tail) => Some (head, mk_seq_concat tail t)
      | None => None
      end
  | _ => None
  end.

(** [seq_rewriter::mk_re_derivative]: the symbolic derivative of [r] by
    the single element [ele]. *)
Definition mk_re_derivative (ele r : expr) : M (br_status * option expr) :=
  seq_sort <- verify_is_re r ;;
  match is_seq_sort seq_sort with
  | None => abort
  | Some _ =>
      match r with
      | App OP_RE_CONCAT _ [r1; r2] =>
          is_n <- is_nullable r1 ;;
          let dr1 := re.mk_derivative ele r1 in
          let dr2 := re.mk_derivative ele r2 in
          let result := re.mk_concat dr1 r2 in
          if is_false is_n then ret (BR_REWRITE2, Some result)
          else if is_true is_n then
            ret (BR_REWRITE3, Some (re.mk_union result dr2))
          else
            ret (BR_REWRITE3, Some (mk_ite is_n (re.mk_union result dr2) result))
      | App OP_RE_STAR _ [r1] =>
          ret (BR_REWRITE2, Some (re.mk_concat (re.mk_derivative ele r1) r))
      | App OP_RE_PLUS _ [r1] =>
          ret (BR_REWRITE1, Some (re.mk_derivative ele (re.mk_star r1)))
      | App OP_RE_UNION _ [r1; r2] =>
          ret (BR_REWRITE2,
               Some (re.mk_union (re.mk_derivative ele r1) (re.mk_derivative ele r2)))
      | App OP_RE_INTERSECT _ [r1; r2] =>
          ret (BR_REWRITE2,
               Some (re.mk_inter (re.mk_derivative ele r1) (re.mk_derivative ele r2)))
      | App OP_RE_DIFF _ [r1; r2] =>
          ret (BR_REWRITE2,
               Some (re.mk_diff (re.mk_derivative ele r1) (re.mk_derivative ele r2)))
      | App OP_ITE _ [p; r1; r2] =>
          ret (BR_REWRITE2,
               Some (mk_ite p (re.mk_derivative ele r1) (re.mk_derivative ele r2)))
      | App OP_RE_OPTION _ [r1] =>
          ret (BR_REWRITE1, Some (re.mk_derivative ele r1))
      | App OP_RE_COMPLEMENT _ [r1] =>
          ret (BR_REWRITE2, Some (re.mk_complement (re.mk_derivative ele r1)))
      | App OP_RE_LOOP [P_int lo] [r1] =>
          ret (BR_REWRITE2,
               Some (re.mk_concat (re.mk_derivative ele r1)
                       (re.mk_loop r1 (Nat.pred lo))))
      | App OP_RE_LOOP [P_int lo; P_int hi] [r1] =>
          match hi with
          | O => ret (BR_DONE, Some (re.mk_empty (get_sort r)))
          | S hi' =>
              ret (BR_REWRITE2,
                   Some (re.mk_concat (re.mk_derivative ele r1)
                           (re.mk_loop2 r1 (Nat.pred lo) hi')))
          end
      | App OP_RE_FULL_SEQ_SET _ _ | App OP_RE_EMPTY_SET _ _ =>
          ret (BR_DONE, Some r)
      | App OP_SEQ_TO_RE _ [r1] =>
          match get_head_tail r1 with
          | Some (hd, tl) =>
              ret (BR_REWRITE2, Some (re_and (mk_eq ele hd) (re.mk_to_re tl)))
          | None =>
              if str.is_empty r1
              then ret (BR_DONE, Some (re.mk_empty (get_sort r)))
              else ret (BR_FAILED, None)
          end
      | App OP_RE_RANGE _ [r1; r2] =>
          match str.is_string r1, str.is_string r2 with
          | Some s1, Some s2 =>
              match s1, s2 with
              | [c1], [c2] =>
                  let cond :=
                    m_mk_and (mk_char_le (mk_char c1) ele)
                             (mk_char_le ele (mk_char c2)) in
                  ret (BR_REWRITE3, Some (re_predicate cond seq_sort))
              | _, _ => ret (BR_DONE, Some (re.mk_empty (get_sort r)))
              end
          | _, _ =>
              match str.is_unit r1, str.is_unit r2 with
              | Some e1, Some e2 =>
                  let cond := m_mk_and (mk_char_le e1 ele) (mk_char_le ele e2) in
                  ret (BR_REWRITE2, Some (re_predicate cond seq_sort))
              | _, _ => ret (BR_FAILED, None)
              end
          end
      | App OP_RE_FULL_CHAR_SET _ _ =>
          ret (BR_DONE, Some (re.mk_to_re (str.mk_empty seq_sort)))
      | App OP_RE_OF_PRED _ [p] =>
          ret (BR_REWRITE2, Some (re_predicate (mk_select p ele) seq_sort))
      | _ => ret (BR_FAILED, None)
      end
  end.

(** ** The if-then-else canonicalizer *)

Definition is_ite (e : expr) : option (expr * expr * expr) :=
  match e with App OP_ITE _ [c; t; el] => Some (c, t, el) | _ => None end.

(** [seq_rewriter::combine_ites].  The recursion is not structural (the
    outer call takes the results of the inner ones), so it is bounded by
    [fuel]; [combine_ites_terminates] below shows that enough fuel always
    exists.  With [k == OP_ITE] the condition is dereferenced, which
    stops the computation when it is null. *)
Fixpoint combine_ites (fuel : nat) (k : decl_kind) (a b : expr)
  (cond : option expr) {struct fuel} : M expr :=
  fun c =>
    match op_cache_ops.find c k (Some a) (Some b) cond with
    | Some result => Done result c
    | None =>
        match fuel with
        | O => Timeout
        | S fuel' =>
            let body : M expr :=
              if decl_kind_eq_dec k OP_ITE then
                match cond with
                | None => abort
                | Some cnd =>
                    let on_b : M expr :=
                      match is_ite b with
                      | Some (bcond, b1, b2) =>
                          if get_id cnd <? get_id bcond then
                            (* case 1c: push ITE inwards on second arg *)
                            result1 <- combine_ites fuel' k a b1 cond ;;
                            result2 <- combine_ites fuel' k a b2 cond ;;
                            combine_ites fuel' k result1 result2 (Some bcond)
                          else if expr_eqb cnd bcond then
                            (* case 1d: collapse ITE on second arg *)
                            combine_ites fuel' k a b2 cond
                          else ret (mk_ite cnd a b)
                      | None => ret (mk_ite cnd a b)
                      end in
                    match is_ite a with
                    | Some (acond, a1, a2) =>
                        if get_id cnd <? get_id acond then
                          (* case 1a: push ITE inwards on first arg *)
                          result1 <- combine_ites fuel' k a1 b cond ;;
                          result2 <- combine_ites fuel' k a2 b cond ;;
                          combine_ites fuel' k result1 result2 (Some acond)
                        else if expr_eqb cnd acond then
                          (* case 1b: collapse ITE on first arg *)
                          combine_ites fuel' k a1 b cond
                        else on_b
                    | None => on_b
                    end
                end
              else
                match is_ite a with
                | Some (acond, a1, a2) =>
                    (* case 2: push binary op inwards on first arg *)
                    result1 <- combine_ites fuel' k a1 b None ;;
                    result2 <- combine_ites fuel' k a2 b None ;;
                    combine_ites fuel' OP_ITE result1 result2 (Some acond)
                | None =>
                    match is_ite b with
                    | Some (bcond, b1, b2) =>
                        (* case 3: push binary op inwards on second arg *)
                        result1 <- combine_ites fuel' k a b1 None ;;
                        result2 <- combine_ites fuel' k a b2 None ;;
                        combine_ites fuel' OP_ITE result1 result2 (Some bcond)
                    | None =>
                        (* case 4: apply binary op *)
                        ret (mk_app k [a; b])
                    end
                end in
            match body c with
            | Done result c' =>
                Done result (op_cache_ops.insert c' k (Some a) (Some b) cond result)
            | Abort => Abort
            | Timeout => Timeout
            end
        end
    end.

(** [seq_rewriter::lift_ites].  As in the source, the results [result1]
    and [result2] of the recursive calls are computed (they fill the
    cache) and the combination is then applied to the children [r1] and
    [r2] themselves. *)
Fixpoint lift_ites (fuel : nat) (r : expr)
  (lift_over_union lift_over_inter : bool) {struct r} : M expr :=
  let k := get_decl_kind r in
  match r with
  | App OP_RE_UNION _ [r1; r2] =>
      if negb lift_over_union then
        _ <- lift_ites fuel r1 lift_over_union lift_over_inter ;;
        _ <- lift_ites fuel r2 lift_over_union lift_over_inter ;;
        ret (mk_app k [r1; r2])
      else
        _ <- lift_ites fuel r1 true true ;;
        _ <- lift_ites fuel r2 true true ;;
        combine_ites fuel k r1 r2 None
  | App OP_RE_INTERSECT _ [r1; r2] =>
      if negb lift_over_inter then
        _ <- lift_ites fuel r1 lift_over_union lift_over_inter ;;
        _ <- lift_ites fuel r2 lift_over_union lift_over_inter ;;
        ret (mk_app k [r1; r2])
      else
        _ <- lift_ites fuel r1 true true ;;
        _ <- lift_ites fuel r2 true true ;;
        combine_ites fuel k r1 r2 None
  | App OP_ITE _ [cond; r1; r2] =>
      _ <- lift_ites fuel r1 true true ;;
      _ <- lift_ites fuel r2 true true ;;
      combine_ites fuel k r1 r2 (Some cond)
  | App OP_RE_CONCAT _ [r1; r2] | App OP_RE_DIFF _ [r1; r2] =>
      _ <- lift_ites fuel r1 true true ;;
      _ <- lift_ites fuel r2 true true ;;
      combine_ites fuel k r1 r2 None
  | App OP_RE_STAR _ [r1] | App OP_RE_PLUS _ [r1] | App OP_RE_OPTION _ [r1]
  | App OP_RE_COMPLEMENT _ [r1] | App OP_RE_REVERSE _ [r1] =>
      _ <- lift_ites fuel r1 true true ;;
      ret (mk_app k [r1])
  | App OP_RE_DERIVATIVE _ [ele; r1] =>
      _ <- lift_ites fuel r1 true true ;;
      ret (mk_app k [ele; r1])
  | App OP_RE_LOOP [P_int lo] [r1] =>
      result1 <- lift_ites fuel r1 true true ;;
      ret (re.mk_loop result1 lo)
  | App OP_RE_LOOP [P_int lo; P_int hi] [r1] =>
      result1 <- lift_ites fuel r1 true true ;;
      ret (re.mk_loop2 result1 lo hi)
  | _ => ret r
  end.

(** BDD form, as the source defines it above [combine_ites]: the
    if-then-elses are pushed outwards (nothing below a regex operator),
    sorted by condition identifier from the largest on the outside to the
    smallest on the inside, without duplicate nested conditions. *)
Definition is_re_op (k : decl_kind) : bool :=
  match k with
  | OP_RE_PLUS | OP_RE_STAR | OP_RE_OPTION | OP_RE_CONCAT | OP_RE_UNION
  | OP_RE_DIFF | OP_RE_INTERSECT | OP_RE_LOOP | OP_RE_COMPLEMENT
  | OP_RE_REVERSE | OP_RE_DERIVATIVE => true
  | _ => false
  end.

Fixpoint ite_free (e : expr) : bool :=
  match e with
  | App OP_ITE _ _ => false
  | App k _ args =>
      if is_re_op k then
        (fix all (l : list expr) : bool :=
           match l with
           | [] => true
           | x :: xs => ite_free x && all xs
           end) args
      else true
  end.

Fixpoint bdd_below (bound : option nat) (e : expr) : bool :=
  match e with
  | App OP_ITE _ [c; t; el] =>
      match bound with
      | None => true
      | Some n => get_id c <? n
      end
      && bdd_below (Some (get_id c)) t
      && bdd_below (Some (get_id c)) el
  | _ => ite_free e
  end.

Definition is_bdd_form (e : expr) : bool := bdd_below None e.

(** ** Flattening concatenations

    Modelled from the spec: [seq_util::str::get_concat],
    [get_concat_units] and the n-ary [mk_concat] are defined in the absent
    header [seq_decl_plugin.h].  The spec's data model gives a sequence as
    a concatenation tree of units, string literals and opaque
    sub-sequences in which an empty-sequence node is never kept as an
    operand, and has concatenations re-associated to the right. *)
Fixpoint get_concat (e : expr) : list expr :=
  match e with
  | App OP_SEQ_CONCAT _ [e1; e2] => get_concat e1 ++ get_concat e2
  | _ => if str.is_empty e then [] else [e]
  end.

Fixpoint get_concat_units (e : expr) : list expr :=
  match e with
  | App OP_SEQ_CONCAT _ [e1; e2] => get_concat_units e1 ++ get_concat_units e2
  | App OP_STRING_CONST [P_str z] _ => map (fun c => str.mk_unit (mk_char c)) z
  | _ => if str.is_empty e then [] else [e]
  end.

Fixpoint mk_concat_n (es : list expr) (s : sort) : expr :=
  match es with
  | [] => str.mk_empty s
  | [e] => e
  | e :: es' => str.mk_concat e (mk_concat_n es' s)
  end.

(** [str().mk_is_empty(s)]: equality with the empty sequence of its sort. *)
Definition mk_is_empty (e : expr) : expr :=
  mk_eq e (str.mk_empty (get_sort e)).

(** ** [extract] *)

Inductive sign : Type := sign_neg | sign_zero | sign_pos.

Definition sign_eqb (a b : sign) : bool :=
  match a, b with
  | sign_neg, sign_neg | sign_zero, sign_zero | sign_pos, sign_pos => true
  | _, _ => false
  end.

(** [sign_is_determined(e, s)]; [None] is the answer [false]. *)
Fixpoint sign_is_determined (e : expr) : option sign :=
  match e with
  | App OP_ADD _ args =>
      (fix loop (l : list expr) (s : sign) : option sign :=
         match l with
         | [] => Some s
         | arg :: l' =>
             match sign_is_determined arg with
             | None => None
             | Some s1 =>
                 if sign_eqb s sign_zero then loop l' s1
                 else if sign_eqb s1 sign_zero then loop l' s
                 else if negb (sign_eqb s1 s) then None
                 else loop l' s
             end
         end) args sign_zero
  | App OP_MUL _ args =>
      (fix loop (l : list expr) (s : sign) : option sign :=
         match l with
         | [] => Some s
         | arg :: l' =>
             match sign_is_determined arg with
             | None => None
             | Some s1 =>
                 if sign_eqb s1 sign_zero then Some sign_zero
                 else if sign_eqb s sign_zero then loop l' s1
                 else if negb (sign_eqb s s1) then loop l' sign_neg
                 else loop l' sign_pos
             end
         end) args sign_zero
  | App OP_SEQ_LENGTH _ _ => Some sign_pos
  | App OP_NUM [P_num r] _ =>
      if 0 <? r then Some sign_pos
      else if r <? 0 then Some sign_neg
      else Some sign_zero
  | _ => None
  end%Z.

(** [get_lengths(e, lens, pos)]; [None] is the answer [false]. *)
Fixpoint get_lengths (e : expr) (lens : list expr) (pos : Z) :
  option (list expr * Z) :=
  match e with
  | App OP_ADD _ args =>
      (fix loop (l : list expr) (lens : list expr) (pos : Z) :=
         match l with
         | [] => Some (lens, pos)
         | arg1 :: l' =>
             match get_lengths arg1 lens pos with
             | None => None
             | Some (lens', pos') => loop l' lens' pos'
             end
         end) args lens pos
  | App OP_SEQ_LENGTH _ [arg] => Some (lens ++ [arg], pos)
  | App OP_NUM [P_num pos1] _ => Some (lens, (pos + pos1)%Z)
  | _ => None
  end.

Definition contains (l : list expr) (e : expr) : bool :=
  existsb (expr_eqb e) l.

(** [ptr_vector::erase(elem)]: the first occurrence is removed. *)
Fixpoint erase (l : list expr) (e : expr) : list expr :=
  match l with
  | [] => []
  | x :: xs => if expr_eqb e x then xs else x :: erase xs e
  end.

Definition is_suffix (s offset len : expr) : bool :=
  match get_lengths len [] 0%Z with
  | None => false
  | Some (lens, a) =>
      match autil.is_numeral offset with
      | Some b => (0 <? b)%Z && (- a =? b)%Z && contains lens s
      | None => false
      end
  end.

Definition is_unit_b (e : expr) : bool :=
  match str.is_unit e with Some _ => true | None => false end.

Definition uint_max : Z := 2 ^ 32.

(** [rational::is_unsigned]. *)
Definition is_unsigned (z : Z) : bool := ((0 <=? z) && (z <? uint_max))%Z.

(** The loop of [mk_seq_extract] that cancels a prefix of [m_lhs]
    against the lengths found in the position. *)
Fixpoint strip_lengths (lhs lens : list expr) (pos : Z) (i : nat) :
  nat * list expr * Z :=
  match lhs with
  | [] => (i, lens, pos)
  | e :: lhs' =>
      if contains lens e then strip_lengths lhs' (erase lens e) pos (S i)
      else if is_unit_b e && (0 <? pos)%Z then
        strip_lengths lhs' lens (pos - 1)%Z (S i)
      else (i, lens, pos)
  end.

(** [for (; offset < as.size() && is_unit(as[offset]) && offset < _pos; ++offset)]. *)
Fixpoint count_units (l : list expr) (bound : nat) : nat :=
  match l, bound with
  | e :: l', S bound' => if is_unit_b e then S (count_units l' bound') else 0
  | _, _ => 0
  end.

(** [seq_rewriter::mk_seq_extract].  Numerals are integers; the
    [unsigned] sum [_pos + _len] wraps at [2^32]. *)
Definition mk_seq_extract (a b c : expr) : br_status * option expr :=
  let constantBase := str.is_string a in
  let constantPos := autil.is_numeral b in
  let constantLen := autil.is_numeral c in
  let lengthPos :=
    match b with App OP_SEQ_LENGTH _ _ => true | _ => false end
    || autil.is_add b in
  let a_sort := get_sort a in
  let neg_len :=
    match sign_is_determined c with Some sign_neg => true | _ => false end in
  let case1 :=
    match constantPos with Some pos => (pos <? 0)%Z | None => false end
    || match constantLen with Some len => negb (0 <? len)%Z | None => false end in
  let case11 :=
    match constantPos, constantBase with
    | Some pos, Some s => (Z.of_nat (length s) <=? pos)%Z
    | _, _ => false
    end in
  if neg_len then (BR_DONE, Some (str.mk_empty a_sort))
  else if case1 then (BR_DONE, Some (str.mk_empty a_sort))
  else if case11 then (BR_DONE, Some (str.mk_empty a_sort))
  else
    let constantPos :=
      match constantPos with
      | Some pos => if is_unsigned pos then Some pos else None
      | None => None
      end in
    let constantLen :=
      match constantLen with
      | Some len => if is_unsigned len then Some len else None
      | None => None
      end in
    match constantPos, constantLen, constantBase with
    | Some pos, Some len, Some s =>
        let _pos := Z.to_nat pos in
        let _len := Z.to_nat len in
        if (Z.of_nat (length s) <=? (pos + len) mod uint_max)%Z then
          (* case 2: pos+len goes past the end of the string *)
          let _len' :=
            Z.to_nat ((Z.of_nat (length s) - pos + 1) mod uint_max) in
          (BR_DONE, Some (str.mk_string (zextract s _pos _len')))
        else
          (* case 3: pos+len still within string *)
          (BR_DONE, Some (str.mk_string (zextract s _pos _len)))
    | _, _, _ =>
        let as_ := get_concat_units a in
        match as_ with
        | [] => (BR_DONE, Some (str.mk_empty (get_sort a)))
        | as0 :: _ =>
            if lengthPos then
              match get_lengths b [] 0%Z with
              | None => (BR_FAILED, None)
              | Some (lens, pos) =>
                  if (pos <? 0)%Z then (BR_FAILED, None)
                  else
                    let m_lhs := get_concat a in
                    let '(i, lens', pos') := strip_lengths m_lhs lens pos 0 in
                    match i with
                    | O => (BR_FAILED, None)
                    | S _ =>
                        let t1 := mk_concat_n (skipn i m_lhs) (get_sort a) in
                        let t2 :=
                          fold_left
                            (fun t rhs => autil.mk_add t (str.mk_length rhs))
                            lens' (autil.mk_int pos') in
                        (BR_REWRITE2, Some (str.mk_substr t1 t2 c))
                    end
              end
            else
              match constantPos with
              | None => (BR_FAILED, None)
              | Some pos =>
                  let _pos := Z.to_nat pos in
                  let whole :=
                    match _pos, str.is_length c with
                    | O, Some a2 =>
                        match get_concat a with
                        | e0 :: _ => if expr_eqb e0 a2 then Some a2 else None
                        | [] => None
                        end
                    | _, _ => None
                    end in
                  match whole with
                  | Some a2 => (BR_DONE, Some a2)
                  | None =>
                      let nested :=
                        match str.is_extract a with
                        | Some (a1, b1, c1) =>
                            if is_suffix a1 b1 c1 && is_suffix a b c
                            then Some (a1, b1, c1) else None
                        | None => None
                        end in
                      match nested with
                      | Some (a1, b1, c1) =>
                          (BR_REWRITE3,
                           Some (str.mk_substr a1 (autil.mk_add b1 b)
                                   (autil.mk_sub c1 b)))
                      | None =>
                          let offset := count_units as_ _pos in
                          if (offset =? 0) && (0 <? _pos) then (BR_FAILED, None)
                          else if (_pos =? 0) && forallb is_unit_b as_ then
                            (BR_REWRITE_FULL,
                             Some (fold_left
                                     (fun result i =>
                                        mk_ite
                                          (autil.mk_ge c (autil.mk_int (Z.of_nat i)))
                                          (mk_concat_n (firstn i as_) (get_sort a))
                                          result)
                                     (seq 1 (length as_))
                                     (str.mk_empty (get_sort a))))
                          else if (_pos =? 0)
                                  && match constantLen with
                                     | None => true
                                     | Some _ => false
                                     end
                          then (BR_FAILED, None)
                          else if offset =? length as_ then
                            (BR_DONE, Some (str.mk_empty (get_sort a)))
                          else
                            let direct :=
                              match constantLen with
                              | Some len =>
                                  if _pos =? offset then
                                    let _len := Z.to_nat len in
                                    let i :=
                                      offset
                                      + count_units (skipn offset as_) _len in
                                    if i - offset =? _len then
                                      Some (mk_concat_n
                                              (firstn _len (skipn offset as_))
                                              (get_sort a))
                                    else if i =? length as_ then
                                      Some (mk_concat_n (skipn offset as_)
                                              (get_sort as0))
                                    else None
                                  else None
                              | None => None
                              end in
                            match direct with
                            | Some result => (BR_DONE, Some result)
                            | None =>
                                if offset =? 0 then (BR_FAILED, None)
                                else
                                  let pos1 :=
                                    autil.mk_sub b
                                      (autil.mk_int (Z.of_nat offset)) in
                                  let result :=
                                    mk_concat_n (skipn offset as_)
                                      (get_sort as0) in
                                  (BR_REWRITE3,
                                   Some (str.mk_substr result pos1 c))
                            end
                      end
                  end
              end
        end
    end.

(** ** [str.to_int] *)

Definition minus_one : expr := autil.mk_int (-1).
Definition zero : expr := autil.mk_int 0.

Definition is_digit (c : nat) : bool := (48 <=? c) && (c <=? 57).

(** [m_util.is_const_char(e, ch)]. *)
Definition is_const_char (e : expr) : option nat :=
  match e with App OP_CHAR_CONST [P_int c] _ => Some c | _ => None end.

(** [seq_rewriter::mk_str_stoi]. *)
Definition mk_str_stoi (a : expr) : br_status * option expr :=
  match str.is_string a with
  | Some s =>
      let s1 := zencode s in
      match s1 with
      | [] => (BR_DONE, Some minus_one)
      | _ =>
          if forallb is_digit s1
          then (BR_DONE, Some (autil.mk_numeral (rational_of_string s1)))
          else (BR_DONE, Some minus_one)
      end
  | None =>
      match str.is_itos a with
      | Some b => (BR_DONE, Some (mk_ite (autil.mk_ge b zero) b minus_one))
      | None =>
          match is_ite a with
          | Some (c, t, e) =>
              (BR_REWRITE_FULL, Some (mk_ite c (str.mk_stoi t) (str.mk_stoi e)))
          | None =>
              let unit_char :=
                match str.is_unit a with
                | Some u => is_const_char u
                | None => None
                end in
              match unit_char with
              | Some ch =>
                  if is_digit ch
                  then (BR_DONE, Some (autil.mk_int (Z.of_nat (ch - 48))))
                  else (BR_DONE, Some (autil.mk_int (-1)))
              | None =>
                  let as_ := get_concat_units a in
                  match rev as_ with
                  | [] => (BR_DONE, Some (autil.mk_int (-1)))
                  | last_ :: rev_init =>
                      if is_unit_b last_ then
                        (* if head = "" then tail else
                           if tail < 0 then tail else
                           if stoi(head) >= 0 then stoi(head)*10+tail else -1 *)
                        let tail := str.mk_stoi last_ in
                        let head := mk_concat_n (rev rev_init) (get_sort a) in
                        let stoi_head := str.mk_stoi head in
                        let result :=
                          mk_ite (autil.mk_ge stoi_head (autil.mk_int 0))
                            (autil.mk_add
                               (autil.mk_mul (autil.mk_int 10) stoi_head) tail)
                            (autil.mk_int (-1)) in
                        let result :=
                          mk_ite (autil.mk_ge tail (autil.mk_int 0)) result tail in
                        let result := mk_ite (mk_is_empty head) tail result in
                        (BR_REWRITE_FULL, Some result)
                      else (BR_FAILED, None)
                  end
              end
          end
      end
  end.

(** ** Word equations *)

(** The working state of a reduction: the two sides and the derived
    equalities.  [push_back] on a vector is [++ [_]]. *)
Definition weq_state : Type :=
  (list expr * list expr * list (expr * expr))%type.

(** Outcome of a reduction step: [Reduced] is the answer [true],
    [Refuted] the answer [false], and [Undefined] stands for a read past
    the end of a string or vector, on which the source asserts. *)
Inductive weq_result : Type :=
| Reduced (st : weq_state)
| Refuted
| Undefined.

Definition and_then (r : weq_result) (f : weq_state -> weq_result) : weq_result :=
  match r with
  | Reduced st => f st
  | Refuted => Refuted
  | Undefined => Undefined
  end.

Definition is_concat_b (e : expr) : bool :=
  match e with App OP_SEQ_CONCAT _ _ => true | _ => false end.

Definition is_string_b (e : expr) : bool :=
  match str.is_string e with Some _ => true | None => false end.

Definition remove_empty_and_concats (es : list expr) : list expr :=
  let has_concat := existsb is_concat_b es in
  let es' := filter (fun e => negb (str.is_empty e)) es in
  if has_concat then flat_map get_concat es' else es'.

Definition remove_leading (n : nat) (es : list expr) : list expr := skipn n es.

(** Size of a side: every operand counts, and every character of a
    literal.  Each round of the two stripping loops lowers it. *)
Definition weight (es : list expr) : nat :=
  fold_right
    (fun e n => match str.is_string e with
                | Some s => S (length s) + n
                | None => S n
                end) 0 es.

(** The body of a round of [reduce_back], once [l] and [r] are in the
    order the tests below expect; the sides are reversed, so that [ls]
    are the operands before [ls.back()].  [inl] carries on with the
    loop, [inr] leaves it. *)
Definition reduce_back_round (l : expr) (ls : list expr) (r : expr)
  (rs : list expr) (new_eqs : list (expr * expr)) : (weq_state + weq_result) :=
  if expr_eqb l r then inl (ls, rs, new_eqs)
  else
    match str.is_unit l, str.is_unit r with
    | Some a, Some b =>
        if are_distinct a b then inr Refuted
        else inl (ls, rs, new_eqs ++ [(a, b)])
    | _, _ =>
        match str.is_unit l, str.is_string r with
        | Some a, Some s =>
            match rev s with
            | [] => inr Undefined
            | ch :: _ =>
                let new_eqs' := new_eqs ++ [(mk_char ch, a)] in
                if length s =? 1 then inl (ls, rs, new_eqs')
                else
                  let s2 := str.mk_string (zextract s 0 (length s - 1)) in
                  inl (ls, s2 :: rs, new_eqs')
            end
        | _, _ =>
            match str.is_string l, str.is_string r with
            | Some s1, Some s2 =>
                let min_l := Nat.min (length s1) (length s2) in
                if forallb
                     (fun i =>
                        nth (length s1 - i - 1) s1 0
                        =? nth (length s2 - i - 1) s2 0)
                     (seq 0 min_l)
                then
                  let ls' :=
                    if min_l <? length s1
                    then str.mk_string (zextract s1 0 (length s1 - min_l)) :: ls
                    else ls in
                  let rs' :=
                    if min_l <? length s2
                    then str.mk_string (zextract s2 0 (length s2 - min_l)) :: rs
                    else rs in
                  inl (ls', rs', new_eqs)
                else inr Refuted
            | _, _ => inr (Reduced (l :: ls, r :: rs, new_eqs))
            end
        end
    end.

(** One round of [reduce_back] on the reversed sides (the head of [ls]
    is [ls.back()]): the two sides change places when [r] is a unit and
    [l] a literal. *)
Definition reduce_back_step (ls rs : list expr) (new_eqs : list (expr * expr)) :
  (weq_state + weq_result) :=
  match ls, rs with
  | [], _ | _, [] => inr (Reduced (ls, rs, new_eqs))
  | l :: ls', r :: rs' =>
      if is_unit_b r && is_string_b l
      then reduce_back_round r rs' l ls' new_eqs
      else reduce_back_round l ls' r rs' new_eqs
  end.

Fixpoint reduce_back_loop (fuel : nat) (ls rs : list expr)
  (new_eqs : list (expr * expr)) : weq_result :=
  match reduce_back_step ls rs new_eqs with
  | inr res => res
  | inl (ls', rs', new_eqs') =>
      match fuel with
      | O => Undefined
      | S fuel' => reduce_back_loop fuel' ls' rs' new_eqs'
      end
  end.

(** [seq_rewriter::reduce_back].  The loop runs at most
    [weight ls + weight rs] rounds. *)
Definition reduce_back (ls rs : list expr) (new_eqs : list (expr * expr)) :
  weq_result :=
  match reduce_back_loop (weight ls + weight rs) (rev ls) (rev rs) new_eqs with
  | Reduced (ls', rs', eqs') => Reduced (rev ls', rev rs', eqs')
  | other => other
  end.

(** The body of a round of [reduce_front], once [l] and [r] are in the
    order the tests expect; [ls] and [rs] are the operands after
    [head1] and [head2]. *)
Definition reduce_front_round (l : expr) (ls : list expr) (r : expr)
  (rs : list expr) (new_eqs : list (expr * expr)) : (weq_state + weq_result) :=
  if expr_eqb l r then inl (ls, rs, new_eqs)
  else
    match str.is_unit l, str.is_unit r with
    | Some a, Some b =>
        if are_distinct a b then inr Refuted
        else inl (ls, rs, new_eqs ++ [(a, b)])
    | _, _ =>
        match str.is_unit l, str.is_string r with
        | Some a, Some s =>
            match s with
            | [] => inr Undefined
            | ch :: _ =>
                let new_eqs' := new_eqs ++ [(mk_char ch, a)] in
                if length s =? 1 then inl (ls, rs, new_eqs')
                else
                  let s2 := str.mk_string (zextract s 1 (length s - 1)) in
                  inl (ls, s2 :: rs, new_eqs')
            end
        | _, _ =>
            match str.is_string l, str.is_string r with
            | Some s1, Some s2 =>
                let min_l := Nat.min (length s1) (length s2) in
                if forallb (fun i => nth i s1 0 =? nth i s2 0) (seq 0 min_l)
                then
                  let ls' :=
                    if min_l =? length s1 then ls
                    else str.mk_string
                           (zextract s1 min_l (length s1 - min_l)) :: ls in
                  let rs' :=
                    if min_l =? length s2 then rs
                    else str.mk_string
                           (zextract s2 min_l (length s2 - min_l)) :: rs in
                  inl (ls', rs', new_eqs)
                else inr Refuted
            | _, _ => inr (Reduced (l :: ls, r :: rs, new_eqs))
            end
        end
    end.

(** One round of [reduce_front]; the sides are the operands from
    [head1] and [head2] on. *)
Definition reduce_front_step (ls rs : list expr) (new_eqs : list (expr * expr)) :
  (weq_state + weq_result) :=
  match ls, rs with
  | [], _ | _, [] => inr (Reduced (ls, rs, new_eqs))
  | l :: ls', r :: rs' =>
      if is_unit_b r && is_string_b l
      then reduce_front_round r rs' l ls' new_eqs
      else reduce_front_round l ls' r rs' new_eqs
  end.

Fixpoint reduce_front_loop (fuel : nat) (ls rs : list expr)
  (new_eqs : list (expr * expr)) : weq_result :=
  match reduce_front_step ls rs new_eqs with
  | inr res => res
  | inl (ls', rs', new_eqs') =>
      match fuel with
      | O => Undefined
      | S fuel' => reduce_front_loop fuel' ls' rs' new_eqs'
      end
  end.

(** [seq_rewriter::reduce_front]. *)
Definition reduce_front (ls rs : list expr) (new_eqs : list (expr * expr)) :
  weq_result :=
  reduce_front_loop (weight ls + weight rs) ls rs new_eqs.

(** [seq_rewriter::is_string(n, es, s)]. *)
Fixpoint is_string_vec (es : list expr) (s : zstring) : option zstring :=
  match es with
  | [] => Some s
  | e :: es' =>
      match str.is_string e with
      | Some s1 => is_string_vec es' (s ++ s1)
      | None =>
          match str.is_unit e with
          | Some u =>
              match is_const_char u with
              | Some ch => is_string_vec es' (s ++ [ch])
              | None => None
              end
          | None => None
          end
      end
  end.

(** [seq_rewriter::reduce_itos]: [itos(n) = <numeric string> -> n = numeric]. *)
Definition reduce_itos (ls rs : list expr) (eqs : list (expr * expr)) :
  weq_result :=
  match ls with
  | [l0] =>
      match str.is_itos l0, is_string_vec rs [] with
      | Some n, Some s =>
          let s1 := zencode s in
          let r := rational_of_string s1 in
          if list_eq_dec Nat.eq_dec s1 (rational_to_string r)
          then Reduced ([], [], eqs ++ [(n, autil.mk_numeral r)])
          else Reduced (ls, rs, eqs)
      | _, _ => Reduced (ls, rs, eqs)
      end
  | _ => Reduced (ls, rs, eqs)
  end.

(** [seq_rewriter::min_length]: the minimal length and whether it is
    also the maximal one. *)
Fixpoint min_length (es : list expr) : bool * nat :=
  match es with
  | [] => (true, 0)
  | e :: es' =>
      let '(bounded, len) := min_length es' in
      if is_unit_b e then (bounded, S len)
      else if str.is_empty e then (bounded, len)
      else
        match str.is_string e with
        | Some s => (bounded, length s + len)
        | None => (false, len)
        end
  end.

(** [seq_rewriter::set_empty]; [None] is the answer [false].  The empty
    sequence [emp] is built for the first symbolic operand and reused. *)
Fixpoint set_empty_loop (es : list expr) (all : bool) (emp : option expr)
  (eqs : list (expr * expr)) : option (list (expr * expr)) :=
  match es with
  | [] => Some eqs
  | e :: es' =>
      if is_unit_b e then (if all then None else set_empty_loop es' all emp eqs)
      else if str.is_empty e then set_empty_loop es' all emp eqs
      else
        match str.is_string e with
        | Some s =>
            match s with
            | [] => set_empty_loop es' all emp eqs
            | _ => if all then None else set_empty_loop es' all emp eqs
            end
        | None =>
            let emp' :=
              match emp with
              | Some x => x
              | None => str.mk_empty (get_sort e)
              end in
            set_empty_loop es' all (Some emp') (eqs ++ [(emp', e)])
        end
  end.

Definition set_empty (es : list expr) (all : bool) (eqs : list (expr * expr)) :
  option (list (expr * expr)) :=
  set_empty_loop es all None eqs.

(** [seq_rewriter::concat_non_empty]; the sort is read from [es.get(0)]. *)
Definition concat_non_empty (es : list expr) : option expr :=
  match es with
  | [] => None
  | e0 :: _ =>
      Some (mk_concat_n (filter (fun e => is_unit_b e || is_string_b e) es)
              (get_sort e0))
  end.

Definition reduce_by_length (ls rs : list expr) (eqs : list (expr * expr)) :
  weq_result :=
  match ls, rs with
  | [], [] => Reduced (ls, rs, eqs)
  | _, _ =>
      let '(bounded1, len1) := min_length ls in
      let '(bounded2, len2) := min_length rs in
      if bounded1 && (len1 <? len2) then Refuted
      else if bounded2 && (len2 <? len1) then Refuted
      else if bounded1 && (len1 =? len2) && (0 <? len1) then
        match set_empty rs false eqs with
        | None => Refuted
        | Some eqs' =>
            match concat_non_empty ls, concat_non_empty rs with
            | Some l, Some r => Reduced ([], [], eqs' ++ [(l, r)])
            | _, _ => Undefined
            end
        end
      else if bounded2 && (len1 =? len2) && (0 <? len1) then
        match set_empty ls false eqs with
        | None => Refuted
        | Some eqs' =>
            match concat_non_empty ls, concat_non_empty rs with
            | Some l, Some r => Reduced ([], [], eqs' ++ [(l, r)])
            | _, _ => Undefined
            end
        end
      else Reduced (ls, rs, eqs)
  end.

(** [non_overlap(zstring, zstring)], for [|s1| <= |s2|]. *)
Definition str_can_overlap (s1 s2 : zstring) (start1 end1 start2 : nat) : bool :=
  forallb (fun i => nth i s1 0 =? nth (start2 + i) s2 0)
    (seq start1 (end1 - start1)).

Definition str_non_overlap_core (s1 s2 : zstring) : bool :=
  let sz1 := length s1 in
  let sz2 := length s2 in
  negb (existsb (fun i => str_can_overlap s1 s2 i sz1 0) (seq 1 (sz1 - 1)))
  && negb (existsb (fun j => str_can_overlap s1 s2 0 sz1 j) (seq 0 (sz2 - sz1)))
  && negb (existsb (fun j => str_can_overlap s1 s2 0 (sz2 - j) j)
             (seq (sz2 - sz1) sz1)).

Definition str_non_overlap (s1 s2 : zstring) : bool :=
  if length s2 <? length s1 then str_non_overlap_core s2 s1
  else str_non_overlap_core s1 s2.

(** The lambda [can_overlap] of [non_overlap(expr_ref_vector, expr_ref_vector)]:
    it answers at the first position that is not provably equal. *)
Fixpoint can_overlap (p1 p2 : list expr) (start2 i n : nat) : bool :=
  match n with
  | O => true
  | S n' =>
      let x := nth i p1 mk_true in
      let y := nth (start2 + i) p2 mk_true in
      if are_distinct x y then false
      else if negb (are_equal x y) then true
      else can_overlap p1 p2 start2 (S i) n'
  end.

Definition non_overlap_core (p1 p2 : list expr) : bool :=
  let sz1 := length p1 in
  let sz2 := length p2 in
  if (sz1 =? 0) || (sz2 =? 0) then false
  else
    let strings :=
      match p1, p2 with
      | [e1], [e2] =>
          match str.is_string e1, str.is_string e2 with
          | Some s1, Some s2 => Some (s1, s2)
          | _, _ => None
          end
      | _, _ => None
      end in
    match strings with
    | Some (s1, s2) => str_non_overlap s1 s2
    | None =>
        if negb (forallb is_unit_b p1) then false
        else if negb (forallb is_unit_b p2) then false
        else
          negb (existsb (fun i => can_overlap p1 p2 0 i (sz1 - i)) (seq 1 (sz1 - 1)))
          && negb (existsb (fun j => can_overlap p1 p2 j 0 sz1) (seq 0 (sz2 - sz1)))
          && negb (existsb (fun j => can_overlap p1 p2 j 0 (sz2 - j))
                     (seq (sz2 - sz1) sz1))
    end.

(** [seq_rewriter::non_overlap(p1, p2)]: the shorter pattern comes first. *)
Definition non_overlap (p1 p2 : list expr) : bool :=
  if length p2 <? length p1 then non_overlap_core p2 p1
  else non_overlap_core p1 p2.

(** The scan of [reduce_non_overlap] over the operands of [ls], with the
    current run of units in [pattern]; [false] when some run cannot
    overlap [rs]. *)
Fixpoint scan_patterns (ls pattern rs : list expr) : bool :=
  match ls with
  | [] =>
      match pattern with
      | [] => true
      | _ => negb (non_overlap pattern rs)
      end
  | x :: ls' =>
      if is_unit_b x then scan_patterns ls' (pattern ++ [x]) rs
      else
        match pattern with
        | [] => scan_patterns ls' [] rs
        | _ =>
            if non_overlap pattern rs then false
            else scan_patterns ls' [] rs
        end
  end.

(** [seq_rewriter::reduce_non_overlap]. *)
Definition reduce_non_overlap (ls rs : list expr) (eqs : list (expr * expr)) :
  bool :=
  if negb (forallb is_unit_b rs) then true
  else scan_patterns ls [] rs.

(** The search of [reduce_subsequence] for the first free position of
    [rs] that matches [x]; [j] counts the positions passed. *)
Fixpoint find_match (x : expr) (rs : list expr) (rpos : list nat) (j : nat) :
  option nat :=
  match rs with
  | [] => None
  | y :: rs' =>
      if negb (existsb (Nat.eqb j) rpos)
         && (expr_eqb x y || (is_unit_b x && is_unit_b y))
      then Some j
      else find_match x rs' rpos (S j)
  end.

Fixpoint match_all (ls rs : list expr) (rpos : list nat) : option (list nat) :=
  match ls with
  | [] => Some rpos
  | x :: ls' =>
      match find_match x rs rpos 0 with
      | None => None
      | Some j => match_all ls' rs (j :: rpos)
      end
  end.

(** The second loop of [reduce_subsequence]: matched operands are kept,
    the others are set to empty; [None] is the answer [false]. *)
Fixpoint keep_matched (rs : list expr) (rpos : list nat) (i : nat)
  (eqs : list (expr * expr)) : option (list expr * list (expr * expr)) :=
  match rs with
  | [] => Some ([], eqs)
  | y :: rs' =>
      if existsb (Nat.eqb i) rpos then
        match keep_matched rs' rpos (S i) eqs with
        | Some (kept, eqs') => Some (y :: kept, eqs')
        | None => None
        end
      else
        match set_empty [y] true eqs with
        | None => None
        | Some eqs' => keep_matched rs' rpos (S i) eqs'
        end
  end.

(** [seq_rewriter::reduce_subsequence]. *)
Definition reduce_subsequence (ls rs : list expr) (eqs : list (expr * expr)) :
  weq_result :=
  let '(ls, rs) := if length rs <? length ls then (rs, ls) else (ls, rs) in
  if length ls =? length rs then Reduced (ls, rs, eqs)
  else if (length ls =? 0) && (length rs =? 1) then Reduced (ls, rs, eqs)
  else
    match match_all ls rs [] with
    | None => Reduced (ls, rs, eqs)
    | Some rpos =>
        match keep_matched rs rpos 0 eqs with
        | None => Refuted
        | Some (kept, eqs') =>
            if length kept =? length rs then Reduced (ls, rs, eqs')
            else
              match ls with
              | [] => Reduced (ls, kept, eqs')
              | l0 :: _ =>
                  let srt := get_sort l0 in
                  Reduced ([], [],
                           eqs' ++ [(mk_concat_n ls srt, mk_concat_n kept srt)])
              end
        end
    end.

Definition of_bool (b : bool) (st : weq_state) : weq_result :=
  if b then Reduced st else Refuted.

(** [seq_rewriter::reduce_eq(ls, rs, eqs, change)]: simplify the
    equality [ls = rs].  New equalities are inserted into [eqs], what
    cannot be simplified further is kept in [ls] and [rs]; the answer is
    [Refuted] if the equality is unsatisfiable, and [change] is set when
    some simplification occurred. *)
Definition reduce_eq (ls rs : list expr) (eqs : list (expr * expr))
  (change : bool) : weq_result * bool :=
  let hash_l := vector_hash ls in
  let hash_r := vector_hash rs in
  let sz_eqs := length eqs in
  let ls := remove_empty_and_concats ls in
  let rs := remove_empty_and_concats rs in
  let res :=
    and_then (reduce_back ls rs eqs) (fun '(ls, rs, eqs) =>
    and_then (reduce_front ls rs eqs) (fun '(ls, rs, eqs) =>
    and_then (reduce_itos ls rs eqs) (fun '(ls, rs, eqs) =>
    and_then (match reduce_itos rs ls eqs with
              | Reduced (rs, ls, eqs) => Reduced (ls, rs, eqs)
              | other => other
              end) (fun '(ls, rs, eqs) =>
    and_then (reduce_by_length ls rs eqs) (fun '(ls, rs, eqs) =>
    and_then (reduce_subsequence ls rs eqs) (fun '(ls, rs, eqs) =>
    and_then (of_bool (reduce_non_overlap ls rs eqs) (ls, rs, eqs)) (fun st =>
    of_bool (reduce_non_overlap rs ls eqs) st))))))) in
  match res with
  | Reduced (ls', rs', eqs') =>
      (res,
       negb (hash_l =? vector_hash ls') || negb (hash_r =? vector_hash rs')
       || negb (length eqs' =? sz_eqs))
  | _ => (res, change)
  end.

End rewriter.

(** ** Regex to automaton

    The automata library ([math/automata]) and the symbolic expressions
    labelling the moves are outside the rewriter; the compiler only
    calls their constructors.  A constructor of the symbolic automata
    ([mk_complement], [mk_product]) returns a pointer, which may be
    null. *)
Class automata : Type := {
  eautomaton : Type;
  sym_expr : Type;
  expr_solver : Type;
  sym_mk_char : expr -> sym_expr;
  sym_mk_range : expr -> expr -> sym_expr;
  sym_mk_pred : expr -> sort -> sym_expr;
  aut_empty : eautomaton;
  aut_of_label : sym_expr -> eautomaton;
  aut_of_moves : nat -> list nat -> list (nat * nat * sym_expr) -> eautomaton;
  aut_mk_epsilon : eautomaton;
  aut_mk_concat : eautomaton -> eautomaton -> eautomaton;
  aut_mk_union : eautomaton -> eautomaton -> eautomaton;
  aut_mk_opt : eautomaton -> eautomaton;
  aut_mk_loop : sym_expr -> eautomaton;
  aut_clone : eautomaton -> eautomaton;
  add_final_to_init_moves : eautomaton -> eautomaton;
  add_init_to_final_states : eautomaton -> eautomaton;
  sa_mk_complement : expr_solver -> eautomaton -> option eautomaton;
  sa_mk_product : expr_solver -> eautomaton -> eautomaton -> option eautomaton
}.

Section re2automaton.
Context {aut : automata}.

(** The compiler object: [m_sa] is null until [set_solver] builds the
    symbolic automata over the solver. *)
Record re2automaton : Type := { m_sa : option expr_solver }.

Definition mk_re2automaton : re2automaton := {| m_sa := None |}.

Definition set_solver (self : re2automaton) (solver : expr_solver) :
  re2automaton :=
  {| m_sa := Some solver |}.

(** What [re2aut] returns: an automaton, the null pointer ("not
    supported"), or a failed [VERIFY]. *)
Inductive compiled : Type :=
| Automaton (a : eautomaton)
| NotSupported
| VerifyFailed.

Definition of_pointer (p : option eautomaton) : compiled :=
  match p with Some a => Automaton a | None => NotSupported end.

(** [re2automaton::is_unit_char]. *)
Definition is_unit_char (e : expr) : option expr :=
  match str.is_string e with
  | Some [c] => Some (mk_char c)
  | _ => str.is_unit e
  end.

(** [re2automaton::seq2aut]. *)
Fixpoint seq2aut (e : expr) : option eautomaton :=
  match e with
  | App OP_SEQ_CONCAT _ [e1; e2] =>
      match seq2aut e1, seq2aut e2 with
      | Some a, Some b => Some (aut_mk_concat a b)
      | _, _ => None
      end
  | App OP_SEQ_UNIT _ [e1] => Some (aut_of_label (sym_mk_char e1))
  | _ =>
      if str.is_empty e then Some aut_mk_epsilon
      else
        match str.is_string e with
        | Some s =>
            Some (aut_of_moves 0 [length s]
                    (map (fun k => (k, S k, sym_mk_char (mk_char (nth k s 0))))
                       (seq 0 (length s))))
        | None => None
        end
  end.

Fixpoint iterate {A : Type} (n : nat) (f : A -> A) (x : A) : A :=
  match n with
  | O => x
  | S n' => iterate n' f (f x)
  end.

(** [re2automaton::re2aut]. *)
Fixpoint re2aut (self : re2automaton) (e : expr) : compiled :=
  match e with
  | App OP_SEQ_TO_RE _ [e1] => of_pointer (seq2aut e1)
  | App OP_RE_CONCAT _ [e1; e2] =>
      match re2aut self e1 with
      | Automaton a =>
          match re2aut self e2 with
          | Automaton b => Automaton (aut_mk_concat a b)
          | other => other
          end
      | other => other
      end
  | App OP_RE_UNION _ [e1; e2] =>
      match re2aut self e1 with
      | Automaton a =>
          match re2aut self e2 with
          | Automaton b => Automaton (aut_mk_union a b)
          | other => other
          end
      | other => other
      end
  | App OP_RE_STAR _ [e1] =>
      match re2aut self e1 with
      | Automaton a =>
          Automaton (add_init_to_final_states (add_final_to_init_moves a))
      | other => other
      end
  | App OP_RE_PLUS _ [e1] =>
      match re2aut self e1 with
      | Automaton a => Automaton (add_final_to_init_moves a)
      | other => other
      end
  | App OP_RE_OPTION _ [e1] =>
      match re2aut self e1 with
      | Automaton a => Automaton (aut_mk_opt a)
      | other => other
      end
  | App OP_RE_RANGE _ [e1; e2] =>
      match is_unit_char e1, is_unit_char e2 with
      | Some _start, Some _stop =>
          Automaton (aut_of_label (sym_mk_range _start _stop))
      | _, _ => Automaton aut_empty
      end
  | App OP_RE_COMPLEMENT _ [e0] =>
      match re2aut self e0 with
      | Automaton a =>
          match m_sa self with
          | Some sa => of_pointer (sa_mk_complement sa a)
          | None => NotSupported
          end
      | other => other
      end
  | App OP_RE_LOOP [P_int lo; P_int hi] [e1] =>
      match re2aut self e1 with
      | Automaton a =>
          let eps := aut_mk_epsilon in
          let b := aut_mk_epsilon in
          let b :=
            iterate (hi - lo)
              (fun b => aut_mk_union eps (aut_mk_concat a b)) b in
          let b := iterate lo (fun b => aut_mk_concat a b) b in
          Automaton b
      | other => other
      end
  | App OP_RE_LOOP [P_int lo] [e1] =>
      match re2aut self e1 with
      | Automaton a =>
          let b :=
            add_init_to_final_states (add_final_to_init_moves (aut_clone a)) in
          Automaton (iterate lo (fun b => aut_mk_concat a b) b)
      | other => other
      end
  | App OP_RE_EMPTY_SET _ _ => Automaton aut_empty
  | App OP_RE_FULL_SEQ_SET _ _ =>
      match get_sort e with
      | Re_sort (Seq_sort char_s) =>
          Automaton (aut_mk_loop (sym_mk_pred mk_true char_s))
      | _ => VerifyFailed
      end
  | App OP_RE_FULL_CHAR_SET _ _ =>
      match get_sort e with
      | Re_sort (Seq_sort char_s) =>
          Automaton (aut_of_label (sym_mk_pred mk_true char_s))
      | _ => VerifyFailed
      end
  | App OP_RE_INTERSECT _ [e1; e2] =>
      match m_sa self with
      | Some sa =>
          match re2aut self e1 with
          | Automaton a =>
              match re2aut self e2 with
              | Automaton b => of_pointer (sa_mk_product sa a b)
              | other => other
              end
          | other => other
          end
      | None => NotSupported
      end
  | _ => NotSupported
  end.

End re2automaton.

(** ** Meaning of terms

    Values of the sorts at hand; a sequence is a list of values, so that
    [seq.unit] works at every element sort. *)
Unset Elimination Schemes.

Inductive value : Type :=
| VBool (b : bool)
| VInt (z : Z)
| VChar (c : nat)
| VSeq (l : list value)
| VOther (n : nat).

Set Elimination Schemes.

Fixpoint value_eq_dec (a b : value) {struct a} : {a = b} + {a <> b}.
Proof.
  destruct a as [x | x | x | l | x], b as [y | y | y | l' | y];
    try (right; discriminate).
  - destruct (Bool.bool_dec x y); [left; congruence | right; congruence].
  - destruct (Z.eq_dec x y); [left; congruence | right; congruence].
  - destruct (Nat.eq_dec x y); [left; congruence | right; congruence].
  - assert (H : {l = l'} + {l <> l'}).
    { clear - value_eq_dec. revert l'.
      induction l as [ | v vs IH]; intros [ | w ws].
      - left; reflexivity.
      - right; discriminate.
      - right; discriminate.
      - destruct (value_eq_dec v w) as [Hv | Hv];
          [ | right; intro H; inversion H; contradiction ].
        destruct (IH ws) as [Hvs | Hvs];
          [ left; congruence | right; intro H; inversion H; contradiction ]. }
    destruct H; [left; congruence | right; congruence].
  - destruct (Nat.eq_dec x y); [left; congruence | right; congruence].
Defined.

Arguments value_eq_dec : simpl never.

Definition value_eqb (a b : value) : bool :=
  if value_eq_dec a b then true else false.

Definition as_bool (v : value) : bool :=
  match v with VBool b => b | _ => false end.
Definition as_int (v : value) : Z :=
  match v with VInt z => z | _ => 0%Z end.
Definition as_seq (v : value) : list value :=
  match v with VSeq l => l | _ => [] end.

(** A value read at a sort: unchanged when it has the shape of the
    sort, the default of the sort otherwise. *)
Definition coerce (s : sort) (v : value) : value :=
  match s, v with
  | Bool_sort, VBool _ | Int_sort, VInt _ | Char_sort, VChar _
  | Seq_sort _, VSeq _ => v
  | Bool_sort, _ => VBool false
  | Int_sort, _ => VInt 0
  | Char_sort, _ => VChar 0
  | Seq_sort _, _ => VSeq []
  | _, _ => v
  end.

(** Decimal notation.  [decimal n] is the numeral of [n], most
    significant digit first; [digits_value] reads one back. *)
Fixpoint decimal_aux (fuel n : nat) (acc : list nat) : list nat :=
  match fuel with
  | O => acc
  | S fuel' =>
      let acc' := (48 + n mod 10) :: acc in
      if n <? 10 then acc' else decimal_aux fuel' (n / 10) acc'
  end.

Definition decimal (n : nat) : list nat := decimal_aux (S n) n [].

Definition digits_value (s : list nat) : nat :=
  fold_left (fun acc c => 10 * acc + (c - 48)) s 0.

(** [str.from_int]: the numeral of a non-negative integer, the empty
    string otherwise. *)
Definition itos_sem (z : Z) : list nat :=
  if (z <? 0)%Z then [] else decimal (Z.to_nat z).

Definition as_digit (v : value) : option nat :=
  match v with
  | VChar c => if is_digit c then Some c else None
  | _ => None
  end.

Fixpoint all_digits (l : list value) : option (list nat) :=
  match l with
  | [] => Some []
  | v :: l' =>
      match as_digit v, all_digits l' with
      | Some c, Some cs => Some (c :: cs)
      | _, _ => None
      end
  end.

(** [str.to_int]: the value of a non-empty string of digits, [-1]
    otherwise. *)
Definition stoi_sem (l : list value) : Z :=
  match l with
  | [] => (-1)%Z
  | _ =>
      match all_digits l with
      | Some cs => Z.of_nat (digits_value cs)
      | None => (-1)%Z
      end
  end.

(** An interpretation gives a meaning to every operator that the
    definitions below do not fix (variables, [extract], [at], ...). *)
Definition interp : Type := decl_kind -> list parameter -> list value -> value.

Fixpoint eval (I : interp) (e : expr) : value :=
  match e with
  | App k ps args =>
      let vs := map (eval I) args in
      match k, ps, vs with
      | OP_TRUE, _, _ => VBool true
      | OP_FALSE, _, _ => VBool false
      | OP_EQ, _, [a; b] => VBool (value_eqb a b)
      | OP_ITE, _, [c; t; el] =>
          coerce (get_sort e) (if as_bool c then t else el)
      | OP_AND, _, _ => VBool (forallb as_bool vs)
      | OP_OR, _, _ => VBool (existsb as_bool vs)
      | OP_NOT, _, [a] => VBool (negb (as_bool a))
      | OP_NUM, [P_num z], _ => VInt z
      | OP_ADD, _, _ => VInt (fold_right (fun v z => as_int v + z) 0 vs)%Z
      | OP_MUL, _, _ => VInt (fold_right (fun v z => as_int v * z) 1 vs)%Z
      | OP_SUB, _, [a; b] => VInt (as_int a - as_int b)%Z
      | OP_GE, _, [a; b] => VBool (as_int b <=? as_int a)%Z
      | OP_LE, _, [a; b] => VBool (as_int a <=? as_int b)%Z
      | OP_CHAR_CONST, [P_int c], _ => VChar c
      | OP_SEQ_UNIT, _, [a] => VSeq [a]
      | OP_SEQ_EMPTY, _, _ => VSeq []
      | OP_STRING_CONST, [P_str z], _ => VSeq (map VChar z)
      | OP_SEQ_CONCAT, _, _ => VSeq (flat_map as_seq vs)
      | OP_SEQ_LENGTH, _, [a] => VInt (Z.of_nat (length (as_seq a)))
      | OP_STRING_ITOS, _, [n] => VSeq (map VChar (itos_sem (as_int n)))
      | OP_STRING_STOI, _, [a] => VInt (stoi_sem (as_seq a))
      | _, _, _ => coerce (get_sort e) (I k ps vs)
      end
  end.

(** The sequence denoted by a side of a word equation, and the
    satisfaction of a list of derived equalities. *)
Definition seq_val (I : interp) (es : list expr) : list value :=
  flat_map (fun e => as_seq (eval I e)) es.

Definition eq_holds (I : interp) (p : expr * expr) : Prop :=
  eval I (fst p) = eval I (snd p).

Definition eqs_hold (I : interp) (eqs : list (expr * expr)) : Prop :=
  Forall (eq_holds I) eqs.

(** An operand of a side: a concatenation tree whose leaves have a
    sequence sort. *)
Fixpoint seq_operand (e : expr) : bool :=
  match e with
  | App OP_SEQ_CONCAT _ [a; b] => seq_operand a && seq_operand b
  | _ => match get_sort e with Seq_sort _ => true | _ => false end
  end.

(** An integer term: its sort is [Int], and it is not an application of
    a sequence constructor, whose range the manager takes from a sort
    parameter or from an argument and checks to be a sequence sort. *)
Definition is_int_term (n : expr) : bool :=
  match n with
  | App OP_SEQ_EMPTY _ _ | App OP_SEQ_CONCAT _ _ => false
  | _ => match get_sort n with Int_sort => true | _ => false end
  end.

(** An operand of a word equation as the term manager builds it: a
    sequence operand in which the argument of an integer-to-string
    conversion at a leaf is an integer term. *)
Fixpoint weq_operand (e : expr) : bool :=
  match e with
  | App OP_SEQ_CONCAT _ [a; b] => weq_operand a && weq_operand b
  | App OP_STRING_ITOS _ [n] => is_int_term n
  | _ => match get_sort e with Seq_sort _ => true | _ => false end
  end.

(** What the two sides hold after [remove_empty_and_concats]. *)
Definition wf_operand (e : expr) : Prop :=
  weq_operand e = true /\ str.is_empty e = false.

(** ** What a reduction of a word equation has to achieve

    [den] reads a side as a sequence of values.  A reduction of
    [ls = rs] that answers [Reduced (ls', rs', eqs')] has added
    equalities [new] to [eqs], and [new] together with [ls' = rs'] hold
    under exactly the interpretations under which [ls = rs] holds; one
    that answers [Refuted] started from an equation that no
    interpretation satisfies; [Undefined] is never an answer. *)
Definition weq_refines (den : interp -> list expr -> list value)
  (ls rs : list expr) (eqs : list (expr * expr)) (res : weq_result) : Prop :=
  match res with
  | Reduced (ls', rs', eqs') =>
      Forall wf_operand ls' /\ Forall wf_operand rs'
      /\ exists new, eqs' = eqs ++ new
         /\ forall I, (eqs_hold I new /\ den I ls' = den I rs')
                      <-> den I ls = den I rs
  | Refuted => forall I, den I ls <> den I rs
  | Undefined => False
  end.

(** A round of a stripping loop either ends the loop with an answer, or
    carries on from smaller sides. *)
Definition weq_progress (den : interp -> list expr -> list value)
  (ls rs : list expr) (eqs : list (expr * expr))
  (x : weq_state + weq_result) : Prop :=
  match x with
  | inl (ls', rs', eqs') =>
      weight ls' + weight rs' < weight ls + weight rs
      /\ weq_refines den ls rs eqs (Reduced (ls', rs', eqs'))
  | inr res => weq_refines den ls rs eqs res
  end.

(** The sides of [reduce_back] are read from their last operand. *)
Definition rev_val (I : interp) (es : list expr) : list value :=
  seq_val I (rev es).
(** What [set_empty] sets to empty: an operand that is neither a unit,
    nor empty, nor a literal. *)
Definition is_symbolic (e : expr) : bool :=
  negb (is_unit_b e) && negb (str.is_empty e) && negb (is_string_b e).
(** The length of the operands of [rs], numbered from [i], whose
    position is selected by [sel]. *)
Fixpoint side_length (I : interp) (sel : nat -> bool) (rs : list expr)
  (i : nat) : nat :=
  match rs with
  | [] => 0
  | y :: rs' =>
      (if sel i then length (as_seq (eval I y)) else 0)
      + side_length I sel rs' (S i)
  end.

(** Membership in the set [rpos] of matched positions. *)
Definition matched (rpos : list nat) (i : nat) : bool :=
  existsb (Nat.eqb i) rpos.

(** ** Sides without integer-to-string conversions

    [itos_free] holds of a side operand in which no leaf of the
    concatenation is an integer-to-string conversion; [not_itos] of an
    operand that is not one itself. *)
Fixpoint itos_free (e : expr) : bool :=
  match e with
  | App OP_SEQ_CONCAT _ [a; b] => itos_free a && itos_free b
  | App OP_STRING_ITOS _ _ => false
  | _ => true
  end.

Definition not_itos (e : expr) : Prop := str.is_itos e = None.

(** What a round, a loop or a reduction leaves on the two sides. *)
Definition sides_of (Q : expr -> Prop) (res : weq_result) : Prop :=
  match res with
  | Reduced (ls', rs', _) => Forall Q ls' /\ Forall Q rs'
  | _ => True
  end.

Definition round_sides_of (Q : expr -> Prop) (x : weq_state + weq_result) :
  Prop :=
  match x with
  | inl (ls', rs', _) => Forall Q ls' /\ Forall Q rs'
  | inr res => sides_of Q res
  end.

(** ** If-then-elses over known conditions

    The conditions of the if-then-elses at the top of a term, and the
    BDD form under a bound on the identifiers ([None]: no bound) with
    every condition taken from [conds]. *)
Fixpoint ite_conds (e : expr) : list expr :=
  match e with
  | App OP_ITE _ [c; t; el] => c :: ite_conds t ++ ite_conds el
  | _ => []
  end.

Definition below (bound : option nat) (i : nat) : Prop :=
  match bound with None => True | Some n => i < n end.

Definition bdd_within {ext : externals} (conds : list expr)
  (bound : option nat) (e : expr) : Prop :=
  bdd_below bound e = true /\ incl (ite_conds e) conds.

(** ** A concrete instance of the collaborators

    Used to run the definitions on explicit inputs.  The manager numbers
    the terms of [created] in the order given (a term it has not created
    gets the next free identifier); two terms are known distinct when
    they are different literals of the same kind, or units of such;
    Modelled from the spec: numerals are read and printed in decimal,
    where a text that is not a string of digits reads as zero. *)
Fixpoint index_of (created : list expr) (e : expr) : nat :=
  match created with
  | [] => 0
  | x :: xs => if expr_eqb e x then 0 else S (index_of xs e)
  end.

Fixpoint literals_distinct (a b : expr) : bool :=
  match a, b with
  | App OP_CHAR_CONST [P_int x] _, App OP_CHAR_CONST [P_int y] _ => negb (x =? y)
  | App OP_NUM [P_num x] _, App OP_NUM [P_num y] _ => negb (x =? y)%Z
  | App OP_SEQ_UNIT _ [x], App OP_SEQ_UNIT _ [y] => literals_distinct x y
  | _, _ => false
  end.

Definition read_decimal (s : list nat) : Z :=
  if forallb is_digit s then Z.of_nat (digits_value s) else 0%Z.

Definition print_decimal (z : Z) : list nat :=
  if (z <? 0)%Z then 45 :: decimal (Z.to_nat (- z)) else decimal (Z.to_nat z).

Definition manager_of (created : list expr) : externals :=
  {| get_id := index_of created;
     are_distinct := literals_distinct;
     are_equal := expr_eqb;
     mk_and := m_mk_and;
     mk_or := m_mk_or;
     mk_not := m_mk_not;
     zencode := fun s => s;
     rational_of_string := read_decimal;
     rational_to_string := print_decimal;
     vector_hash := fun es => length es;
     m_coalesce_chars := true |}.

(** ** Nullability as the specification words it

    Concat and intersection are the conjunction of the operands'
    nullability, union the disjunction, diff is [nullable r1 /\ ~ nullable r2];
    star, optional, full-sequence and loops from zero are true; empty,
    full-character, range and predicate are false; plus, loops from a
    positive bound and reverse delegate to the child; complement negates;
    literal-to-regex tests equality with the empty sequence; an
    if-then-else distributes over both branches; any other term gives
    the membership of the empty sequence. *)
Section nullable_specification.
Context {ext : externals}.

Definition seq_sort_of (r : expr) : sort :=
  match is_re r with Some s => s | None => Uninterp_sort 0 end.

Fixpoint nullable_spec (r : expr) : expr :=
  match r with
  | App OP_RE_CONCAT _ [r1; r2] | App OP_RE_INTERSECT _ [r1; r2] =>
      mk_and (nullable_spec r1) (nullable_spec r2)
  | App OP_RE_UNION _ [r1; r2] => mk_or (nullable_spec r1) (nullable_spec r2)
  | App OP_RE_DIFF _ [r1; r2] =>
      mk_and (nullable_spec r1) (mk_not (nullable_spec r2))
  | App OP_RE_STAR _ _ | App OP_RE_OPTION _ _ | App OP_RE_FULL_SEQ_SET _ _
  | App OP_RE_LOOP [P_int 0] [_] | App OP_RE_LOOP [P_int 0; P_int _] [_] =>
      mk_true
  | App OP_RE_FULL_CHAR_SET _ _ | App OP_RE_EMPTY_SET _ _
  | App OP_RE_OF_PRED _ _ | App OP_RE_RANGE _ _ => mk_false
  | App OP_RE_PLUS _ [r1] | App OP_RE_LOOP [P_int (S _)] [r1]
  | App OP_RE_LOOP [P_int (S _); P_int _] [r1] | App OP_RE_REVERSE _ [r1] =>
      nullable_spec r1
  | App OP_RE_COMPLEMENT _ [r1] => mk_not (nullable_spec r1)
  | App OP_SEQ_TO_RE _ [s] => mk_eq (str.mk_empty (get_sort s)) s
  | App OP_ITE _ [cond; r1; r2] =>
      mk_ite cond (nullable_spec r1) (nullable_spec r2)
  | _ => re.mk_in_re (str.mk_empty (seq_sort_of r)) r
  end.

(** The terms on which nullability is defined.  With [strict] every
    operator met on the way is one of the recognized constructors;
    without it, any other term is accepted provided it has a regex
    sort. *)
Fixpoint nullable_wf (strict : bool) (r : expr) : bool :=
  match r with
  | App OP_RE_CONCAT _ [r1; r2] | App OP_RE_INTERSECT _ [r1; r2]
  | App OP_RE_UNION _ [r1; r2] | App OP_RE_DIFF _ [r1; r2]
  | App OP_ITE _ [_; r1; r2] =>
      nullable_wf strict r1 && nullable_wf strict r2
  | App OP_RE_STAR _ _ | App OP_RE_OPTION _ _ | App OP_RE_FULL_SEQ_SET _ _
  | App OP_RE_LOOP [P_int 0] [_] | App OP_RE_LOOP [P_int 0; P_int _] [_]
  | App OP_RE_FULL_CHAR_SET _ _ | App OP_RE_EMPTY_SET _ _
  | App OP_RE_OF_PRED _ _ | App OP_RE_RANGE _ _ | App OP_SEQ_TO_RE _ [_] =>
      true
  | App OP_RE_PLUS _ [r1] | App OP_RE_LOOP [P_int (S _)] [r1]
  | App OP_RE_LOOP [P_int (S _); P_int _] [r1] | App OP_RE_REVERSE _ [r1]
  | App OP_RE_COMPLEMENT _ [r1] => nullable_wf strict r1
  | _ => negb strict && match is_re r with Some _ => true | None => false end
  end.

Definition recognized (r : expr) : bool := nullable_wf true r.

(** The head of [r] is one of the shapes [is_nullable] tests for. *)
Definition head_recognized (r : expr) : bool :=
  match r with
  | App OP_RE_CONCAT _ [_; _] | App OP_RE_INTERSECT _ [_; _]
  | App OP_RE_UNION _ [_; _] | App OP_RE_DIFF _ [_; _]
  | App OP_ITE _ [_; _; _]
  | App OP_RE_STAR _ _ | App OP_RE_OPTION _ _ | App OP_RE_FULL_SEQ_SET _ _
  | App OP_RE_LOOP [P_int _] [_] | App OP_RE_LOOP [P_int _; P_int _] [_]
  | App OP_RE_FULL_CHAR_SET _ _ | App OP_RE_EMPTY_SET _ _
  | App OP_RE_OF_PRED _ _ | App OP_RE_RANGE _ _ | App OP_SEQ_TO_RE _ [_]
  | App OP_RE_PLUS _ [_] | App OP_RE_REVERSE _ [_]
  | App OP_RE_COMPLEMENT _ [_] => true
  | _ => false
  end.

(** What a cache entry filed under [_OP_RE_IS_NULLABLE] must hold. *)
Definition nullable_entry (key : op_key) (res : expr) : Prop :=
  match key with
  | (_OP_RE_IS_NULLABLE, Some r, None, None) => res = nullable_spec r
  | _ => True
  end.

End nullable_specification.

(** ** The digit-accumulation identity of [str.to_int]

    [stoi_accumulate] is the term the rewriter builds for a
    concatenation [head ++ last] ending in a unit; [stoi_identity_claimed]
    is the identity as the specification words it:
    [ite(stoi(head) >= 0, 10 * stoi(head) + digit, ite(digit >= 0, digit, -1))]
    gated on [head] being empty. *)
Definition stoi_accumulate (head last_ : expr) : expr :=
  let tail := str.mk_stoi last_ in
  let stoi_head := str.mk_stoi head in
  mk_ite (mk_is_empty head) tail
    (mk_ite (autil.mk_ge tail (autil.mk_int 0))
       (mk_ite (autil.mk_ge stoi_head (autil.mk_int 0))
          (autil.mk_add (autil.mk_mul (autil.mk_int 10) stoi_head) tail)
          (autil.mk_int (-1)))
       tail).

Definition stoi_identity_claimed (head last_ : expr) : expr :=
  let digit := str.mk_stoi last_ in
  let stoi_head := str.mk_stoi head in
  mk_ite (mk_is_empty head) digit
    (mk_ite (autil.mk_ge stoi_head (autil.mk_int 0))
       (autil.mk_add (autil.mk_mul (autil.mk_int 10) stoi_head) digit)
       (mk_ite (autil.mk_ge digit (autil.mk_int 0)) digit (autil.mk_int (-1)))).

(** ** The combination of if-then-elses without the cache

    [combine_step_of] names the case [combine_ites] takes once the
    lookup has missed, and [combine_spec] is the result of the
    computation that never consults the cache. *)
Section combine_specification.
Context {ext : externals}.

Inductive combine_step : Type :=
| Push (x1 y1 x2 y2 : expr) (inner : option expr)
       (outer_k : decl_kind) (outer_cond : expr)
| Collapse (x y : expr)
| Leaf (r : expr)
| Crash.

Definition combine_step_of (k : decl_kind) (a b : expr) (cond : option expr) :
  combine_step :=
  if decl_kind_eq_dec k OP_ITE then
    match cond with
    | None => Crash
    | Some cnd =>
        let on_b :=
          match is_ite b with
          | Some (bcond, b1, b2) =>
              if get_id cnd <? get_id bcond then Push a b1 a b2 cond k bcond
              else if expr_eqb cnd bcond then Collapse a b2
              else Leaf (mk_ite cnd a b)
          | None => Leaf (mk_ite cnd a b)
          end in
        match is_ite a with
        | Some (acond, a1, a2) =>
            if get_id cnd <? get_id acond then Push a1 b a2 b cond k acond
            else if expr_eqb cnd acond then Collapse a1 b
            else on_b
        | None => on_b
        end
    end
  else
    match is_ite a with
    | Some (acond, a1, a2) => Push a1 b a2 b None OP_ITE acond
    | None =>
        match is_ite b with
        | Some (bcond, b1, b2) => Push a b1 a b2 None OP_ITE bcond
        | None => Leaf (mk_app k [a; b])
        end
    end.

(** The calls a case makes, given the function to call. *)
Definition run_step (call : decl_kind -> expr -> expr -> option expr -> M expr)
  (k : decl_kind) (cond : option expr) (s : combine_step) : M expr :=
  match s with
  | Push x1 y1 x2 y2 inner outer_k outer_cond =>
      result1 <- call k x1 y1 inner ;;
      result2 <- call k x2 y2 inner ;;
      call outer_k result1 result2 (Some outer_cond)
  | Collapse x y => call k x y cond
  | Leaf r => ret r
  | Crash => abort
  end.

Inductive combine_spec :
  decl_kind -> expr -> expr -> option expr -> expr -> Prop :=
| spec_push k a b cond x1 y1 x2 y2 inner outer_k outer_cond r1 r2 r :
    combine_step_of k a b cond = Push x1 y1 x2 y2 inner outer_k outer_cond ->
    combine_spec k x1 y1 inner r1 ->
    combine_spec k x2 y2 inner r2 ->
    combine_spec outer_k r1 r2 (Some outer_cond) r ->
    combine_spec k a b cond r
| spec_collapse k a b cond x y r :
    combine_step_of k a b cond = Collapse x y ->
    combine_spec k x y cond r ->
    combine_spec k a b cond r
| spec_leaf k a b cond r :
    combine_step_of k a b cond = Leaf r ->
    combine_spec k a b cond r.

(** What a cache entry with two operands must hold. *)
Definition combine_entry (key : op_key) (res : expr) : Prop :=
  match key with
  | (k, Some a, Some b, cond) => combine_spec k a b cond res
  | _ => True
  end.

(** The if-then-elses at the top of a term: how many, and the
    identifiers of their conditions. *)
Fixpoint ite_size (e : expr) : nat :=
  match e with
  | App OP_ITE _ [_; t; el] => S (ite_size t + ite_size el)
  | _ => 0
  end.

Fixpoint ite_ids (e : expr) : list nat :=
  match e with
  | App OP_ITE _ [c; t; el] => get_id c :: ite_ids t ++ ite_ids el
  | _ => []
  end.

End combine_specification.

(** ** Terms used in the examples *)
Module examples.
Definition string_sort : sort := Seq_sort Char_sort.
Definition regex_sort : sort := Re_sort string_sort.
Definition cond1 : expr := mk_const 1 Bool_sort.
Definition cond2 : expr := mk_const 2 Bool_sort.
Definition ra : expr := mk_const 3 regex_sort.
Definition rb : expr := mk_const 4 regex_sort.
Definition rx : expr := mk_const 5 regex_sort.
Definition ry : expr := mk_const 6 regex_sort.
Definition sx : expr := mk_const 7 string_sort.
Definition sy : expr := mk_const 8 string_sort.
Definition ch : expr := mk_const 9 Char_sort.
Definition num : expr := mk_const 10 Int_sort.
(** A manager that has created the two conditions, in this order. *)
Definition manager : externals := manager_of [cond1; cond2].
(** [concat(concat(ite(cond1, ra, rb), rx), ry)]. *)
Definition nested_ite : expr :=
  re.mk_concat (re.mk_concat (mk_ite cond1 ra rb) rx) ry.
(** An interpretation with [sx = "a"] and [ch = '1']. *)
Definition interp_a1 : interp :=
  fun k ps vs =>
    match ps with
    | [P_sym 7; _] => VSeq [VChar 97]
    | [P_sym 9; _] => VChar 49
    | _ => VOther 0
    end.
(** A numeral reader that also accepts a minus sign before the digits,
    and a manager that reads numerals with it. *)
Definition read_signed (s : list nat) : Z :=
  match s with
  | c :: t =>
      if (c =? 45) && negb (length t =? 0)
      then if forallb is_digit t then (- Z.of_nat (digits_value t))%Z else 0%Z
      else read_decimal s
  | [] => read_decimal s
  end.
Definition signed_manager : externals :=
  {| get_id := index_of [cond1; cond2];
     are_distinct := literals_distinct;
     are_equal := expr_eqb;
     mk_and := m_mk_and;
     mk_or := m_mk_or;
     mk_not := m_mk_not;
     zencode := fun s => s;
     rational_of_string := read_signed;
     rational_to_string := print_decimal;
     vector_hash := fun es => length es;
     m_coalesce_chars := true |}.
(** The automata library as the free terms over its constructors: an
    automaton is the construction that made it, a solver carries no
    data, and the symbolic complement and product always succeed. *)
Inductive sym_term : Type :=
| S_char (e : expr)
| S_range (lo hi : expr)
| S_pred (e : expr) (s : sort).
Inductive aut_term : Type :=
| A_empty
| A_label (l : sym_term)
| A_moves (init : nat) (final : list nat) (mvs : list (nat * nat * sym_term))
| A_epsilon
| A_concat (a b : aut_term)
| A_union (a b : aut_term)
| A_opt (a : aut_term)
| A_loop (l : sym_term)
| A_clone (a : aut_term)
| A_final_to_init (a : aut_term)
| A_init_to_final (a : aut_term)
| A_complement (a : aut_term)
| A_product (a b : aut_term).
Definition term_automata : automata :=
  {| eautomaton := aut_term;
     sym_expr := sym_term;
     expr_solver := unit;
     sym_mk_char := S_char;
     sym_mk_range := S_range;
     sym_mk_pred := S_pred;
     aut_empty := A_empty;
     aut_of_label := A_label;
     aut_of_moves := A_moves;
     aut_mk_epsilon := A_epsilon;
     aut_mk_concat := A_concat;
     aut_mk_union := A_union;
     aut_mk_opt := A_opt;
     aut_mk_loop := A_loop;
     aut_clone := A_clone;
     add_final_to_init_moves := A_final_to_init;
     add_init_to_final_states := A_init_to_final;
     sa_mk_complement := fun _ a => Some (A_complement a);
     sa_mk_product := fun _ a b => Some (A_product a b) |}.
(** The regular expressions ["a"] and ["b"|"a"]. *)
Definition re_a : expr := re.mk_to_re (str.mk_string [97]).
Definition re_b_or_a : expr :=
  re.mk_union (re.mk_to_re (str.mk_string [98])) re_a.
End examples.

(** * Properties *)

Lemma expr_eqb_eq (a b : expr) : expr_eqb a b = true <-> a = b.
Proof.
  unfold expr_eqb. destruct (expr_eq_dec a b); split; congruence.
Qed.

Lemma expr_eqb_refl (a : expr) : expr_eqb a a = true.
Proof. apply expr_eqb_eq. reflexivity. Qed.

(** ** The cache *)

(** The table holds what [insert] was given, under its key. *)
Lemma table_find_insert (c : op_cache) k a b cc r :
  table_find (m_table (op_cache_ops.insert c k a b cc r)) (k, a, b, cc) = Some r.
Proof.
  unfold op_cache_ops.insert. simpl.
  destruct (op_key_eq_dec (k, a, b, cc) (k, a, b, cc)); [reflexivity | contradiction].
Qed.

(** No lookup is answered: [find] returns the result field of the entry
    it built itself. *)
Lemma find_misses (c : op_cache) k a b cc : op_cache_ops.find c k a b cc = None.
Proof. reflexivity. Qed.

Lemma cache_all_empty P max : cache_all P (op_cache_ops.empty max).
Proof. intros k a b cc r H. discriminate H. Qed.

Lemma cache_all_insert P c k a b cc r :
  cache_all P c -> P (k, a, b, cc) r ->
  cache_all P (op_cache_ops.insert c k a b cc r).
Proof. intros _ _ k' a' b' cc' r' H. discriminate H. Qed.

Section nullable_properties.
Context {ext : externals}.

Lemma is_nullable_rec_with_spec (r : expr) (self : M expr) (c : op_cache) :
  cache_all nullable_entry c ->
  (forall c0, cache_all nullable_entry c0 ->
     exists c1, self c0 = Done (nullable_spec r) c1
                /\ cache_all nullable_entry c1) ->
  exists c', is_nullable_rec_with self r c = Done (nullable_spec r) c'
             /\ cache_all nullable_entry c'.
Proof.
  intros Hc Hself. unfold is_nullable_rec_with.
  destruct (op_cache_ops.find c _OP_RE_IS_NULLABLE (Some r) None None)
    as [res | ] eqn:Hfind.
  - apply Hc in Hfind. simpl in Hfind. subst res. eauto.
  - destruct (Hself c Hc) as (c1 & -> & Hc1).
    eexists; split; [reflexivity | ].
    apply cache_all_insert; [exact Hc1 | reflexivity].
Qed.

Ltac nullable_child :=
  match goal with
  | Hc : cache_all nullable_entry ?c
    |- context [is_nullable_rec_with (is_nullable ?r) ?r ?c] =>
      let c1 := fresh "c" in
      let E := fresh "E" in
      let Hc1 := fresh "Hc" in
      destruct (@is_nullable_rec_with_spec r (is_nullable r) c Hc)
        as (c1 & E & Hc1);
      [ solve [auto] | rewrite E; clear E Hc ]
  end.

Ltac nullable_case :=
  cbn in *; unfold verify_is_re, seq_sort_of, bind, ret, abort in *;
  try discriminate;
  repeat match goal with
         | H : Forall _ (_ :: _) |- _ => inversion H; clear H; subst
         | H : _ && _ = true |- _ => apply andb_prop in H; destruct H
         end;
  repeat nullable_child;
  try match goal with
      | |- context [is_re ?r] => destruct (is_re r); [ | discriminate ]
      end;
  cbn;
  eauto.

Lemma is_nullable_refines (r : expr) :
  nullable_wf false r = true ->
  forall c, cache_all nullable_entry c ->
  exists c', is_nullable r c = Done (nullable_spec r) c'
             /\ cache_all nullable_entry c'.
Proof.
  induction r as [k ps args IH] using expr_ind.
  intros Hwf c Hc.
  destruct k;
    destruct args as [ | r1 [ | r2 [ | r3 [ | r4 args]]]];
    try solve [nullable_case].
  - cbn. unfold verify_is_re, bind, ret, is_re. cbn. eauto.
  - destruct ps as [ | [n | | | | ] [ | [m | | | | ] [ | ? ?]]];
      try destruct n; nullable_case.
  - destruct ps as [ | [n | | | | ] [ | [m | | | | ] [ | ? ?]]];
      try destruct n; nullable_case.
  - destruct ps as [ | [n | | | | ] [ | [m | | | | ] [ | ? ?]]];
      try destruct n; nullable_case.
  - destruct ps as [ | [n | | | | ] [ | [m | | | | ] [ | ? ?]]];
      try destruct n; nullable_case.
  - destruct ps as [ | [n | | | | ] [ | [m | | | | ] [ | ? ?]]];
      try destruct n; nullable_case.
Qed.

(** C10: on a term of regex sort whose head is none of the shapes
    [is_nullable] recognizes (a regex variable, a derivative, ...), the
    function does not stop or fail: it returns the membership constraint
    of the empty sequence in that term, and leaves the cache as it was. *)
Theorem is_nullable_unrecognized_head (r : expr) (seq_sort : sort) (c : op_cache) :
  head_recognized r = false ->
  is_re r = Some seq_sort ->
  is_nullable r c = Done (re.mk_in_re (str.mk_empty seq_sort) r) c.
Proof.
  intros Hhead Hre.
  assert (Hv : verify_is_re r c = Done seq_sort c)
    by (unfold verify_is_re; rewrite Hre; reflexivity).
  destruct r as [k ps args].
  destruct k;
    destruct args as [ | r1 [ | r2 [ | r3 [ | r4 args]]]];
    try discriminate Hhead;
    try (cbn; unfold bind; rewrite Hv; reflexivity).
  all: destruct ps as [ | [n | | | | ] [ | [m | | | | ] [ | ? ?]]];
    try discriminate Hhead;
    try destruct n;
    cbn; unfold bind; rewrite Hv; reflexivity.
Qed.

(** C4: on a term built from the recognized constructors, [is_nullable]
    returns what the specification says, whatever consistent entries the
    cache already holds: the conjunction of the operands' nullabilities
    for concat and intersection, their disjunction for union,
    [nullable r1 /\ ~ nullable r2] for diff, true for star, optional,
    full-sequence and loops from zero, false for empty, full-character,
    range and predicate, the child's nullability for plus, loops from a
    positive bound and reverse, its negation for complement, and the
    equality of the operand with the empty sequence for a literal. *)
Theorem is_nullable_recognized (r : expr) (c : op_cache) :
  recognized r = true ->
  cache_all nullable_entry c ->
  exists c', is_nullable r c = Done (nullable_spec r) c'.
Proof.
  intros Hrec Hc.
  assert (Hwf : nullable_wf false r = true).
  { clear - Hrec. unfold recognized in Hrec.
    induction r as [k ps args IH] using expr_ind.
    destruct k;
      destruct args as [ | r1 [ | r2 [ | r3 [ | r4 args]]]];
      try discriminate Hrec; try reflexivity;
      cbn in *;
      repeat match goal with
             | H : Forall _ (_ :: _) |- _ => inversion H; clear H; subst
             | H : _ && _ = true |- _ => apply andb_prop in H; destruct H
             end;
      try (apply andb_true_intro; split); auto.
    all: destruct ps as [ | [n | | | | ] [ | [m | | | | ] [ | ? ?]]];
      try destruct n; try discriminate Hrec; auto. }
  destruct (is_nullable_refines r Hwf Hc) as (c' & E & _).
  exists c'. exact E.
Qed.

(** C3: the derivative of a concatenation [r1 . r2] by [ele] is
    [d(ele,r1) . r2] when [is_nullable r1] is the literal false, its
    union with [d(ele,r2)] when it is the literal true, and the
    if-then-else of the two on [is_nullable r1] otherwise. *)
Theorem mk_re_derivative_concat (ele r1 r2 : expr) (ps : list parameter)
  (seq_sort ele_sort : sort) (c c' : op_cache) (is_n : expr) :
  is_re (App OP_RE_CONCAT ps [r1; r2]) = Some seq_sort ->
  is_seq_sort seq_sort = Some ele_sort ->
  is_nullable r1 c = Done is_n c' ->
  let d1 := re.mk_concat (re.mk_derivative ele r1) r2 in
  let d2 := re.mk_derivative ele r2 in
  mk_re_derivative ele (App OP_RE_CONCAT ps [r1; r2]) c =
  Done (if is_false is_n then (BR_REWRITE2, Some d1)
        else if is_true is_n then (BR_REWRITE3, Some (re.mk_union d1 d2))
        else (BR_REWRITE3, Some (mk_ite is_n (re.mk_union d1 d2) d1))) c'.
Proof.
  intros Hre Hseq Hn d1 d2.
  unfold mk_re_derivative, bind, verify_is_re.
  rewrite Hre. unfold ret at 1. rewrite Hseq, Hn.
  subst d1 d2.
  destruct (is_false is_n); [reflexivity | ].
  destruct (is_true is_n); reflexivity.
Qed.

End nullable_properties.

Section re2automaton_properties.
Context {aut : automata}.

(** C9: complement and intersection need the symbolic automata that
    [set_solver] builds.  A compiler on which [set_solver] has not been
    called has no symbolic automata, and then never builds an automaton
    for the two operators: intersection is "not supported" at once, and
    so is complement as soon as its operand compiles (the only other
    outcome being a failed sort check inside the operand).  After
    [set_solver], on operands that compile, the two operators are the
    complement and the product of the symbolic automata over the solver
    supplied. *)
Theorem re2aut_complement_intersection
  (self : re2automaton) (ps : list parameter) (e0 e1 e2 : expr) :
  (m_sa mk_re2automaton = None
   /\ forall solver, m_sa (set_solver self solver) = Some solver)
  /\ (m_sa self = None ->
      re2aut self (App OP_RE_INTERSECT ps [e1; e2]) = NotSupported
      /\ (forall a, re2aut self (App OP_RE_COMPLEMENT ps [e0]) <> Automaton a)
      /\ (re2aut self e0 <> VerifyFailed ->
          re2aut self (App OP_RE_COMPLEMENT ps [e0]) = NotSupported))
  /\ (forall solver,
      (forall a, re2aut (set_solver self solver) e0 = Automaton a ->
         re2aut (set_solver self solver) (App OP_RE_COMPLEMENT ps [e0])
         = of_pointer (sa_mk_complement solver a))
      /\ (forall a b,
            re2aut (set_solver self solver) e1 = Automaton a ->
            re2aut (set_solver self solver) e2 = Automaton b ->
            re2aut (set_solver self solver) (App OP_RE_INTERSECT ps [e1; e2])
            = of_pointer (sa_mk_product solver a b))).
Proof.
  split; [split; [reflexivity | intros; reflexivity] | ].
  split.
  - intros Hsa. cbn. rewrite Hsa.
    split; [reflexivity | ].
    destruct (re2aut self e0); split; try congruence; discriminate.
  - intros solver. cbn [re2aut]. cbn [m_sa set_solver]. split.
    + intros a ->. reflexivity.
    + intros a b -> ->. reflexivity.
Qed.

End re2automaton_properties.

(** ** [extract] on literals *)

Lemma zextract_clip (s : zstring) (pos len : nat) :
  zextract s pos (Nat.min len (length s - pos)) = zextract s pos len.
Proof.
  unfold zextract.
  destruct (Nat.le_ge_cases len (length s - pos)) as [H | H].
  - rewrite Nat.min_l by exact H. reflexivity.
  - rewrite Nat.min_r by exact H.
    rewrite !firstn_all2; [reflexivity | | ]; rewrite length_skipn; lia.
Qed.

Lemma sign_is_determined_numeral (z : Z) :
  sign_is_determined (autil.mk_int z)
  = Some (if (0 <? z)%Z then sign_pos
          else if (z <? 0)%Z then sign_neg else sign_zero).
Proof.
  cbn. destruct (0 <? z)%Z; [reflexivity | ].
  destruct (z <? 0)%Z; reflexivity.
Qed.

(** C6, as the code has it: for a string literal [s] and integer
    literals [pos] and [len], [mk_seq_extract] is done with the empty
    sequence when [pos < 0], [len <= 0] or [pos >= |s|], whatever the
    sizes of [s] and [len]; and when [0 <= pos < |s|] and [0 < len] it
    is done with the literal sub-string of [s] from [pos] of length
    [min len (|s| - pos)], provided [pos + len] and [|s| + 1] are below
    [2^32], so that no sum taken in the unsigned type wraps around. *)
Theorem mk_seq_extract_literal (s : zstring) (pos len : Z) :
  ((pos < 0 \/ len <= 0 \/ Z.of_nat (length s) <= pos)%Z ->
   mk_seq_extract (str.mk_string s) (autil.mk_int pos) (autil.mk_int len)
   = (BR_DONE, Some (str.mk_empty (Seq_sort Char_sort))))
  /\ ((0 <= pos < Z.of_nat (length s))%Z -> (0 < len)%Z ->
      (pos + len < uint_max)%Z ->
      (Z.of_nat (length s) + 1 < uint_max)%Z ->
      mk_seq_extract (str.mk_string s) (autil.mk_int pos) (autil.mk_int len)
      = (BR_DONE,
         Some (str.mk_string
                 (zextract s (Z.to_nat pos)
                    (Nat.min (Z.to_nat len) (length s - Z.to_nat pos)))))).
Proof.
  assert (Hmax : (0 < uint_max)%Z) by (unfold uint_max; lia).
  split.
  - intros H.
    unfold mk_seq_extract.
    rewrite sign_is_determined_numeral.
    change (str.is_string (str.mk_string s)) with (Some s).
    change (autil.is_numeral (autil.mk_int pos)) with (Some pos).
    change (autil.is_numeral (autil.mk_int len)) with (Some len).
    change (get_sort (str.mk_string s)) with (Seq_sort Char_sort).
    cbv beta iota zeta.
    destruct (0 <? len)%Z eqn:Hlen0, (len <? 0)%Z eqn:Hlen1,
      (pos <? 0)%Z eqn:Hpos0, (Z.of_nat (length s) <=? pos)%Z eqn:Hposs;
      cbn [negb orb andb]; try reflexivity;
      rewrite ?Z.ltb_lt, ?Z.ltb_ge, ?Z.leb_le, ?Z.leb_gt in *; lia.
  - intros Hpos Hlen Hsum Hs.
    unfold mk_seq_extract.
    rewrite sign_is_determined_numeral.
    change (str.is_string (str.mk_string s)) with (Some s).
    change (autil.is_numeral (autil.mk_int pos)) with (Some pos).
    change (autil.is_numeral (autil.mk_int len)) with (Some len).
    change (get_sort (str.mk_string s)) with (Seq_sort Char_sort).
    cbv beta iota zeta.
    replace (0 <? len)%Z with true by (symmetry; apply Z.ltb_lt; lia).
    replace (len <? 0)%Z with false by (symmetry; apply Z.ltb_ge; lia).
    replace (pos <? 0)%Z with false by (symmetry; apply Z.ltb_ge; lia).
    replace (Z.of_nat (length s) <=? pos)%Z with false
      by (symmetry; apply Z.leb_gt; lia).
    cbn [negb orb andb]. cbv beta iota.
    unfold is_unsigned.
    replace (0 <=? pos)%Z with true by (symmetry; apply Z.leb_le; lia).
    replace (pos <? uint_max)%Z with true by (symmetry; apply Z.ltb_lt; lia).
    replace (0 <=? len)%Z with true by (symmetry; apply Z.leb_le; lia).
    replace (len <? uint_max)%Z with true by (symmetry; apply Z.ltb_lt; lia).
    cbn [andb]. cbv beta iota.
    rewrite zextract_clip.
    rewrite (Z.mod_small (pos + len)) by lia.
    destruct (Z.of_nat (length s) <=? pos + len)%Z eqn:Hcase;
      [ | reflexivity ].
    apply Z.leb_le in Hcase.
    rewrite Z.mod_small by lia.
    do 3 f_equal. unfold zextract.
    rewrite !firstn_all2; [reflexivity | | ]; rewrite length_skipn; lia.
Qed.

(** ** Meaning of sequence terms *)

Lemma get_sort_seq_eval (I : interp) (e : expr) (t : sort) :
  get_sort e = Seq_sort t -> exists l, eval I e = VSeq l.
Proof.
  destruct e as [k ps args].
  assert (D : forall v, exists l, coerce (Seq_sort t) v = VSeq l)
    by (intros [ | | | | ]; simpl; eauto).
  intros Hs.
  destruct k; try discriminate Hs;
    destruct args as [ | r1 [ | r2 [ | r3 [ | r4 args]]]];
    try discriminate Hs;
    try (cbn; eauto; fail);
    try (cbn; cbn in Hs; rewrite Hs; apply D).
  all: destruct ps as [ | [ | | z | | ] [ | ? ?]];
    solve [cbn; eauto | cbn in Hs; inversion Hs; subst t; cbn; apply D].
Qed.

Lemma seq_val_app (I : interp) (xs ys : list expr) :
  seq_val I (xs ++ ys) = seq_val I xs ++ seq_val I ys.
Proof. unfold seq_val. apply flat_map_app. Qed.

Lemma eval_concat (I : interp) (ps : list parameter) (a b : expr) :
  eval I (App OP_SEQ_CONCAT ps [a; b])
  = VSeq (as_seq (eval I a) ++ as_seq (eval I b)).
Proof. cbn. rewrite app_nil_r. reflexivity. Qed.

Lemma seq_operand_cases (e : expr) :
  seq_operand e = true ->
  (exists ps a b, e = App OP_SEQ_CONCAT ps [a; b]
                  /\ seq_operand a = true /\ seq_operand b = true)
  \/ (exists t, get_sort e = Seq_sort t).
Proof.
  intros H.
  assert (G : (match get_sort e with Seq_sort _ => true | _ => false end) = true
              -> exists t, get_sort e = Seq_sort t).
  { destruct (get_sort e); try discriminate; eauto. }
  destruct e as [k ps args].
  destruct k; try (right; apply G; exact H).
  destruct args as [ | a [ | b [ | c args]]]; try (right; apply G; exact H).
  left. cbn in H. apply andb_prop in H. destruct H. eauto 6.
Qed.

Lemma seq_operand_eval (I : interp) (e : expr) :
  seq_operand e = true -> eval I e = VSeq (as_seq (eval I e)).
Proof.
  intros H.
  destruct (seq_operand_cases e H) as [(ps & a & b & -> & _) | (t & Ht)].
  - rewrite eval_concat. reflexivity.
  - destruct (get_sort_seq_eval I e Ht) as (l & ->). reflexivity.
Qed.

Lemma is_empty_eval (I : interp) (e : expr) :
  str.is_empty e = true -> eval I e = VSeq [].
Proof.
  destruct e as [k ps args]. intros H.
  destruct k; try discriminate H; [reflexivity | ].
  destruct ps as [ | [ | | [ | ? ?] | | ] [ | ? ?]]; try discriminate H.
  reflexivity.
Qed.

Lemma eval_mk_concat_n (I : interp) (es : list expr) (s : sort) :
  forallb seq_operand es = true ->
  eval I (mk_concat_n es s) = VSeq (seq_val I es).
Proof.
  induction es as [ | e es IH]; intros H; [reflexivity | ].
  simpl in H. apply andb_prop in H. destruct H as [He Hes].
  destruct es as [ | e' es].
  - simpl. unfold seq_val. simpl. rewrite app_nil_r.
    apply seq_operand_eval. exact He.
  - change (mk_concat_n (e :: e' :: es) s)
      with (str.mk_concat e (mk_concat_n (e' :: es) s)).
    unfold str.mk_concat. rewrite eval_concat, IH by exact Hes.
    reflexivity.
Qed.

Lemma seq_val_units (I : interp) (z : zstring) :
  seq_val I (map (fun c => str.mk_unit (mk_char c)) z) = map VChar z.
Proof.
  induction z as [ | c z IH]; [reflexivity | ].
  unfold seq_val in *. simpl. rewrite IH. reflexivity.
Qed.

Lemma get_concat_units_val (I : interp) (e : expr) :
  seq_val I (get_concat_units e) = as_seq (eval I e).
Proof.
  induction e as [k ps args IH] using expr_ind.
  assert (Leaf : forall e0 : expr,
             seq_val I (if str.is_empty e0 then [] else [e0])
             = as_seq (eval I e0)).
  { intros e0. destruct (str.is_empty e0) eqn:E.
    - rewrite (is_empty_eval I e0 E). reflexivity.
    - unfold seq_val. simpl. apply app_nil_r. }
  destruct k; try apply Leaf.
  - destruct args as [ | a [ | b [ | c args]]]; try apply Leaf.
    inversion IH as [ | ? ? IHa IH']; subst.
    inversion IH' as [ | ? ? IHb _]; subst.
    change (get_concat_units (App OP_SEQ_CONCAT ps [a; b]))
      with (get_concat_units a ++ get_concat_units b).
    rewrite seq_val_app, IHa, IHb, eval_concat. reflexivity.
  - destruct ps as [ | [ | | z | | ] [ | ? ?]]; try apply Leaf.
    change (get_concat_units (App OP_STRING_CONST [P_str z] args))
      with (map (fun c => str.mk_unit (mk_char c)) z).
    rewrite seq_val_units. reflexivity.
Qed.

Lemma get_concat_units_operand (e : expr) :
  seq_operand e = true -> forallb seq_operand (get_concat_units e) = true.
Proof.
  induction e as [k ps args IH] using expr_ind. intros H.
  assert (Leaf : forall e0 : expr, seq_operand e0 = true ->
             forallb seq_operand (if str.is_empty e0 then [] else [e0]) = true).
  { intros e0 H0. destruct (str.is_empty e0); simpl; [reflexivity | ].
    rewrite H0. reflexivity. }
  destruct k; try (apply Leaf; exact H).
  - destruct args as [ | a [ | b [ | c args]]]; try (apply Leaf; exact H).
    inversion IH as [ | ? ? IHa IH']; subst.
    inversion IH' as [ | ? ? IHb _]; subst.
    cbn in H. apply andb_prop in H. destruct H as [Ha Hb].
    change (get_concat_units (App OP_SEQ_CONCAT ps [a; b]))
      with (get_concat_units a ++ get_concat_units b).
    rewrite forallb_app, IHa, IHb by assumption. reflexivity.
  - destruct ps as [ | [ | | z | | ] [ | ? ?]]; try (apply Leaf; exact H).
    change (get_concat_units (App OP_STRING_CONST [P_str z] args))
      with (map (fun c => str.mk_unit (mk_char c)) z).
    clear. induction z; [reflexivity | exact IHz].
Qed.

(** ** [str.to_int] *)

Lemma digits_value_snoc (cs : list nat) (c : nat) :
  digits_value (cs ++ [c]) = 10 * digits_value cs + (c - 48).
Proof. unfold digits_value. rewrite fold_left_app. reflexivity. Qed.

Lemma all_digits_snoc (h : list value) (v : value) :
  all_digits (h ++ [v])
  = match all_digits h, as_digit v with
    | Some cs, Some c => Some (cs ++ [c])
    | _, _ => None
    end.
Proof.
  induction h as [ | w h IH]; simpl.
  - destruct (as_digit v); reflexivity.
  - rewrite IH. destruct (as_digit w), (all_digits h), (as_digit v); reflexivity.
Qed.

Lemma stoi_sem_snoc (h : list value) (v : value) :
  h <> [] ->
  stoi_sem (h ++ [v])
  = (if 0 <=? stoi_sem [v]
     then if 0 <=? stoi_sem h then 10 * stoi_sem h + stoi_sem [v] else -1
     else stoi_sem [v])%Z.
Proof.
  intros Hh.
  assert (E : stoi_sem (h ++ [v])
              = match all_digits (h ++ [v]) with
                | Some cs => Z.of_nat (digits_value cs)
                | None => (-1)%Z
                end).
  { unfold stoi_sem. destruct (h ++ [v]) eqn:E; [ | reflexivity].
    destruct h; discriminate E. }
  rewrite E, all_digits_snoc.
  assert (Eh : stoi_sem h
               = match all_digits h with
                 | Some cs => Z.of_nat (digits_value cs)
                 | None => (-1)%Z
                 end).
  { unfold stoi_sem. destruct h; [contradiction | reflexivity]. }
  rewrite Eh. unfold stoi_sem. simpl all_digits.
  destruct (as_digit v) as [c | ]; destruct (all_digits h) as [cs | ];
    simpl.
  - rewrite digits_value_snoc.
    destruct (0 <=? Z.of_nat (digits_value [c]))%Z eqn:E1;
      [ | apply Z.leb_gt in E1; lia ].
    destruct (0 <=? Z.of_nat (digits_value cs))%Z eqn:E2;
      [ | apply Z.leb_gt in E2; lia ].
    change (digits_value [c]) with (c - 48).
    rewrite Nat2Z.inj_add, Nat2Z.inj_mul. reflexivity.
  - destruct (0 <=? Z.of_nat (digits_value [c]))%Z eqn:E1;
      [reflexivity | apply Z.leb_gt in E1; lia ].
  - reflexivity.
  - reflexivity.
Qed.

Lemma value_eqb_nil (l : list value) :
  value_eqb (VSeq l) (VSeq []) = match l with [] => true | _ => false end.
Proof.
  unfold value_eqb.
  destruct (value_eq_dec (VSeq l) (VSeq [])) as [E | NE];
    destruct l; congruence.
Qed.

Section stoi_properties.
Context {ext : externals}.

(** C8, as the code has it: on a concatenation whose last operand is a
    unit (and that is no literal, no [itos], no if-then-else and no
    constant character), [mk_str_stoi] builds
    [ite(head = "", digit, ite(digit >= 0, ite(stoi(head) >= 0,
    10 * stoi(head) + digit, -1), digit))] with [digit = stoi(unit)]; and
    this term has the value of [stoi(head ++ unit)] under every
    interpretation. *)
Theorem mk_str_stoi_concat (a : expr) (init : list expr) (last_ : expr) :
  str.is_string a = None ->
  str.is_itos a = None ->
  is_ite a = None ->
  match str.is_unit a with Some u => is_const_char u | None => None end = None ->
  get_concat_units a = init ++ [last_] ->
  is_unit_b last_ = true ->
  let head := mk_concat_n init (get_sort a) in
  mk_str_stoi a = (BR_REWRITE_FULL, Some (stoi_accumulate head last_))
  /\ (seq_operand a = true ->
      forall I, eval I (stoi_accumulate head last_) = eval I (str.mk_stoi a)).
Proof.
  intros Hstr Hitos Hite Hunit Hunits Hlast head. split.
  - unfold mk_str_stoi. rewrite Hstr, Hitos, Hite, Hunit, Hunits.
    rewrite rev_unit, Hlast, rev_involutive. reflexivity.
  - intros Hop I.
    assert (Hall : forallb seq_operand (init ++ [last_]) = true)
      by (rewrite <- Hunits; apply get_concat_units_operand; exact Hop).
    rewrite forallb_app in Hall. apply andb_prop in Hall.
    destruct Hall as [Hinit _].
    assert (Ehead : eval I head = VSeq (seq_val I init))
      by (apply eval_mk_concat_n; exact Hinit).
    assert (Elast : exists v, eval I last_ = VSeq [v]).
    { unfold is_unit_b, str.is_unit in Hlast.
      destruct last_ as [k ps [ | u [ | ? ?]]]; destruct k; try discriminate Hlast.
      eexists. reflexivity. }
    destruct Elast as (v & Elast).
    assert (Ea : as_seq (eval I a) = seq_val I init ++ [v]).
    { rewrite <- get_concat_units_val, Hunits, seq_val_app.
      unfold seq_val at 2. simpl. rewrite Elast. reflexivity. }
    unfold stoi_accumulate, mk_is_empty, str.mk_stoi, mk_ite, mk_eq,
      autil.mk_ge, autil.mk_add, autil.mk_mul, autil.mk_int, autil.mk_numeral.
    cbn -[stoi_sem Z.mul Z.add Z.leb value_eqb]. fold head.
    rewrite Ehead, Elast, Ea, value_eqb_nil. cbn [as_seq].
    destruct (seq_val I init) as [ | w ws] eqn:Ei.
    + reflexivity.
    + cbn [as_bool coerce].
      rewrite stoi_sem_snoc by discriminate.
      rewrite Z.mul_1_r, Z.add_0_r.
      destruct (0 <=? stoi_sem [v])%Z; cbn [as_bool coerce]; [ | reflexivity].
      destruct (0 <=? stoi_sem (w :: ws))%Z; reflexivity.
Qed.

End stoi_properties.

(** ** The if-then-else canonicalizer and its cache *)

Section combine_properties.
Context {ext : externals}.

Lemma combine_ites_S (fuel : nat) (k : decl_kind) (a b : expr)
  (cond : option expr) (c : op_cache) :
  combine_ites (S fuel) k a b cond c
  = match op_cache_ops.find c k (Some a) (Some b) cond with
    | Some result => Done result c
    | None =>
        match run_step (combine_ites fuel) k cond (combine_step_of k a b cond) c with
        | Done result c' =>
            Done result (op_cache_ops.insert c' k (Some a) (Some b) cond result)
        | Abort => Abort
        | Timeout => Timeout
        end
    end.
Proof.
  cbn [combine_ites].
  destruct (op_cache_ops.find c k (Some a) (Some b) cond); [reflexivity | ].
  unfold combine_step_of.
  destruct (decl_kind_eq_dec k OP_ITE) as [-> | NE].
  - destruct cond as [cnd | ]; [ | reflexivity].
    destruct (is_ite a) as [[[acond a1] a2] | ];
      destruct (is_ite b) as [[[bcond b1] b2] | ];
      repeat match goal with
             | |- context [if ?x <? ?y then _ else _] => destruct (x <? y)
             | |- context [if expr_eqb ?x ?y then _ else _] =>
                 destruct (expr_eqb x y)
             end;
      reflexivity.
  - destruct (is_ite a) as [[[acond a1] a2] | ];
      [reflexivity | ].
    destruct (is_ite b) as [[[bcond b1] b2] | ]; reflexivity.
Qed.

Lemma combine_ites_0 (k : decl_kind) (a b : expr) (cond : option expr)
  (c : op_cache) :
  combine_ites 0 k a b cond c
  = match op_cache_ops.find c k (Some a) (Some b) cond with
    | Some result => Done result c
    | None => Timeout
    end.
Proof. reflexivity. Qed.

(** A call that returns has stored its result in the table. *)
Lemma combine_ites_stores (fuel : nat) k a b cond c r c' :
  combine_ites fuel k a b cond c = Done r c' ->
  0 < fuel /\ table_find (m_table c') (k, Some a, Some b, cond) = Some r.
Proof.
  destruct fuel as [ | fuel]; [rewrite combine_ites_0 | rewrite combine_ites_S];
    rewrite find_misses; intros H; try discriminate H.
  destruct (run_step _ _ _ _ c); inversion H; subst.
  split; [apply Nat.lt_0_succ | apply table_find_insert].
Qed.

(** The reference result is unique. *)
Lemma combine_spec_functional k a b cond r :
  combine_spec k a b cond r -> forall r', combine_spec k a b cond r' -> r' = r.
Proof.
  induction 1 as [k a b cond x1 y1 x2 y2 inner ok oc r1 r2 r Hs _ IH1 _ IH2 _ IH3
                 | k a b cond x y r Hs _ IH
                 | k a b cond r Hs];
    intros r' H'; inversion H' as [? ? ? ? ? ? ? ? ? ? ? ? ? ? Hs' H1 H2 H3
                                  | ? ? ? ? ? ? ? Hs' H1
                                  | ? ? ? ? ? Hs']; subst;
    rewrite Hs in Hs'; inversion Hs'; subst.
  - apply IH1 in H1. apply IH2 in H2. subst. apply IH3. exact H3.
  - apply IH. exact H1.
  - reflexivity.
Qed.

(** A call that returns, from a cache whose entries are reference
    results, returns the reference result and leaves such a cache. *)
Lemma combine_ites_sound (fuel : nat) :
  forall k a b cond c r c',
    cache_all combine_entry c ->
    combine_ites fuel k a b cond c = Done r c' ->
    combine_spec k a b cond r /\ cache_all combine_entry c'.
Proof.
  induction fuel as [ | fuel IH]; intros k a b cond c r c' Hc H.
  - rewrite combine_ites_0 in H.
    destruct (op_cache_ops.find c k (Some a) (Some b) cond) eqn:Hfind;
      inversion H; subst.
    split; [exact (Hc _ _ _ _ _ Hfind) | exact Hc].
  - rewrite combine_ites_S in H.
    destruct (op_cache_ops.find c k (Some a) (Some b) cond) eqn:Hfind.
    { inversion H; subst. split; [exact (Hc _ _ _ _ _ Hfind) | exact Hc]. }
    destruct (run_step _ _ _ _ c) as [res c1 | | ] eqn:Hrun; inversion H; subst.
    assert (G : combine_spec k a b cond r /\ cache_all combine_entry c1).
    { destruct (combine_step_of k a b cond)
        as [x1 y1 x2 y2 inner ok oc | x y | leaf | ] eqn:Hs;
        cbn [run_step] in Hrun; unfold bind, ret, abort in Hrun.
      - destruct (combine_ites fuel k x1 y1 inner c) as [r1 ca | | ] eqn:E1;
          try discriminate Hrun.
        destruct (IH _ _ _ _ _ _ _ Hc E1) as [S1 Hca].
        destruct (combine_ites fuel k x2 y2 inner ca) as [r2 cb | | ] eqn:E2;
          try discriminate Hrun.
        destruct (IH _ _ _ _ _ _ _ Hca E2) as [S2 Hcb].
        destruct (IH _ _ _ _ _ _ _ Hcb Hrun) as [S3 Hcc].
        split; [ | exact Hcc]. eapply spec_push; eassumption.
      - destruct (IH _ _ _ _ _ _ _ Hc Hrun) as [S1 Hca].
        split; [ | exact Hca]. eapply spec_collapse; eassumption.
      - inversion Hrun; subst. split; [ | exact Hc]. apply spec_leaf. exact Hs.
      - discriminate Hrun. }
    destruct G as [G1 G2]. split; [exact G1 | ].
    apply cache_all_insert; [exact G2 | exact G1].
Qed.

(** With enough fuel, the call returns the reference result from every
    cache whose entries are reference results. *)
Lemma combine_ites_complete k a b cond r :
  combine_spec k a b cond r ->
  exists fuel0, forall fuel c,
    fuel0 <= fuel -> cache_all combine_entry c ->
    exists c', combine_ites fuel k a b cond c = Done r c'.
Proof.
  induction 1 as [k a b cond x1 y1 x2 y2 inner ok oc r1 r2 r Hs S1 IH1 S2 IH2 S3 IH3
                 | k a b cond x y r Hs S1 IH
                 | k a b cond r Hs].
  - destruct IH1 as (f1 & IH1), IH2 as (f2 & IH2), IH3 as (f3 & IH3).
    exists (S (f1 + f2 + f3)). intros fuel c Hfuel Hc.
    destruct fuel as [ | fuel]; [lia | ].
    rewrite combine_ites_S.
    destruct (op_cache_ops.find c k (Some a) (Some b) cond) as [r' | ] eqn:Hfind.
    { pose proof (Hc _ _ _ _ _ Hfind) as Hr'. cbn in Hr'.
      assert (r' = r)
        by (eapply combine_spec_functional;
            [eapply spec_push; eassumption | exact Hr']).
      subst r'. eauto. }
    rewrite Hs. cbn [run_step]. unfold bind.
    destruct (IH1 fuel c ltac:(lia) Hc) as (ca & E1). rewrite E1.
    assert (Hca : cache_all combine_entry ca)
      by (eapply combine_ites_sound; eassumption).
    destruct (IH2 fuel ca ltac:(lia) Hca) as (cb & E2). rewrite E2.
    assert (Hcb : cache_all combine_entry cb)
      by (eapply combine_ites_sound; eassumption).
    destruct (IH3 fuel cb ltac:(lia) Hcb) as (cc & E3). rewrite E3.
    eauto.
  - destruct IH as (f1 & IH).
    exists (S f1). intros fuel c Hfuel Hc.
    destruct fuel as [ | fuel]; [lia | ].
    rewrite combine_ites_S.
    destruct (op_cache_ops.find c k (Some a) (Some b) cond) as [r' | ] eqn:Hfind.
    { pose proof (Hc _ _ _ _ _ Hfind) as Hr'. cbn in Hr'.
      assert (r' = r)
        by (eapply combine_spec_functional;
            [eapply spec_collapse; eassumption | exact Hr']).
      subst r'. eauto. }
    rewrite Hs. cbn [run_step].
    destruct (IH fuel c ltac:(lia) Hc) as (ca & E1). rewrite E1. eauto.
  - exists 1. intros fuel c Hfuel Hc.
    destruct fuel as [ | fuel]; [lia | ].
    rewrite combine_ites_S.
    destruct (op_cache_ops.find c k (Some a) (Some b) cond) as [r' | ] eqn:Hfind.
    { pose proof (Hc _ _ _ _ _ Hfind) as Hr'. cbn in Hr'.
      assert (r' = r)
        by (eapply combine_spec_functional;
            [eapply spec_leaf; eassumption | exact Hr']).
      subst r'. eauto. }
    rewrite Hs. cbn [run_step]. unfold ret. eauto.
Qed.

Lemma is_ite_some (e c t el : expr) :
  is_ite e = Some (c, t, el) -> exists ps, e = App OP_ITE ps [c; t; el].
Proof.
  destruct e as [k ps [ | x [ | y [ | z [ | ? ?]]]]]; destruct k;
    try discriminate.
  intros H. inversion H; subst. eauto.
Qed.

(** The cases of the if-then-else mode. *)
Lemma combine_step_ite (a b cnd : expr) :
  match combine_step_of OP_ITE a b (Some cnd) with
  | Push x1 y1 x2 y2 inner outer_k oc =>
      inner = Some cnd /\ outer_k = OP_ITE /\ get_id cnd < get_id oc
      /\ ((exists ps, a = App OP_ITE ps [oc; x1; x2] /\ y1 = b /\ y2 = b)
          \/ (exists ps, b = App OP_ITE ps [oc; y1; y2] /\ x1 = a /\ x2 = a))
  | Collapse x y =>
      (exists ps c a2, a = App OP_ITE ps [c; x; a2] /\ y = b)
      \/ (exists ps c b1, b = App OP_ITE ps [c; b1; y] /\ x = a)
  | Leaf r => r = mk_ite cnd a b
  | Crash => False
  end.
Proof.
  unfold combine_step_of.
  destruct (decl_kind_eq_dec OP_ITE OP_ITE) as [_ | NE]; [ | contradiction].
  assert (OnB :
    match
      match is_ite b with
      | Some (bcond, b1, b2) =>
          if get_id cnd <? get_id bcond
          then Push a b1 a b2 (Some cnd) OP_ITE bcond
          else if expr_eqb cnd bcond then Collapse a b2
               else Leaf (mk_ite cnd a b)
      | None => Leaf (mk_ite cnd a b)
      end
    with
    | Push x1 y1 x2 y2 inner outer_k oc =>
        inner = Some cnd /\ outer_k = OP_ITE /\ get_id cnd < get_id oc
        /\ ((exists ps, a = App OP_ITE ps [oc; x1; x2] /\ y1 = b /\ y2 = b)
            \/ (exists ps, b = App OP_ITE ps [oc; y1; y2] /\ x1 = a /\ x2 = a))
    | Collapse x y =>
        (exists ps c a2, a = App OP_ITE ps [c; x; a2] /\ y = b)
        \/ (exists ps c b1, b = App OP_ITE ps [c; b1; y] /\ x = a)
    | Leaf r => r = mk_ite cnd a b
    | Crash => False
    end).
  { destruct (is_ite b) as [[[bcond b1] b2] | ] eqn:Eb; [ | reflexivity].
    destruct (is_ite_some _ Eb) as (ps & ->).
    destruct (get_id cnd <? get_id bcond) eqn:Elt.
    - apply Nat.ltb_lt in Elt. repeat split; eauto.
    - destruct (expr_eqb cnd bcond); [ | reflexivity]. right. eauto. }
  destruct (is_ite a) as [[[acond a1] a2] | ] eqn:Ea; [ | exact OnB].
  destruct (is_ite_some _ Ea) as (ps & ->).
  destruct (get_id cnd <? get_id acond) eqn:Elt.
  - apply Nat.ltb_lt in Elt. repeat split; eauto.
  - destruct (expr_eqb cnd acond); [ | exact OnB]. left. eauto.
Qed.

(** The cases of the binary mode. *)
Lemma combine_step_binary (k : decl_kind) (a b : expr) (cond : option expr) :
  k <> OP_ITE ->
  match combine_step_of k a b cond with
  | Push x1 y1 x2 y2 inner outer_k oc =>
      inner = None /\ outer_k = OP_ITE
      /\ ((exists ps, a = App OP_ITE ps [oc; x1; x2] /\ y1 = b /\ y2 = b)
          \/ (exists ps, b = App OP_ITE ps [oc; y1; y2] /\ x1 = a /\ x2 = a))
  | Collapse _ _ => False
  | Leaf r => r = mk_app k [a; b]
  | Crash => False
  end.
Proof.
  intros NE. unfold combine_step_of.
  destruct (decl_kind_eq_dec k OP_ITE) as [E | _]; [contradiction | ].
  destruct (is_ite a) as [[[acond a1] a2] | ] eqn:Ea.
  - destruct (is_ite_some _ Ea) as (ps & ->). repeat split; eauto.
  - destruct (is_ite b) as [[[bcond b1] b2] | ] eqn:Eb; [ | reflexivity].
    destruct (is_ite_some _ Eb) as (ps & ->). repeat split; eauto.
Qed.

Lemma ite_size_ite ps c t el :
  ite_size (App OP_ITE ps [c; t; el]) = S (ite_size t + ite_size el).
Proof. reflexivity. Qed.

Lemma ite_ids_ite ps c t el :
  ite_ids (App OP_ITE ps [c; t; el]) = get_id c :: ite_ids t ++ ite_ids el.
Proof. reflexivity. Qed.

(** The if-then-else mode terminates: the condition of the outer call
    has a strictly larger identifier, and identifiers are bounded by
    those that occur in the operands. *)
Lemma combine_spec_total_ite (d : nat) :
  forall m a b cnd,
    (forall n, In n (ite_ids a ++ ite_ids b) -> n <= get_id cnd + d) ->
    ite_size a + ite_size b <= m ->
    exists r, combine_spec OP_ITE a b (Some cnd) r
              /\ (forall n, In n (ite_ids r) ->
                            In n (ite_ids a ++ ite_ids b) \/ n = get_id cnd).
Proof.
  induction d as [d IHd] using lt_wf_ind.
  induction m as [m IHm] using lt_wf_ind.
  intros a b cnd Hids Hsize.
  pose proof (combine_step_ite a b cnd) as Hstep.
  destruct (combine_step_of OP_ITE a b (Some cnd))
    as [x1 y1 x2 y2 inner ok oc | x y | leaf | ] eqn:Hs.
  - destruct Hstep as (-> & -> & Hlt & Hshape).
    assert (Hoc : In (get_id oc) (ite_ids a ++ ite_ids b)).
    { destruct Hshape as [(ps & -> & _ & _) | (ps & -> & _ & _)];
        rewrite ite_ids_ite, in_app_iff; simpl; auto. }
    assert (Hsub : forall n,
               In n (ite_ids x1 ++ ite_ids y1) \/ In n (ite_ids x2 ++ ite_ids y2) ->
               In n (ite_ids a ++ ite_ids b)).
    { intros n.
      destruct Hshape as [(ps & -> & -> & ->) | (ps & -> & -> & ->)];
        rewrite ite_ids_ite, !in_app_iff; simpl; rewrite !in_app_iff; tauto. }
    assert (Hsz : ite_size x1 + ite_size y1 < m /\ ite_size x2 + ite_size y2 < m).
    { destruct Hshape as [(ps & -> & -> & ->) | (ps & -> & -> & ->)];
        rewrite ite_size_ite in Hsize; lia. }
    destruct (IHm _ (proj1 Hsz) x1 y1 cnd) as (r1 & S1 & I1);
      [intros n Hn; apply Hids, Hsub; auto | apply Nat.le_refl | ].
    destruct (IHm _ (proj2 Hsz) x2 y2 cnd) as (r2 & S2 & I2);
      [intros n Hn; apply Hids, Hsub; auto | apply Nat.le_refl | ].
    pose proof (Hids _ Hoc) as Hocd.
    destruct d as [ | d']; [lia | ].
    destruct (IHd d' ltac:(lia) (ite_size r1 + ite_size r2) r1 r2 oc)
      as (r & S3 & I3).
    { intros n Hn. apply in_app_iff in Hn.
      destruct Hn as [Hn | Hn]; [apply I1 in Hn | apply I2 in Hn];
        (destruct Hn as [Hn | ->]; [ | lia]);
        assert (In n (ite_ids a ++ ite_ids b)) by (apply Hsub; auto);
        specialize (Hids n ltac:(assumption)); lia. }
    { apply Nat.le_refl. }
    exists r. split; [eapply spec_push; eassumption | ].
    intros n Hn. apply I3 in Hn. destruct Hn as [Hn | ->]; [ | auto].
    apply in_app_iff in Hn.
    destruct Hn as [Hn | Hn]; [apply I1 in Hn | apply I2 in Hn];
      (destruct Hn as [Hn | ->]; [left; apply Hsub | ]; auto).
  - assert (Hsub : forall n, In n (ite_ids x ++ ite_ids y) ->
                             In n (ite_ids a ++ ite_ids b)).
    { intros n.
      destruct Hstep as [(ps & c & a2 & -> & ->) | (ps & c & b1 & -> & ->)];
        rewrite ite_ids_ite, !in_app_iff; simpl; rewrite !in_app_iff; tauto. }
    assert (Hsz : ite_size x + ite_size y < m).
    { destruct Hstep as [(ps & c & a2 & -> & ->) | (ps & c & b1 & -> & ->)];
        rewrite ite_size_ite in Hsize; lia. }
    destruct (IHm _ Hsz x y cnd) as (r & S1 & I1);
      [intros n Hn; apply Hids, Hsub; auto | apply Nat.le_refl | ].
    exists r. split; [eapply spec_collapse; eassumption | ].
    intros n Hn. apply I1 in Hn. destruct Hn as [Hn | ->]; auto.
  - subst leaf. exists (mk_ite cnd a b).
    split; [apply spec_leaf; exact Hs | ].
    intros n Hn. unfold mk_ite in Hn. rewrite ite_ids_ite in Hn.
    destruct Hn as [<- | Hn]; auto.
  - contradiction.
Qed.

Lemma list_max_bound (l : list nat) (n : nat) : In n l -> n <= list_max l.
Proof.
  intros H. pose proof (proj1 (list_max_le l (list_max l)) (Nat.le_refl _)) as F.
  rewrite Forall_forall in F. apply F. exact H.
Qed.

(** [combine_ites] terminates on every input that respects its
    precondition: a condition comes with [OP_ITE]. *)
Lemma combine_spec_total (k : decl_kind) (a b : expr) (cond : option expr) :
  (k = OP_ITE -> cond <> None) ->
  exists r, combine_spec k a b cond r.
Proof.
  intros Hpre.
  destruct (decl_kind_eq_dec k OP_ITE) as [-> | NE].
  - destruct cond as [cnd | ]; [ | exfalso; apply Hpre; reflexivity].
    destruct (@combine_spec_total_ite (list_max (ite_ids a ++ ite_ids b))
                (ite_size a + ite_size b) a b cnd) as (r & S1 & _).
    + intros n Hn. apply list_max_bound in Hn. lia.
    + apply Nat.le_refl.
    + eauto.
  - clear Hpre.
    remember (ite_size a + ite_size b) as m eqn:Hm.
    assert (Hle : ite_size a + ite_size b <= m) by lia. clear Hm.
    revert a b cond Hle.
    induction m as [m IHm] using lt_wf_ind. intros a b cond Hsize.
    pose proof (combine_step_binary a b cond NE) as Hstep.
    destruct (combine_step_of k a b cond)
      as [x1 y1 x2 y2 inner ok oc | x y | leaf | ] eqn:Hs;
      try contradiction.
    + destruct Hstep as (-> & -> & Hshape).
      assert (Hsz : ite_size x1 + ite_size y1 < m /\ ite_size x2 + ite_size y2 < m).
      { destruct Hshape as [(ps & -> & -> & ->) | (ps & -> & -> & ->)];
          rewrite ite_size_ite in Hsize; lia. }
      destruct (IHm _ (proj1 Hsz) x1 y1 None (Nat.le_refl _)) as (r1 & S1).
      destruct (IHm _ (proj2 Hsz) x2 y2 None (Nat.le_refl _)) as (r2 & S2).
      destruct (@combine_spec_total_ite (list_max (ite_ids r1 ++ ite_ids r2))
                  (ite_size r1 + ite_size r2) r1 r2 oc) as (r & S3 & _).
      * intros n Hn. apply list_max_bound in Hn. lia.
      * apply Nat.le_refl.
      * exists r. eapply spec_push; eassumption.
    + exists leaf. apply spec_leaf. exact Hs.
Qed.

(** Entries are never read, so every cache passes for one whose entries
    are reference results. *)
Lemma cache_all_any (P : op_key -> expr -> Prop) (c : op_cache) :
  cache_all P c.
Proof. intros k a b cc r H. discriminate H. Qed.

(** C7, as the code behaves: a call of [combine_ites] that returns [r]
    has stored [r] in the table under its arguments, and yet the lookup
    of these arguments is not answered; a second call with the same
    arguments therefore gets nothing from the cache (without a step of
    computation it has no result), and when it returns, it returns the
    same term [r], computed again. *)
Theorem combine_ites_recomputes (fuel : nat) (k : decl_kind) (a b : expr)
  (cond : option expr) (c : op_cache) (r : expr) (c' : op_cache) :
  combine_ites fuel k a b cond c = Done r c' ->
  table_find (m_table c') (k, Some a, Some b, cond) = Some r
  /\ op_cache_ops.find c' k (Some a) (Some b) cond = None
  /\ combine_ites 0 k a b cond c' = Timeout
  /\ forall fuel' r' c'',
       combine_ites fuel' k a b cond c' = Done r' c'' -> r' = r /\ 0 < fuel'.
Proof.
  intros H. destruct (combine_ites_stores _ _ _ _ _ _ H) as [_ Hs].
  split; [exact Hs | ]. split; [reflexivity | ]. split; [reflexivity | ].
  intros fuel' r' c'' H'.
  destruct (combine_ites_stores _ _ _ _ _ _ H') as [Hf _].
  split; [ | exact Hf].
  destruct (combine_ites_sound _ _ _ _ _ (@cache_all_any combine_entry c) H)
    as [Hr _].
  destruct (combine_ites_sound _ _ _ _ _ (@cache_all_any combine_entry c') H')
    as [Hr' _].
  eapply combine_spec_functional; eassumption.
Qed.

End combine_properties.

(** ** The properties at explicit inputs *)

(** C2: on [concat(concat(ite(cond1, ra, rb), rx), ry)] the lifting
    computes the lifted children and then combines the children
    themselves: the result is the input, with the if-then-else left
    below two concatenations, which is not a BDD form. *)
Theorem lift_ites_leaves_nested_ite :
  match lift_ites (ext := examples.manager) 10 examples.nested_ite true true
          (op_cache_ops.empty 100) with
  | Done res _ =>
      res = examples.nested_ite
      /\ is_bdd_form (ext := examples.manager) res = false
  | _ => False
  end.
Proof. vm_compute. split; reflexivity. Qed.

Lemma is_nullable_recognized_witness :
  recognized (re.mk_concat (re.mk_star examples.ra)
                (re.mk_to_re (str.mk_string [97]))) = true
  /\ exists c',
      is_nullable (ext := examples.manager)
        (re.mk_concat (re.mk_star examples.ra) (re.mk_to_re (str.mk_string [97])))
        (op_cache_ops.empty 100)
      = Done (nullable_spec (ext := examples.manager)
                (re.mk_concat (re.mk_star examples.ra)
                   (re.mk_to_re (str.mk_string [97])))) c'.
Proof.
  split; [reflexivity | ].
  apply (is_nullable_recognized (ext := examples.manager));
    [reflexivity | apply cache_all_empty].
Defined.

Lemma is_nullable_unrecognized_head_witness :
  head_recognized (re.mk_derivative examples.ch examples.ra) = false
  /\ is_re (re.mk_derivative examples.ch examples.ra) = Some examples.string_sort
  /\ is_nullable (ext := examples.manager)
       (re.mk_derivative examples.ch examples.ra) (op_cache_ops.empty 100)
     = Done (re.mk_in_re (str.mk_empty examples.string_sort)
               (re.mk_derivative examples.ch examples.ra))
         (op_cache_ops.empty 100).
Proof.
  split; [reflexivity | split; [reflexivity | ]].
  apply (is_nullable_unrecognized_head (ext := examples.manager));
    reflexivity.
Defined.

Lemma mk_re_derivative_concat_witness :
  exists c',
    is_nullable (ext := examples.manager) (re.mk_star examples.ra)
      (op_cache_ops.empty 100) = Done mk_true c'
    /\ mk_re_derivative (ext := examples.manager) examples.ch
         (re.mk_concat (re.mk_star examples.ra) examples.rb)
         (op_cache_ops.empty 100)
       = Done (BR_REWRITE3,
               Some (re.mk_union
                       (re.mk_concat
                          (re.mk_derivative examples.ch (re.mk_star examples.ra))
                          examples.rb)
                       (re.mk_derivative examples.ch examples.rb))) c'.
Proof.
  eexists. split; [reflexivity | ].
  exact (mk_re_derivative_concat (ext := examples.manager) examples.ch
           (re.mk_star examples.ra) examples.rb []
           (seq_sort := examples.string_sort) (ele_sort := Char_sort)
           (op_cache_ops.empty 100) eq_refl eq_refl eq_refl).
Defined.

Lemma mk_seq_extract_literal_witness :
  mk_seq_extract (str.mk_string [97; 98; 99]) (autil.mk_int 3)
    (autil.mk_int (2 ^ 32))
  = (BR_DONE, Some (str.mk_empty (Seq_sort Char_sort)))
  /\ mk_seq_extract (str.mk_string [97; 98; 99]) (autil.mk_int 1) (autil.mk_int 5)
     = (BR_DONE, Some (str.mk_string [98; 99])).
Proof.
  split.
  - apply (proj1 (mk_seq_extract_literal [97; 98; 99] 3 (2 ^ 32))).
    right. right. simpl. lia.
  - apply (proj2 (mk_seq_extract_literal [97; 98; 99] 1 5));
      unfold uint_max; simpl; lia.
Defined.

Lemma re2aut_complement_intersection_witness :
  re2aut (aut := examples.term_automata) mk_re2automaton
    (re.mk_complement examples.re_a) = NotSupported
  /\ re2aut (aut := examples.term_automata) mk_re2automaton
       (re.mk_inter examples.re_a examples.re_b_or_a) = NotSupported
  /\ re2aut (set_solver (aut := examples.term_automata) mk_re2automaton tt)
       (re.mk_complement examples.re_a)
     = @Automaton examples.term_automata
         (examples.A_complement
            (examples.A_moves 0 [1] [(0, 1, examples.S_char (mk_char 97))]))
  /\ re2aut (set_solver (aut := examples.term_automata) mk_re2automaton tt)
       (re.mk_inter examples.re_a examples.re_b_or_a)
     = @Automaton examples.term_automata
         (examples.A_product
            (examples.A_moves 0 [1] [(0, 1, examples.S_char (mk_char 97))])
            (examples.A_union
               (examples.A_moves 0 [1] [(0, 1, examples.S_char (mk_char 98))])
               (examples.A_moves 0 [1] [(0, 1, examples.S_char (mk_char 97))]))).
Proof.
  destruct (@re2aut_complement_intersection examples.term_automata
              mk_re2automaton [] examples.re_a examples.re_a
              examples.re_b_or_a) as [_ [Without With]].
  destruct (Without eq_refl) as [N1 [_ N2]].
  destruct (With tt) as [S1 S2].
  split; [apply N2; discriminate | ].
  split; [exact N1 | ].
  split; [exact (S1 _ eq_refl) | exact (S2 _ _ eq_refl eq_refl)].
Defined.

(** C6 as stated fails when [len] does not fit the unsigned type: the
    extract of ["a"] at [0] of length [2^32] is not rewritten to the
    literal but to an if-then-else over its units. *)
Lemma mk_seq_extract_large_len :
  mk_seq_extract (str.mk_string [97]) (autil.mk_int 0) (autil.mk_int (2 ^ 32))
  = (BR_REWRITE_FULL,
     Some (mk_ite (autil.mk_ge (autil.mk_int (2 ^ 32)) (autil.mk_int 1))
             (str.mk_unit (mk_char 97))
             (str.mk_empty (Seq_sort Char_sort))))
  /\ mk_seq_extract (str.mk_string [97]) (autil.mk_int 0) (autil.mk_int (2 ^ 32))
     <> (BR_DONE, Some (str.mk_string [97])).
Proof. split; [reflexivity | discriminate]. Qed.

(** C5 as stated fails: on [itos(num) = "a"], where ["a"] is no decimal
    numeral, [reduce_itos] answers [true] and leaves the equation. *)
Lemma reduce_itos_keeps_non_numeral :
  reduce_itos (ext := examples.manager)
    [str.mk_itos examples.num] [str.mk_string [97]] []
  = Reduced ([str.mk_itos examples.num], [str.mk_string [97]], [])
  /\ forallb is_digit [97] = false.
Proof. split; reflexivity. Qed.

Lemma mk_str_stoi_concat_witness :
  mk_str_stoi (ext := examples.manager)
    (str.mk_concat examples.sx (str.mk_unit examples.ch))
  = (BR_REWRITE_FULL,
     Some (stoi_accumulate examples.sx (str.mk_unit examples.ch)))
  /\ forall I,
      eval I (stoi_accumulate examples.sx (str.mk_unit examples.ch))
      = eval I (str.mk_stoi (str.mk_concat examples.sx (str.mk_unit examples.ch))).
Proof.
  pose proof (mk_str_stoi_concat (ext := examples.manager)
                (str.mk_concat examples.sx (str.mk_unit examples.ch))
                [examples.sx] (str.mk_unit examples.ch)
                eq_refl eq_refl eq_refl eq_refl eq_refl eq_refl) as [H1 H2].
  split; [exact H1 | exact (H2 eq_refl)].
Defined.

(** C8 as stated fails: with [sx = "a"] and [ch = '1'] the identity
    of the specification evaluates to [1], whereas [stoi("a1")] and the
    term the rewriter builds evaluate to [-1]. *)
Lemma stoi_identity_claimed_differs :
  eval examples.interp_a1
    (stoi_identity_claimed examples.sx (str.mk_unit examples.ch)) = VInt 1
  /\ eval examples.interp_a1
       (str.mk_stoi (str.mk_concat examples.sx (str.mk_unit examples.ch)))
     = VInt (-1)
  /\ eval examples.interp_a1
       (stoi_accumulate examples.sx (str.mk_unit examples.ch)) = VInt (-1).
Proof. repeat split; vm_compute; reflexivity. Qed.

Lemma combine_ites_recomputes_witness :
  exists r c',
    combine_ites (ext := examples.manager) 3 OP_RE_CONCAT
      (mk_ite examples.cond1 examples.ra examples.rb) examples.rx None
      (op_cache_ops.empty 100) = Done r c'
    /\ table_find (m_table c')
         (OP_RE_CONCAT, Some (mk_ite examples.cond1 examples.ra examples.rb),
          Some examples.rx, None) = Some r
    /\ op_cache_ops.find c' OP_RE_CONCAT
         (Some (mk_ite examples.cond1 examples.ra examples.rb))
         (Some examples.rx) None = None
    /\ combine_ites (ext := examples.manager) 0 OP_RE_CONCAT
         (mk_ite examples.cond1 examples.ra examples.rb) examples.rx None c'
       = Timeout
    /\ forall fuel' r' c'',
         combine_ites (ext := examples.manager) fuel' OP_RE_CONCAT
           (mk_ite examples.cond1 examples.ra examples.rb) examples.rx None c'
         = Done r' c'' -> r' = r /\ 0 < fuel'.
Proof.
  eexists. eexists. split; [vm_compute; reflexivity | ].
  apply (@combine_ites_recomputes examples.manager 3 OP_RE_CONCAT
           (mk_ite examples.cond1 examples.ra examples.rb) examples.rx None
           (op_cache_ops.empty 100)).
  vm_compute. reflexivity.
Defined.

(** ** Word equations *)

Lemma weq_operand_seq (e : expr) :
  weq_operand e = true -> seq_operand e = true.
Proof.
  induction e as [k ps args IH] using expr_ind. intros H.
  destruct k; try exact H.
  - destruct args as [ | a [ | b [ | c args]]]; try exact H.
    inversion IH as [ | ? ? IHa IH']; subst.
    inversion IH' as [ | ? ? IHb _]; subst.
    cbn in H. apply andb_prop in H. destruct H as [Ha Hb].
    cbn. rewrite (IHa Ha), (IHb Hb). reflexivity.
  - destruct args as [ | a [ | b args]]; reflexivity.
Qed.

Lemma wf_operand_seq (e : expr) : wf_operand e -> seq_operand e = true.
Proof. intros [H _]. apply weq_operand_seq. exact H. Qed.

Lemma is_string_eval (I : interp) (e : expr) (s : zstring) :
  str.is_string e = Some s -> eval I e = VSeq (map VChar s).
Proof.
  destruct e as [k ps args]. unfold str.is_string.
  destruct k; try discriminate.
  destruct ps as [ | [ | | z | | ] [ | ? ?]]; try discriminate.
  intros H. inversion H; subst. reflexivity.
Qed.

Lemma is_unit_eval (I : interp) (e a : expr) :
  str.is_unit e = Some a -> eval I e = VSeq [eval I a].
Proof.
  destruct e as [k ps args]. unfold str.is_unit.
  destruct k; try discriminate.
  destruct args as [ | x [ | ? ?]]; try discriminate.
  intros H. inversion H; subst. reflexivity.
Qed.

Lemma is_unit_b_some (e : expr) :
  is_unit_b e = true -> exists a, str.is_unit e = Some a.
Proof. unfold is_unit_b. destruct (str.is_unit e); [eauto | discriminate]. Qed.

Lemma is_string_not_empty (e : expr) (s : zstring) :
  str.is_string e = Some s -> str.is_empty e = false -> s <> [].
Proof.
  destruct e as [k ps args]. unfold str.is_string, str.is_empty.
  destruct k; try discriminate.
  destruct ps as [ | [ | | z | | ] [ | ? ?]]; try discriminate.
  intros H. inversion H; subst. destruct s; [discriminate | discriminate].
Qed.

Lemma wf_string (s : zstring) : s <> [] -> wf_operand (str.mk_string s).
Proof. intros H. split; [reflexivity | ]. destruct s; [contradiction | reflexivity]. Qed.

Lemma seq_val_cons (I : interp) (e : expr) (es : list expr) :
  seq_val I (e :: es) = as_seq (eval I e) ++ seq_val I es.
Proof. reflexivity. Qed.

Lemma seq_val_string (I : interp) (s : zstring) (es : list expr) :
  seq_val I (str.mk_string s :: es) = map VChar s ++ seq_val I es.
Proof. reflexivity. Qed.

Lemma get_concat_val (I : interp) (e : expr) :
  seq_val I (get_concat e) = as_seq (eval I e).
Proof.
  induction e as [k ps args IH] using expr_ind.
  assert (Leaf : forall e0 : expr,
             seq_val I (if str.is_empty e0 then [] else [e0])
             = as_seq (eval I e0)).
  { intros e0. destruct (str.is_empty e0) eqn:E.
    - rewrite (is_empty_eval I e0 E). reflexivity.
    - unfold seq_val. simpl. apply app_nil_r. }
  destruct k; try apply Leaf.
  destruct args as [ | a [ | b [ | c args]]]; try apply Leaf.
  inversion IH as [ | ? ? IHa IH']; subst.
  inversion IH' as [ | ? ? IHb _]; subst.
  change (get_concat (App OP_SEQ_CONCAT ps [a; b]))
    with (get_concat a ++ get_concat b).
  rewrite seq_val_app, IHa, IHb, eval_concat. reflexivity.
Qed.

Lemma get_concat_wf (e : expr) :
  weq_operand e = true -> Forall wf_operand (get_concat e).
Proof.
  induction e as [k ps args IH] using expr_ind. intros H.
  assert (Leaf : forall e0 : expr, weq_operand e0 = true ->
             Forall wf_operand (if str.is_empty e0 then [] else [e0])).
  { intros e0 H0. destruct (str.is_empty e0) eqn:E; constructor;
      [split; assumption | constructor]. }
  destruct k; try (apply Leaf; exact H).
  destruct args as [ | a [ | b [ | c args]]]; try (apply Leaf; exact H).
  inversion IH as [ | ? ? IHa IH']; subst.
  inversion IH' as [ | ? ? IHb _]; subst.
  cbn in H. apply andb_prop in H. destruct H as [Ha Hb].
  change (get_concat (App OP_SEQ_CONCAT ps [a; b]))
    with (get_concat a ++ get_concat b).
  apply Forall_app. split; auto.
Qed.

Lemma remove_empty_and_concats_spec (es : list expr) :
  Forall (fun e => weq_operand e = true) es ->
  Forall wf_operand (remove_empty_and_concats es)
  /\ forall I, seq_val I (remove_empty_and_concats es) = seq_val I es.
Proof.
  intros H. unfold remove_empty_and_concats.
  assert (F : Forall wf_operand (filter (fun e => negb (str.is_empty e)) es)
              /\ forall I, seq_val I (filter (fun e => negb (str.is_empty e)) es)
                           = seq_val I es).
  { induction H as [ | e es He _ IH]; [split; [constructor | reflexivity] | ].
    destruct IH as [IH1 IH2]. cbn [filter].
    destruct (str.is_empty e) eqn:E; cbn [negb].
    - split; [exact IH1 | ]. intros I.
      rewrite seq_val_cons, (is_empty_eval I e E), IH2. reflexivity.
    - split; [constructor; [split; assumption | exact IH1] | ].
      intros I. rewrite !seq_val_cons, IH2. reflexivity. }
  destruct F as [F1 F2].
  destruct (existsb is_concat_b es); [ | split; assumption].
  split.
  - clear F2. induction F1 as [ | e l [He _] _ IH]; simpl; [constructor | ].
    apply Forall_app. split; [apply get_concat_wf; exact He | exact IH].
  - intros I. rewrite <- F2. clear.
    induction (filter (fun e => negb (str.is_empty e)) es) as [ | e l IH];
      [reflexivity | ].
    cbn [flat_map]. rewrite seq_val_app, get_concat_val, seq_val_cons, IH.
    reflexivity.
Qed.

Lemma eqs_hold_app (I : interp) (xs ys : list (expr * expr)) :
  eqs_hold I (xs ++ ys) <-> eqs_hold I xs /\ eqs_hold I ys.
Proof. unfold eqs_hold. apply Forall_app. Qed.

Lemma eqs_hold_one (I : interp) (a b : expr) :
  eqs_hold I [(a, b)] <-> eval I a = eval I b.
Proof.
  unfold eqs_hold. split.
  - intros H. inversion H; subst. assumption.
  - intros H. constructor; [exact H | constructor].
Qed.

Lemma eqs_hold_nil (I : interp) : eqs_hold I [].
Proof. constructor. Qed.

Section refinement.
Variable den : interp -> list expr -> list value.

Lemma weq_refines_refl (ls rs : list expr) (eqs : list (expr * expr)) :
  Forall wf_operand ls -> Forall wf_operand rs ->
  weq_refines den ls rs eqs (Reduced (ls, rs, eqs)).
Proof.
  intros Hl Hr. simpl. repeat split; try assumption.
  exists []. split; [symmetry; apply app_nil_r | ].
  intros I. split; [intros [_ H]; exact H | intros H; split; [constructor | exact H]].
Qed.

Lemma weq_refines_sym (ls rs : list expr) (eqs : list (expr * expr))
  (res : weq_result) :
  weq_refines den rs ls eqs res -> weq_refines den ls rs eqs res.
Proof.
  destruct res as [[[ls' rs'] eqs'] | | ]; simpl.
  - intros (Hl & Hr & new & -> & H). repeat split; try assumption.
    exists new. split; [reflexivity | ]. intros I. rewrite (H I).
    split; intros E; symmetry; exact E.
  - intros H I E. apply (H I). symmetry. exact E.
  - trivial.
Qed.

Lemma weq_refines_flip (ls rs ls' rs' : list expr) (eqs eqs' : list (expr * expr)) :
  weq_refines den ls rs eqs (Reduced (ls', rs', eqs')) ->
  weq_refines den ls rs eqs (Reduced (rs', ls', eqs')).
Proof.
  simpl. intros (Hl & Hr & new & -> & H). repeat split; try assumption.
  exists new. split; [reflexivity | ]. intros I. rewrite <- (H I).
  split; intros [E1 E2]; (split; [exact E1 | symmetry; exact E2]).
Qed.

Lemma weq_refines_trans (ls rs ls1 rs1 : list expr)
  (eqs eqs1 : list (expr * expr)) (res : weq_result) :
  weq_refines den ls rs eqs (Reduced (ls1, rs1, eqs1)) ->
  weq_refines den ls1 rs1 eqs1 res ->
  weq_refines den ls rs eqs res.
Proof.
  simpl. intros (Hl & Hr & new1 & -> & H1) Hf.
  destruct res as [[[ls2 rs2] eqs2] | | ]; simpl in *.
  - destruct Hf as (Hl2 & Hr2 & new2 & -> & H2). repeat split; try assumption.
    exists (new1 ++ new2). split; [symmetry; apply app_assoc | ].
    intros I. rewrite eqs_hold_app, <- (H1 I), <- (H2 I). tauto.
  - intros I E. apply (H1 I) in E. destruct E as [_ E]. exact (Hf I E).
  - exact Hf.
Qed.

Lemma weq_refines_and_then (ls rs : list expr) (eqs : list (expr * expr))
  (res : weq_result) (f : weq_state -> weq_result) :
  weq_refines den ls rs eqs res ->
  (forall ls' rs' eqs', Forall wf_operand ls' -> Forall wf_operand rs' ->
     weq_refines den ls' rs' eqs' (f (ls', rs', eqs'))) ->
  weq_refines den ls rs eqs (and_then res f).
Proof.
  destruct res as [[[ls1 rs1] eqs1] | | ]; [ | trivial | trivial].
  intros H Hf. simpl and_then. eapply weq_refines_trans; [exact H | ].
  destruct H as (Hl & Hr & _). apply Hf; assumption.
Qed.

Lemma weq_progress_sym (ls rs : list expr) (eqs : list (expr * expr))
  (x : weq_state + weq_result) :
  weq_progress den rs ls eqs x -> weq_progress den ls rs eqs x.
Proof.
  destruct x as [[[ls' rs'] eqs'] | res]; unfold weq_progress.
  - intros [W H]. split; [lia | apply weq_refines_sym; exact H].
  - apply weq_refines_sym.
Qed.

End refinement.

Lemma weight_cons (e : expr) (es : list expr) :
  weight (e :: es)
  = match str.is_string e with
    | Some s => S (length s) + weight es
    | None => S (weight es)
    end.
Proof. reflexivity. Qed.

Lemma weight_lt_cons (e : expr) (es : list expr) : weight es < weight (e :: es).
Proof. rewrite weight_cons. destruct (str.is_string e); lia. Qed.

Lemma weight_app (xs ys : list expr) : weight (xs ++ ys) = weight xs + weight ys.
Proof.
  induction xs as [ | x xs IH]; [reflexivity | ].
  change ((x :: xs) ++ ys) with (x :: (xs ++ ys)).
  rewrite !weight_cons, IH. destruct (str.is_string x); lia.
Qed.

Lemma weight_rev (es : list expr) : weight (rev es) = weight es.
Proof.
  induction es as [ | e es IH]; [reflexivity | ].
  simpl rev. rewrite weight_app, IH, !weight_cons.
  change (weight []) with 0. destruct (str.is_string e); lia.
Qed.

Lemma is_unit_not_string (e a : expr) :
  str.is_unit e = Some a -> str.is_string e = None.
Proof.
  destruct e as [k ps args]. destruct k; try discriminate. reflexivity.
Qed.

Lemma rev_val_cons (I : interp) (e : expr) (es : list expr) :
  rev_val I (e :: es) = rev_val I es ++ as_seq (eval I e).
Proof.
  unfold rev_val. simpl rev. rewrite seq_val_app.
  unfold seq_val at 2. simpl. rewrite app_nil_r. reflexivity.
Qed.

Lemma rev_val_rev (I : interp) (es : list expr) : rev_val I (rev es) = seq_val I es.
Proof. unfold rev_val. rewrite rev_involutive. reflexivity. Qed.

Lemma map_VChar_inj (s t : zstring) : map VChar s = map VChar t -> s = t.
Proof.
  revert t. induction s as [ | c s IH]; intros [ | d t] H; try discriminate;
    [reflexivity | ].
  simpl in H. inversion H; subst. f_equal. apply IH. assumption.
Qed.

(** *** Comparing literals position by position *)

Lemma app_inv_length (A : Type) (a b x y : list A) :
  length a = length b -> a ++ x = b ++ y -> a = b /\ x = y.
Proof.
  revert b. induction a as [ | u a IH]; intros [ | v b] L H; try discriminate L.
  - split; [reflexivity | exact H].
  - simpl in H. inversion H; subst. simpl in L.
    destruct (IH b) as [-> ->]; [lia | assumption | split; reflexivity].
Qed.

Lemma app_inv_length_tail (A : Type) (a b x y : list A) :
  length a = length b -> x ++ a = y ++ b -> x = y /\ a = b.
Proof.
  intros L H. apply (f_equal (@rev A)) in H. rewrite !rev_app_distr in H.
  apply app_inv_length in H; [ | rewrite !length_rev; exact L].
  destruct H as [Ha Hx]. split.
  - rewrite <- (rev_involutive x), Hx. apply rev_involutive.
  - rewrite <- (rev_involutive a), Ha. apply rev_involutive.
Qed.

Lemma firstn_pointwise (m : nat) (s1 s2 : list nat) :
  m <= length s1 -> m <= length s2 ->
  (forall i, i < m -> nth i s1 0 = nth i s2 0) <-> firstn m s1 = firstn m s2.
Proof.
  revert s1 s2. induction m as [ | m IH]; intros s1 s2 L1 L2.
  - split; [reflexivity | intros _ i Hi; lia].
  - destruct s1 as [ | c s1]; [simpl in L1; lia | ].
    destruct s2 as [ | d s2]; [simpl in L2; lia | ].
    simpl in L1, L2. simpl firstn. split.
    + intros H. f_equal; [apply (H 0); lia | ].
      apply IH; try lia. intros i Hi. apply (H (S i)). lia.
    + intros H. inversion H as [[Hc Ht]]. intros [ | i] Hi; [reflexivity | ].
      simpl. apply (proj2 (IH s1 s2 ltac:(lia) ltac:(lia)) Ht). lia.
Qed.

Lemma prefix_check (m : nat) (s1 s2 : list nat) :
  m <= length s1 -> m <= length s2 ->
  forallb (fun i => nth i s1 0 =? nth i s2 0) (seq 0 m) = true
  <-> firstn m s1 = firstn m s2.
Proof.
  intros L1 L2. rewrite <- (@firstn_pointwise m s1 s2 L1 L2), forallb_forall. split.
  - intros H i Hi. apply Nat.eqb_eq. apply H. apply in_seq. lia.
  - intros H i Hi. apply in_seq in Hi. apply Nat.eqb_eq. apply H. lia.
Qed.

Lemma suffix_check (m : nat) (s1 s2 : list nat) :
  m <= length s1 -> m <= length s2 ->
  forallb (fun i => nth (length s1 - i - 1) s1 0 =? nth (length s2 - i - 1) s2 0)
    (seq 0 m) = true
  <-> skipn (length s1 - m) s1 = skipn (length s2 - m) s2.
Proof.
  intros L1 L2.
  assert (R : forall s : list nat, m <= length s ->
            skipn (length s - m) s = rev (firstn m (rev s))).
  { intros s L. rewrite firstn_rev, rev_involutive. reflexivity. }
  rewrite (R s1 L1), (R s2 L2).
  assert (P : firstn m (rev s1) = firstn m (rev s2)
              <-> rev (firstn m (rev s1)) = rev (firstn m (rev s2))).
  { split; [intros ->; reflexivity | ].
    intros H. apply (f_equal (@rev nat)) in H.
    rewrite !rev_involutive in H. exact H. }
  rewrite <- P, <- firstn_pointwise by (rewrite length_rev; assumption).
  rewrite forallb_forall. split.
  - intros H i Hi. rewrite !rev_nth by lia.
    replace (length s1 - S i) with (length s1 - i - 1) by lia.
    replace (length s2 - S i) with (length s2 - i - 1) by lia.
    apply Nat.eqb_eq. apply H. apply in_seq. lia.
  - intros H i Hi. apply in_seq in Hi. apply Nat.eqb_eq.
    specialize (H i ltac:(lia)). rewrite !rev_nth in H by lia.
    replace (length s1 - S i) with (length s1 - i - 1) in H by lia.
    replace (length s2 - S i) with (length s2 - i - 1) in H by lia.
    exact H.
Qed.

Lemma strings_front (m : nat) (s1 s2 : zstring) (X Y : list value) :
  m <= length s1 -> m <= length s2 ->
  map VChar s1 ++ X = map VChar s2 ++ Y
  <-> firstn m s1 = firstn m s2
      /\ map VChar (skipn m s1) ++ X = map VChar (skipn m s2) ++ Y.
Proof.
  intros L1 L2.
  rewrite <- (firstn_skipn m s1) at 1. rewrite <- (firstn_skipn m s2) at 1.
  rewrite !map_app, <- !app_assoc. split.
  - intros H. apply app_inv_length in H.
    + destruct H as [H1 H2]. split; [apply map_VChar_inj; exact H1 | exact H2].
    + rewrite !length_map, !length_firstn. lia.
  - intros [-> ->]. reflexivity.
Qed.

Lemma strings_back (m : nat) (s1 s2 : zstring) (X Y : list value) :
  m <= length s1 -> m <= length s2 ->
  X ++ map VChar s1 = Y ++ map VChar s2
  <-> skipn (length s1 - m) s1 = skipn (length s2 - m) s2
      /\ X ++ map VChar (firstn (length s1 - m) s1)
         = Y ++ map VChar (firstn (length s2 - m) s2).
Proof.
  intros L1 L2.
  rewrite <- (firstn_skipn (length s1 - m) s1) at 1.
  rewrite <- (firstn_skipn (length s2 - m) s2) at 1.
  rewrite !map_app, !app_assoc. split.
  - intros H. apply app_inv_length_tail in H.
    + destruct H as [H1 H2]. split; [apply map_VChar_inj; exact H2 | exact H1].
    + rewrite !length_map, !length_skipn. lia.
  - intros [-> ->]. reflexivity.
Qed.

Lemma zextract_skip (s : zstring) (m : nat) :
  zextract s m (length s - m) = skipn m s.
Proof.
  unfold zextract. apply firstn_all2. rewrite length_skipn. lia.
Qed.

Lemma zextract_first (s : zstring) (n : nat) : zextract s 0 n = firstn n s.
Proof. reflexivity. Qed.

(** *** The stripping loops *)

Lemma seq_val_unit (I : interp) (e a : expr) (es : list expr) :
  str.is_unit e = Some a -> seq_val I (e :: es) = eval I a :: seq_val I es.
Proof. intros H. rewrite seq_val_cons, (is_unit_eval I e H). reflexivity. Qed.

Lemma seq_val_literal (I : interp) (e : expr) (s : zstring) (es : list expr) :
  str.is_string e = Some s -> seq_val I (e :: es) = map VChar s ++ seq_val I es.
Proof. intros H. rewrite seq_val_cons, (is_string_eval I e H). reflexivity. Qed.

Lemma rev_val_unit (I : interp) (e a : expr) (es : list expr) :
  str.is_unit e = Some a -> rev_val I (e :: es) = rev_val I es ++ [eval I a].
Proof. intros H. rewrite rev_val_cons, (is_unit_eval I e H). reflexivity. Qed.

Lemma rev_val_literal (I : interp) (e : expr) (s : zstring) (es : list expr) :
  str.is_string e = Some s -> rev_val I (e :: es) = rev_val I es ++ map VChar s.
Proof. intros H. rewrite rev_val_cons, (is_string_eval I e H). reflexivity. Qed.

Lemma literal_length (e : expr) (s : zstring) :
  wf_operand e -> str.is_string e = Some s -> 1 <= length s.
Proof.
  intros [_ He] Hs. pose proof (is_string_not_empty e Hs He) as N.
  destruct s; [contradiction | simpl; lia].
Qed.

(** What is left of a literal once its first [m] characters are gone. *)
Lemma front_rest (m : nat) (s : zstring) (es : list expr) :
  m <= length s -> Forall wf_operand es ->
  let es' := if m =? length s then es
             else str.mk_string (zextract s m (length s - m)) :: es in
  Forall wf_operand es'
  /\ (forall I, seq_val I es' = map VChar (skipn m s) ++ seq_val I es)
  /\ weight es' + m <= S (length s) + weight es.
Proof.
  intros L Hes. cbv zeta. rewrite zextract_skip.
  destruct (m =? length s) eqn:E.
  - apply Nat.eqb_eq in E. subst m. rewrite skipn_all.
    repeat split; [assumption | lia].
  - apply Nat.eqb_neq in E.
    assert (N : skipn m s <> []).
    { intros H. apply (f_equal (@length nat)) in H.
      rewrite length_skipn in H. simpl in H. lia. }
    repeat split.
    + constructor; [apply wf_string; exact N | assumption].
    + change (weight (str.mk_string (skipn m s) :: es))
        with (S (length (skipn m s)) + weight es).
      rewrite length_skipn. lia.
Qed.

(** What is left of a literal once its last [m] characters are gone. *)
Lemma back_rest (m : nat) (s : zstring) (es : list expr) :
  m <= length s -> Forall wf_operand es ->
  let es' := if m <? length s
             then str.mk_string (zextract s 0 (length s - m)) :: es
             else es in
  Forall wf_operand es'
  /\ (forall I, rev_val I es'
                = rev_val I es ++ map VChar (firstn (length s - m) s))
  /\ weight es' + m <= S (length s) + weight es.
Proof.
  intros L Hes. cbv zeta. rewrite zextract_first.
  destruct (m <? length s) eqn:E.
  - apply Nat.ltb_lt in E.
    assert (N : firstn (length s - m) s <> []).
    { intros H. apply (f_equal (@length nat)) in H.
      rewrite length_firstn in H. simpl in H. lia. }
    split; [ | split].
    + constructor; [apply wf_string; exact N | assumption].
    + intros I. apply rev_val_literal. reflexivity.
    + change (weight (str.mk_string (firstn (length s - m) s) :: es))
        with (S (length (firstn (length s - m) s)) + weight es).
      rewrite length_firstn. lia.
  - apply Nat.ltb_ge in E. replace (length s - m) with 0 by lia.
    split; [assumption | split; [ | lia]].
    intros I. simpl. symmetry. apply app_nil_r.
Qed.

Section stripping.
Context {ext : externals}.
Hypothesis are_distinct_sound :
  forall a b, are_distinct a b = true -> forall I, eval I a <> eval I b.

Lemma reduce_front_round_ok (l : expr) (ls : list expr) (r : expr)
  (rs : list expr) (eqs : list (expr * expr)) :
  wf_operand l -> Forall wf_operand ls -> wf_operand r -> Forall wf_operand rs ->
  weq_progress seq_val (l :: ls) (r :: rs) eqs (reduce_front_round l ls r rs eqs).
Proof.
  intros Hl Hls Hr Hrs.
  assert (Default : weq_progress seq_val (l :: ls) (r :: rs) eqs
                      (inr (Reduced (l :: ls, r :: rs, eqs))))
    by (apply weq_refines_refl; constructor; assumption).
  assert (Strings : forall s1 s2,
             str.is_string l = Some s1 -> str.is_string r = Some s2 ->
             weq_progress seq_val (l :: ls) (r :: rs) eqs
               (let min_l := Nat.min (length s1) (length s2) in
                if forallb (fun i => nth i s1 0 =? nth i s2 0) (seq 0 min_l)
                then
                  let ls' :=
                    if min_l =? length s1 then ls
                    else str.mk_string
                           (zextract s1 min_l (length s1 - min_l)) :: ls in
                  let rs' :=
                    if min_l =? length s2 then rs
                    else str.mk_string
                           (zextract s2 min_l (length s2 - min_l)) :: rs in
                  inl (ls', rs', eqs)
                else inr Refuted)).
  { intros s1 s2 S1 S2. cbv zeta.
    pose proof (@literal_length l s1 Hl S1) as N1.
    pose proof (@literal_length r s2 Hr S2) as N2.
    set (m := Nat.min (length s1) (length s2)).
    assert (L1 : m <= length s1) by (subst m; lia).
    assert (L2 : m <= length s2) by (subst m; lia).
    assert (Lm : 1 <= m) by (subst m; lia).
    destruct (forallb _ (seq 0 m)) eqn:C.
    - apply prefix_check in C; try assumption.
      destruct (@front_rest m s1 ls L1 Hls) as (W1 & V1 & G1).
      destruct (@front_rest m s2 rs L2 Hrs) as (W2 & V2 & G2).
      cbv zeta in *. split.
      + rewrite (weight_cons l), (weight_cons r), S1, S2. lia.
      + split; [exact W1 | ]. split; [exact W2 | ].
        exists []. split; [symmetry; apply app_nil_r | ].
        intros I. rewrite V1, V2.
        rewrite (@seq_val_literal I l s1 ls S1), (@seq_val_literal I r s2 rs S2).
        rewrite (@strings_front m s1 s2 _ _ L1 L2).
        split; [intros [_ H]; split; assumption
               | intros [_ H]; split; [constructor | exact H]].
    - intros I E.
      rewrite (@seq_val_literal I l s1 ls S1), (@seq_val_literal I r s2 rs S2) in E.
      apply (@strings_front m s1 s2 _ _ L1 L2) in E. destruct E as [E _].
      apply prefix_check in E; try assumption. congruence. }
  unfold reduce_front_round.
  destruct (expr_eqb l r) eqn:E.
  { apply expr_eqb_eq in E. subst r. split.
    - pose proof (weight_lt_cons l ls). pose proof (weight_lt_cons l rs). lia.
    - split; [assumption | ]. split; [assumption | ].
      exists []. split; [symmetry; apply app_nil_r | ].
      intros I. rewrite !seq_val_cons. split.
      + intros [_ H]. rewrite H. reflexivity.
      + intros H. apply app_inv_head in H. split; [constructor | exact H]. }
  destruct (str.is_unit l) as [a | ] eqn:Ul.
  - destruct (str.is_unit r) as [b | ] eqn:Ur.
    + destruct (are_distinct a b) eqn:D.
      * intros I H. rewrite (@seq_val_unit I l a ls Ul), (@seq_val_unit I r b rs Ur) in H.
        injection H as Hab _. exact (are_distinct_sound a b D I Hab).
      * split.
        -- pose proof (weight_lt_cons l ls). pose proof (weight_lt_cons r rs). lia.
        -- split; [assumption | ]. split; [assumption | ].
           exists [(a, b)]. split; [reflexivity | ].
           intros I. rewrite eqs_hold_one.
           rewrite (@seq_val_unit I l a ls Ul), (@seq_val_unit I r b rs Ur). split.
           ++ intros [-> ->]. reflexivity.
           ++ intros H. injection H as H1 H2. split; assumption.
    + destruct (str.is_string r) as [s | ] eqn:Sr.
      * pose proof (@literal_length r s Hr Sr) as N.
        destruct s as [ | ch s']; [simpl in N; lia | ].
        assert (Eq : forall I Y,
                   eval I (mk_char ch) = eval I a /\ seq_val I ls = Y
                   <-> seq_val I (l :: ls) = VChar ch :: Y).
        { intros I Y. rewrite (@seq_val_unit I l a ls Ul).
          change (eval I (mk_char ch)) with (VChar ch). split.
          - intros [<- ->]. reflexivity.
          - intros H. injection H as H1 H2. split; [symmetry | ]; assumption. }
        destruct s' as [ | c2 s''].
        -- split.
           ++ pose proof (weight_lt_cons l ls). pose proof (weight_lt_cons r rs). lia.
           ++ split; [assumption | ]. split; [assumption | ].
              exists [(mk_char ch, a)]. split; [reflexivity | ].
              intros I. rewrite eqs_hold_one, (@seq_val_literal I r _ rs Sr).
              apply Eq.
        -- change (length (ch :: c2 :: s'') =? 1) with false. cbv iota zeta.
           rewrite zextract_skip. change (skipn 1 (ch :: c2 :: s'')) with (c2 :: s'').
           split.
           ++ rewrite (weight_cons r), Sr.
              change (weight (str.mk_string (c2 :: s'') :: rs))
                with (S (length (c2 :: s'')) + weight rs).
              pose proof (weight_lt_cons l ls). simpl length. lia.
           ++ split; [assumption | ].
              split; [constructor; [apply wf_string; discriminate | assumption] | ].
              exists [(mk_char ch, a)]. split; [reflexivity | ].
              intros I. rewrite eqs_hold_one, (@seq_val_literal I r _ rs Sr).
              rewrite seq_val_string. apply Eq.
      * destruct (str.is_string l); exact Default.
  - destruct (str.is_unit r) as [b | ] eqn:Ur;
      (destruct (str.is_string l) as [s1 | ] eqn:Sl;
       [ destruct (str.is_string r) as [s2 | ] eqn:Sr;
         [ exact (Strings s1 s2 eq_refl eq_refl) | exact Default ]
       | exact Default ]).
Qed.

Lemma rev_cons_split (s : zstring) (ch : nat) (t : zstring) :
  rev s = ch :: t ->
  s = rev t ++ [ch] /\ length s = S (length t)
  /\ firstn (length s - 1) s = rev t.
Proof.
  intros H. assert (E : s = rev t ++ [ch]).
  { rewrite <- (rev_involutive s), H. reflexivity. }
  subst s. rewrite length_app, length_rev. simpl length.
  split; [reflexivity | ]. split; [lia | ].
  replace (length t + 1 - 1) with (length (rev t) + 0)
    by (rewrite length_rev; lia).
  rewrite firstn_app_2. simpl. apply app_nil_r.
Qed.

Lemma reduce_back_round_ok (l : expr) (ls : list expr) (r : expr)
  (rs : list expr) (eqs : list (expr * expr)) :
  wf_operand l -> Forall wf_operand ls -> wf_operand r -> Forall wf_operand rs ->
  weq_progress rev_val (l :: ls) (r :: rs) eqs (reduce_back_round l ls r rs eqs).
Proof.
  intros Hl Hls Hr Hrs.
  assert (Default : weq_progress rev_val (l :: ls) (r :: rs) eqs
                      (inr (Reduced (l :: ls, r :: rs, eqs))))
    by (apply weq_refines_refl; constructor; assumption).
  assert (Strings : forall s1 s2,
             str.is_string l = Some s1 -> str.is_string r = Some s2 ->
             weq_progress rev_val (l :: ls) (r :: rs) eqs
               (let min_l := Nat.min (length s1) (length s2) in
                if forallb
                     (fun i =>
                        nth (length s1 - i - 1) s1 0
                        =? nth (length s2 - i - 1) s2 0)
                     (seq 0 min_l)
                then
                  let ls' :=
                    if min_l <? length s1
                    then str.mk_string (zextract s1 0 (length s1 - min_l)) :: ls
                    else ls in
                  let rs' :=
                    if min_l <? length s2
                    then str.mk_string (zextract s2 0 (length s2 - min_l)) :: rs
                    else rs in
                  inl (ls', rs', eqs)
                else inr Refuted)).
  { intros s1 s2 S1 S2. cbv zeta.
    pose proof (@literal_length l s1 Hl S1) as N1.
    pose proof (@literal_length r s2 Hr S2) as N2.
    set (m := Nat.min (length s1) (length s2)).
    assert (L1 : m <= length s1) by (subst m; lia).
    assert (L2 : m <= length s2) by (subst m; lia).
    assert (Lm : 1 <= m) by (subst m; lia).
    destruct (forallb _ (seq 0 m)) eqn:C.
    - apply suffix_check in C; try assumption.
      destruct (@back_rest m s1 ls L1 Hls) as (W1 & V1 & G1).
      destruct (@back_rest m s2 rs L2 Hrs) as (W2 & V2 & G2).
      cbv zeta in *. split.
      + rewrite (weight_cons l), (weight_cons r), S1, S2. lia.
      + split; [exact W1 | ]. split; [exact W2 | ].
        exists []. split; [symmetry; apply app_nil_r | ].
        intros I. rewrite V1, V2.
        rewrite (@rev_val_literal I l s1 ls S1), (@rev_val_literal I r s2 rs S2).
        rewrite (@strings_back m s1 s2 _ _ L1 L2).
        split; [intros [_ H]; split; assumption
               | intros [_ H]; split; [constructor | exact H]].
    - intros I E.
      rewrite (@rev_val_literal I l s1 ls S1), (@rev_val_literal I r s2 rs S2) in E.
      apply (@strings_back m s1 s2 _ _ L1 L2) in E. destruct E as [E _].
      apply suffix_check in E; try assumption. congruence. }
  unfold reduce_back_round.
  destruct (expr_eqb l r) eqn:E.
  { apply expr_eqb_eq in E. subst r. split.
    - pose proof (weight_lt_cons l ls). pose proof (weight_lt_cons l rs). lia.
    - split; [assumption | ]. split; [assumption | ].
      exists []. split; [symmetry; apply app_nil_r | ].
      intros I. rewrite !rev_val_cons. split.
      + intros [_ H]. rewrite H. reflexivity.
      + intros H. apply app_inv_tail in H. split; [constructor | exact H]. }
  destruct (str.is_unit l) as [a | ] eqn:Ul.
  - destruct (str.is_unit r) as [b | ] eqn:Ur.
    + destruct (are_distinct a b) eqn:D.
      * intros I H.
        rewrite (@rev_val_unit I l a ls Ul), (@rev_val_unit I r b rs Ur) in H.
        apply app_inj_tail in H. destruct H as [_ Hab].
        exact (are_distinct_sound a b D I Hab).
      * split.
        -- pose proof (weight_lt_cons l ls). pose proof (weight_lt_cons r rs). lia.
        -- split; [assumption | ]. split; [assumption | ].
           exists [(a, b)]. split; [reflexivity | ].
           intros I. rewrite eqs_hold_one.
           rewrite (@rev_val_unit I l a ls Ul), (@rev_val_unit I r b rs Ur). split.
           ++ intros [-> ->]. reflexivity.
           ++ intros H. apply app_inj_tail in H. destruct H. split; assumption.
    + destruct (str.is_string r) as [s | ] eqn:Sr.
      * pose proof (@literal_length r s Hr Sr) as N.
        destruct (rev s) as [ | ch t] eqn:R.
        { apply (f_equal (@length nat)) in R. rewrite length_rev in R.
          simpl in R. lia. }
        destruct (rev_cons_split s R) as (Es & Ls & Fs).
        assert (Eq : forall I Y,
                   eval I (mk_char ch) = eval I a /\ rev_val I ls = Y
                   <-> rev_val I (l :: ls) = Y ++ [VChar ch]).
        { intros I Y. rewrite (@rev_val_unit I l a ls Ul).
          change (eval I (mk_char ch)) with (VChar ch). split.
          - intros [<- ->]. reflexivity.
          - intros H. apply app_inj_tail in H. destruct H as [H1 H2].
            split; [symmetry | ]; assumption. }
        assert (Vr : forall I, rev_val I (r :: rs)
                               = (rev_val I rs ++ map VChar (rev t)) ++ [VChar ch]).
        { intros I. rewrite (@rev_val_literal I r s rs Sr), Es, map_app.
          apply app_assoc. }
        destruct (length s =? 1) eqn:L1.
        -- apply Nat.eqb_eq in L1.
           assert (t = []) by (destruct t; [reflexivity | simpl in Ls; lia]).
           subst t. split.
           ++ pose proof (weight_lt_cons l ls). pose proof (weight_lt_cons r rs). lia.
           ++ split; [assumption | ]. split; [assumption | ].
              exists [(mk_char ch, a)]. split; [reflexivity | ].
              intros I. rewrite eqs_hold_one, Vr. simpl rev. simpl map.
              rewrite app_nil_r. apply Eq.
        -- apply Nat.eqb_neq in L1. cbv zeta. rewrite zextract_first, Fs.
           assert (Nt : rev t <> []).
           { intros H. apply (f_equal (@length nat)) in H.
             rewrite length_rev in H. simpl in H. lia. }
           split.
           ++ rewrite (weight_cons r), Sr.
              change (weight (str.mk_string (rev t) :: rs))
                with (S (length (rev t)) + weight rs).
              pose proof (weight_lt_cons l ls). rewrite length_rev. lia.
           ++ split; [assumption | ].
              split; [constructor; [apply wf_string; exact Nt | assumption] | ].
              exists [(mk_char ch, a)]. split; [reflexivity | ].
              intros I. rewrite eqs_hold_one, Vr.
              rewrite (@rev_val_literal I (str.mk_string (rev t)) (rev t) rs eq_refl).
              apply Eq.
      * destruct (str.is_string l); exact Default.
  - destruct (str.is_unit r) as [b | ] eqn:Ur;
      (destruct (str.is_string l) as [s1 | ] eqn:Sl;
       [ destruct (str.is_string r) as [s2 | ] eqn:Sr;
         [ exact (Strings s1 s2 eq_refl eq_refl) | exact Default ]
       | exact Default ]).
Qed.

Lemma reduce_front_step_ok (ls rs : list expr) (eqs : list (expr * expr)) :
  Forall wf_operand ls -> Forall wf_operand rs ->
  weq_progress seq_val ls rs eqs (reduce_front_step ls rs eqs).
Proof.
  intros Hl Hr. unfold reduce_front_step.
  destruct ls as [ | l ls]; [apply weq_refines_refl; assumption | ].
  destruct rs as [ | r rs]; [apply weq_refines_refl; assumption | ].
  inversion Hl; subst. inversion Hr; subst.
  destruct (is_unit_b r && is_string_b l).
  - apply weq_progress_sym. apply reduce_front_round_ok; assumption.
  - apply reduce_front_round_ok; assumption.
Qed.

Lemma reduce_back_step_ok (ls rs : list expr) (eqs : list (expr * expr)) :
  Forall wf_operand ls -> Forall wf_operand rs ->
  weq_progress rev_val ls rs eqs (reduce_back_step ls rs eqs).
Proof.
  intros Hl Hr. unfold reduce_back_step.
  destruct ls as [ | l ls]; [apply weq_refines_refl; assumption | ].
  destruct rs as [ | r rs]; [apply weq_refines_refl; assumption | ].
  inversion Hl; subst. inversion Hr; subst.
  destruct (is_unit_b r && is_string_b l).
  - apply weq_progress_sym. apply reduce_back_round_ok; assumption.
  - apply reduce_back_round_ok; assumption.
Qed.

Lemma reduce_front_loop_ok (fuel : nat) :
  forall (ls rs : list expr) (eqs : list (expr * expr)),
    Forall wf_operand ls -> Forall wf_operand rs ->
    weight ls + weight rs <= fuel ->
    weq_refines seq_val ls rs eqs (reduce_front_loop fuel ls rs eqs).
Proof.
  induction fuel as [ | fuel IH]; intros ls rs eqs Hl Hr W;
    pose proof (reduce_front_step_ok eqs Hl Hr) as S;
    simpl; destruct (reduce_front_step ls rs eqs) as [[[ls' rs'] eqs'] | res];
    try exact S; destruct S as [W' S].
  - lia.
  - eapply weq_refines_trans; [exact S | ].
    destruct S as (Hl' & Hr' & _). apply IH; [assumption | assumption | lia].
Qed.

Lemma reduce_back_loop_ok (fuel : nat) :
  forall (ls rs : list expr) (eqs : list (expr * expr)),
    Forall wf_operand ls -> Forall wf_operand rs ->
    weight ls + weight rs <= fuel ->
    weq_refines rev_val ls rs eqs (reduce_back_loop fuel ls rs eqs).
Proof.
  induction fuel as [ | fuel IH]; intros ls rs eqs Hl Hr W;
    pose proof (reduce_back_step_ok eqs Hl Hr) as S;
    simpl; destruct (reduce_back_step ls rs eqs) as [[[ls' rs'] eqs'] | res];
    try exact S; destruct S as [W' S].
  - lia.
  - eapply weq_refines_trans; [exact S | ].
    destruct S as (Hl' & Hr' & _). apply IH; [assumption | assumption | lia].
Qed.

Lemma reduce_front_ok (ls rs : list expr) (eqs : list (expr * expr)) :
  Forall wf_operand ls -> Forall wf_operand rs ->
  weq_refines seq_val ls rs eqs (reduce_front ls rs eqs).
Proof.
  intros Hl Hr. unfold reduce_front.
  apply reduce_front_loop_ok; [assumption | assumption | lia].
Qed.

Lemma reduce_back_ok (ls rs : list expr) (eqs : list (expr * expr)) :
  Forall wf_operand ls -> Forall wf_operand rs ->
  weq_refines seq_val ls rs eqs (reduce_back ls rs eqs).
Proof.
  intros Hl Hr. unfold reduce_back.
  assert (H : weq_refines rev_val (rev ls) (rev rs) eqs
                (reduce_back_loop (weight ls + weight rs) (rev ls) (rev rs) eqs)).
  { apply reduce_back_loop_ok; try (apply Forall_rev; assumption).
    rewrite !weight_rev. lia. }
  destruct (reduce_back_loop _ _ _ _) as [[[ls' rs'] eqs'] | | ]; simpl in *.
  - destruct H as (Hl' & Hr' & new & -> & H).
    split; [apply Forall_rev; exact Hl' | ].
    split; [apply Forall_rev; exact Hr' | ].
    exists new. split; [reflexivity | ].
    intros I. specialize (H I). rewrite !rev_val_rev in H. exact H.
  - intros I. specialize (H I). rewrite !rev_val_rev in H. exact H.
  - exact H.
Qed.

End stripping.

(** *** Numerals *)

Lemma is_int_term_eval (I : interp) (e : expr) :
  is_int_term e = true -> exists z, eval I e = VInt z.
Proof.
  destruct e as [k ps args].
  assert (D : forall v, exists z, coerce Int_sort v = VInt z)
    by (intros [ | | | | ]; simpl; eauto).
  unfold is_int_term. intros Hs.
  destruct k; try discriminate Hs;
    destruct (get_sort (App _ ps args)) eqn:Hg; try discriminate Hs; clear Hs;
    destruct args as [ | r1 [ | r2 [ | r3 [ | r4 args]]]];
    try discriminate Hg;
    try (cbn; eauto; fail);
    try (cbn; cbn in Hg; rewrite Hg; apply D).
  all: destruct ps as [ | [ | | | | ] [ | ? ?]];
    solve [cbn; eauto | cbn in Hg; inversion Hg; cbn; apply D
          | cbn; cbn in Hg; rewrite Hg; apply D ].
Qed.

Lemma decimal_aux_S (fuel n : nat) (acc : list nat) :
  decimal_aux (S fuel) n acc
  = if n <? 10 then (48 + n mod 10) :: acc
    else decimal_aux fuel (n / 10) ((48 + n mod 10) :: acc).
Proof. reflexivity. Qed.

Lemma decimal_aux_spec (fuel : nat) :
  forall (n : nat) (acc : list nat), n < fuel ->
    exists ds, decimal_aux fuel n acc = ds ++ acc /\ ds <> []
               /\ forall a0, fold_left (fun a c => 10 * a + (c - 48)) ds a0
                             = a0 * 10 ^ length ds + n.
Proof.
  induction fuel as [ | fuel IH]; intros n acc Hn; [lia | ].
  rewrite decimal_aux_S. destruct (n <? 10) eqn:E.
  - apply Nat.ltb_lt in E. exists [48 + n mod 10].
    split; [reflexivity | ]. split; [discriminate | ].
    intros a0. cbn [fold_left length]. rewrite (Nat.mod_small n 10 E).
    rewrite Nat.pow_1_r. lia.
  - apply Nat.ltb_ge in E.
    assert (Hd : n / 10 < fuel).
    { assert (n / 10 < n) by (apply Nat.div_lt; lia). lia. }
    destruct (IH (n / 10) ((48 + n mod 10) :: acc) Hd) as (ds & Hds & Nds & V).
    exists (ds ++ [48 + n mod 10]). split; [ | split].
    + rewrite Hds, <- app_assoc. reflexivity.
    + destruct ds; discriminate.
    + intros a0. rewrite fold_left_app, V. cbn [fold_left].
      replace (length (ds ++ [48 + n mod 10])) with (S (length ds))
        by (rewrite length_app; simpl; lia).
      rewrite Nat.pow_succ_r'.
      pose proof (Nat.div_mod_eq n 10). nia.
Qed.

Lemma decimal_value (n : nat) : digits_value (decimal n) = n /\ decimal n <> [].
Proof.
  unfold decimal.
  destruct (@decimal_aux_spec (S n) n [] ltac:(lia)) as (ds & Hds & Nds & V).
  rewrite Hds, app_nil_r. split; [ | exact Nds].
  unfold digits_value. rewrite V. lia.
Qed.

Lemma itos_sem_inj (z r : Z) :
  (0 <= r)%Z -> itos_sem z = itos_sem r -> z = r.
Proof.
  intros Hr. unfold itos_sem.
  destruct (Z.ltb_spec r 0) as [ | _]; [lia | ].
  destruct (Z.ltb_spec z 0) as [Hz | Hz].
  - intros H. symmetry in H. destruct (decimal_value (Z.to_nat r)) as [_ N].
    contradiction.
  - intros H. apply (f_equal digits_value) in H.
    rewrite (proj1 (decimal_value (Z.to_nat z))) in H.
    rewrite (proj1 (decimal_value (Z.to_nat r))) in H. lia.
Qed.

(** Numerals are made of digits. *)
Lemma decimal_aux_digits (fuel : nat) :
  forall n acc, forallb is_digit acc = true ->
    forallb is_digit (decimal_aux fuel n acc) = true.
Proof.
  induction fuel as [ | fuel IH]; intros n acc Hacc; [exact Hacc | ].
  rewrite decimal_aux_S.
  assert (D : forallb is_digit ((48 + n mod 10) :: acc) = true).
  { cbn [forallb]. rewrite Hacc, andb_true_r. unfold is_digit.
    pose proof (Nat.mod_upper_bound n 10 ltac:(lia)) as B.
    apply andb_true_intro. split; apply Nat.leb_le; lia. }
  destruct (n <? 10); [exact D | apply IH; exact D].
Qed.

Lemma decimal_digits (n : nat) : forallb is_digit (decimal n) = true.
Proof. apply decimal_aux_digits. reflexivity. Qed.

Lemma itos_sem_digits (z : Z) : forallb is_digit (itos_sem z) = true.
Proof.
  unfold itos_sem. destruct (z <? 0)%Z; [reflexivity | apply decimal_digits].
Qed.

Lemma is_string_vec_val (I : interp) (es : list expr) :
  forall acc s, is_string_vec es acc = Some s ->
    map VChar s = map VChar acc ++ seq_val I es.
Proof.
  induction es as [ | e es IH]; intros acc s H.
  - simpl in H. inversion H; subst. symmetry. apply app_nil_r.
  - simpl in H. destruct (str.is_string e) as [s1 | ] eqn:Se.
    + rewrite (IH _ _ H), map_app, <- app_assoc,
        (@seq_val_literal I e s1 es Se). reflexivity.
    + destruct (str.is_unit e) as [u | ] eqn:Ue; [ | discriminate].
      destruct (is_const_char u) as [ch | ] eqn:Cu; [ | discriminate].
      rewrite (IH _ _ H), map_app, <- app_assoc, (@seq_val_unit I e u es Ue).
      destruct u as [k ps args]. destruct k; try discriminate.
      destruct ps as [ | [c | | | | ] [ | ? ?]]; try discriminate.
      inversion Cu; subst. reflexivity.
Qed.


Section itos_reduction.
Context {ext : externals}.

(** C5, as the code has it: [reduce_itos] never refutes, it answers
    [true] on every input; and when the left side is the single term
    [itos(n)] and the right side is concrete and spells the decimal
    numeral of a non-negative integer [m], it equates [n] with [m] and
    clears both sides.  The second half is for a numeral reader that
    reads the decimal numeral of [m] as [m] and prints [m] as that
    numeral. *)
Theorem reduce_itos_never_refutes (ls rs : list expr) (eqs : list (expr * expr)) :
  (exists st, reduce_itos ls rs eqs = Reduced st)
  /\ ((forall m : nat,
         zencode (decimal m) = decimal m
         /\ rational_of_string (decimal m) = Z.of_nat m
         /\ rational_to_string (Z.of_nat m) = decimal m) ->
      forall n m, ls = [str.mk_itos n] ->
        is_string_vec rs [] = Some (decimal m) ->
        reduce_itos ls rs eqs
        = Reduced ([], [], eqs ++ [(n, autil.mk_numeral (Z.of_nat m))])).
Proof.
  split.
  - unfold reduce_itos.
    destruct ls as [ | l0 [ | ? ?]]; eauto.
    destruct (str.is_itos l0); eauto.
    destruct (is_string_vec rs []); eauto.
    destruct (list_eq_dec _ _ _); eauto.
  - intros Hreader n m -> Hs. unfold reduce_itos.
    change (str.is_itos (str.mk_itos n)) with (Some n).
    rewrite Hs. cbv beta iota zeta.
    destruct (Hreader m) as (-> & -> & ->).
    destruct (list_eq_dec Nat.eq_dec (decimal m) (decimal m)) as [_ | N];
      [reflexivity | contradiction N; reflexivity].
Qed.

End itos_reduction.

(** The reader that accepts a sign reads and prints the numerals of the
    non-negative integers as it should. *)
Lemma read_signed_decimal (m : nat) :
  zencode (externals := examples.signed_manager) (decimal m) = decimal m
  /\ rational_of_string (externals := examples.signed_manager) (decimal m)
     = Z.of_nat m
  /\ rational_to_string (externals := examples.signed_manager) (Z.of_nat m)
     = decimal m.
Proof.
  split; [reflexivity | ]. split.
  - cbn [rational_of_string examples.signed_manager].
    pose proof (decimal_digits m) as D.
    destruct (decimal_value m) as [V N].
    unfold examples.read_signed.
    destruct (decimal m) as [ | c t] eqn:E; [contradiction N; reflexivity | ].
    assert (C : (c =? 45) = false).
    { cbn [forallb] in D. apply andb_true_iff in D. destruct D as [D _].
      unfold is_digit in D. apply andb_true_iff in D. destruct D as [D _].
      apply Nat.leb_le in D. apply Nat.eqb_neq. lia. }
    rewrite C. cbn [andb]. unfold read_decimal. rewrite D, V. reflexivity.
  - cbn [rational_to_string examples.signed_manager]. unfold print_decimal.
    destruct (Z.ltb_spec (Z.of_nat m) 0); [lia | ].
    rewrite Nat2Z.id. reflexivity.
Qed.

Lemma reduce_itos_never_refutes_witness :
  (exists st,
      reduce_itos (ext := examples.signed_manager)
        [str.mk_itos examples.num] [str.mk_string [97]] [] = Reduced st)
  /\ reduce_itos (ext := examples.signed_manager)
       [str.mk_itos examples.num] [str.mk_string [52]; str.mk_unit (mk_char 50)] []
     = Reduced ([], [], [(examples.num, autil.mk_numeral 42)]).
Proof.
  split.
  - exact (proj1 (@reduce_itos_never_refutes examples.signed_manager
                    [str.mk_itos examples.num] [str.mk_string [97]] [])).
  - exact (proj2 (@reduce_itos_never_refutes examples.signed_manager
                    [str.mk_itos examples.num]
                    [str.mk_string [52]; str.mk_unit (mk_char 50)] [])
             read_signed_decimal examples.num 42 eq_refl eq_refl).
Defined.

(** *** Lengths *)

Lemma wf_eval (I : interp) (e : expr) :
  wf_operand e -> eval I e = VSeq (as_seq (eval I e)).
Proof. intros H. apply seq_operand_eval. apply wf_operand_seq. exact H. Qed.

Lemma wf_empty_value (I : interp) (e : expr) :
  wf_operand e -> as_seq (eval I e) = [] -> eval I e = VSeq [].
Proof. intros H E. rewrite (wf_eval I H), E. reflexivity. Qed.

(** The least length of an operand, as [min_length] counts it. *)
Lemma operand_count (I : interp) (e : expr) :
  (if is_unit_b e then 1
   else if str.is_empty e then 0
   else match str.is_string e with Some s => length s | None => 0 end)
  <= length (as_seq (eval I e))
  /\ (is_symbolic e = false ->
      length (as_seq (eval I e))
      = if is_unit_b e then 1
        else if str.is_empty e then 0
        else match str.is_string e with Some s => length s | None => 0 end).
Proof.
  unfold is_symbolic, is_string_b, is_unit_b.
  destruct (str.is_unit e) as [a | ] eqn:U.
  - rewrite (is_unit_eval I e U). simpl. split; [lia | reflexivity].
  - destruct (str.is_empty e) eqn:E.
    + rewrite (is_empty_eval I e E). simpl. split; [lia | reflexivity].
    + destruct (str.is_string e) as [s | ] eqn:S.
      * rewrite (is_string_eval I e S). simpl. rewrite length_map.
        split; [lia | reflexivity].
      * simpl. split; [lia | discriminate].
Qed.

Lemma min_length_cons (e : expr) (es : list expr) :
  min_length (e :: es)
  = (fst (min_length es) && negb (is_symbolic e),
     (if is_unit_b e then 1
      else if str.is_empty e then 0
      else match str.is_string e with Some s => length s | None => 0 end)
     + snd (min_length es)).
Proof.
  simpl. destruct (min_length es) as [b n]. unfold is_symbolic, is_string_b.
  destruct (is_unit_b e); simpl; [rewrite andb_true_r; reflexivity | ].
  destruct (str.is_empty e); simpl; [rewrite andb_true_r; reflexivity | ].
  destruct (str.is_string e); simpl;
    [rewrite andb_true_r | rewrite andb_false_r]; reflexivity.
Qed.

Lemma min_length_spec (I : interp) (es : list expr) :
  snd (min_length es) <= length (seq_val I es)
  /\ (fst (min_length es) = true ->
      length (seq_val I es) = snd (min_length es)
      /\ Forall (fun e => is_symbolic e = false) es).
Proof.
  induction es as [ | e es [IH1 IH2]].
  - simpl. split; [lia | intros _; split; [reflexivity | constructor]].
  - rewrite min_length_cons, seq_val_cons, length_app.
    destruct (operand_count I e) as [C1 C2]. cbn [fst snd]. split; [lia | ].
    intros B. apply andb_prop in B. destruct B as [B1 B2].
    apply negb_true_iff in B2. destruct (IH2 B1) as [L F].
    rewrite (C2 B2), L. split; [reflexivity | constructor; assumption].
Qed.

(** When a side is as short as it can be, its symbolic operands are empty. *)
Lemma min_length_tight (I : interp) (es : list expr) :
  Forall wf_operand es ->
  length (seq_val I es) = snd (min_length es) ->
  Forall (fun e => is_symbolic e = true -> eval I e = VSeq []) es.
Proof.
  induction 1 as [ | e es He Hes IH]; intros L; [constructor | ].
  rewrite min_length_cons, seq_val_cons, length_app in L. cbn [snd] in L.
  destruct (operand_count I e) as [C1 _].
  destruct (min_length_spec I es) as [C2 _].
  constructor; [ | apply IH; lia].
  intros S. apply (wf_empty_value I He).
  unfold is_symbolic, is_string_b in S.
  destruct (is_unit_b e); [discriminate | ].
  destruct (str.is_empty e); [discriminate | ].
  destruct (str.is_string e); [discriminate | ].
  apply length_zero_iff_nil. lia.
Qed.

(** Operands that are neither units nor literals contribute nothing once
    the symbolic ones are empty. *)
Lemma symbolic_empty_val (I : interp) (es : list expr) :
  Forall (fun e => is_symbolic e = true -> eval I e = VSeq []) es ->
  seq_val I es = seq_val I (filter (fun e => is_unit_b e || is_string_b e) es).
Proof.
  induction 1 as [ | e es He _ IH]; [reflexivity | ].
  cbn [filter]. unfold is_symbolic in He.
  destruct (is_unit_b e); cbn [orb negb andb] in *;
    [rewrite !seq_val_cons, IH; reflexivity | ].
  destruct (is_string_b e); cbn [orb negb andb] in *;
    [rewrite !seq_val_cons, IH; reflexivity | ].
  rewrite seq_val_cons, IH. destruct (str.is_empty e) eqn:E.
  - rewrite (is_empty_eval I e E). reflexivity.
  - rewrite He; reflexivity.
Qed.

Lemma set_empty_loop_false (es : list expr) :
  forall (emp : option expr) (eqs : list (expr * expr)),
    (forall x, emp = Some x -> forall I, eval I x = VSeq []) ->
    exists new, set_empty_loop es false emp eqs = Some (eqs ++ new)
      /\ forall I, eqs_hold I new
           <-> Forall (fun e => is_symbolic e = true -> eval I e = VSeq []) es.
Proof.
  induction es as [ | e es IH]; intros emp eqs Hemp.
  - exists []. split; [simpl; rewrite app_nil_r; reflexivity | ].
    intros I. split; constructor.
  - assert (Skip : is_symbolic e = false ->
              exists new, set_empty_loop es false emp eqs = Some (eqs ++ new)
                /\ forall I, eqs_hold I new
                     <-> Forall (fun e0 => is_symbolic e0 = true
                                           -> eval I e0 = VSeq []) (e :: es)).
    { intros S. destruct (IH emp eqs Hemp) as (new & Hn & Hh).
      exists new. split; [exact Hn | ]. intros I. rewrite (Hh I). split.
      - intros F. constructor; [rewrite S; discriminate | exact F].
      - intros F. inversion F; assumption. }
    cbn [set_empty_loop]. unfold is_symbolic, is_string_b in Skip.
    destruct (is_unit_b e) eqn:U; [apply Skip; reflexivity | ].
    destruct (str.is_empty e) eqn:E; [apply Skip; reflexivity | ].
    destruct (str.is_string e) as [[ | c s] | ] eqn:S;
      [apply Skip; reflexivity | apply Skip; reflexivity | ].
    clear Skip.
    assert (Sym : is_symbolic e = true)
      by (unfold is_symbolic, is_string_b; rewrite U, E, S; reflexivity).
    set (emp' := match emp with Some x => x | None => str.mk_empty (get_sort e) end).
    assert (He : forall I, eval I emp' = VSeq []).
    { intros I. subst emp'. destruct emp as [x | ]; [ | reflexivity].
      apply (Hemp x eq_refl). }
    destruct (IH (Some emp') (eqs ++ [(emp', e)])) as (new & Hn & Hh).
    { intros x Hx. inversion Hx; subst x. exact He. }
    exists ((emp', e) :: new). split.
    + rewrite Hn, <- app_assoc. reflexivity.
    + intros I. change ((emp', e) :: new) with ([(emp', e)] ++ new).
      rewrite eqs_hold_app, eqs_hold_one, (Hh I), (He I). split.
      * intros [E' F]. constructor; [intros _; symmetry; exact E' | exact F].
      * intros F. inversion F as [ | ? ? Fe Fes]; subst. split; [ | exact Fes].
        symmetry. apply Fe. exact Sym.
Qed.

Lemma concat_non_empty_eval (es : list expr) :
  Forall wf_operand es -> es <> [] ->
  exists c, concat_non_empty es = Some c
    /\ forall I, eval I c
         = VSeq (seq_val I (filter (fun e => is_unit_b e || is_string_b e) es)).
Proof.
  intros H N. destruct es as [ | e0 es]; [contradiction | ].
  eexists. split; [reflexivity | ].
  intros I. apply eval_mk_concat_n. apply forallb_forall.
  intros x Hx. apply filter_In in Hx. destruct Hx as [Hx _].
  apply wf_operand_seq. rewrite Forall_forall in H. apply H. exact Hx.
Qed.

(** The step of [reduce_by_length] for a side [A] of known length and a
    side [B] whose least length is the same. *)
Lemma equal_length_step (A B : list expr) (eqs : list (expr * expr)) :
  Forall wf_operand A -> Forall wf_operand B ->
  fst (min_length A) = true -> snd (min_length A) = snd (min_length B) ->
  0 < snd (min_length A) ->
  exists new cA cB,
    set_empty B false eqs = Some (eqs ++ new)
    /\ concat_non_empty A = Some cA /\ concat_non_empty B = Some cB
    /\ forall I, (eqs_hold I new /\ eval I cA = eval I cB)
                 <-> seq_val I A = seq_val I B.
Proof.
  intros HA HB BA L P.
  destruct (@set_empty_loop_false B None eqs) as (new & Hn & Hh);
    [discriminate | ].
  assert (NA : A <> []) by (intros ->; simpl in P; lia).
  assert (NB : B <> []) by (intros ->; simpl in L; simpl in P; lia).
  destruct (concat_non_empty_eval HA NA) as (cA & HcA & VA).
  destruct (concat_non_empty_eval HB NB) as (cB & HcB & VB).
  exists new, cA, cB.
  split; [exact Hn | ]. split; [exact HcA | ]. split; [exact HcB | ].
  intros I.
  assert (FA : seq_val I A
               = seq_val I (filter (fun e => is_unit_b e || is_string_b e) A)).
  { apply symbolic_empty_val.
    destruct (min_length_spec I A) as [_ F]. destruct (F BA) as [_ F'].
    eapply Forall_impl; [ | exact F'].
    intros e He S. rewrite He in S. discriminate. }
  assert (LA : length (seq_val I A) = snd (min_length A))
    by (destruct (min_length_spec I A) as [_ F]; apply F; exact BA).
  rewrite (Hh I), VA, VB. split.
  - intros [SB E]. injection E as E. rewrite FA, E. symmetry.
    apply symbolic_empty_val. exact SB.
  - intros E.
    assert (SB : Forall (fun e => is_symbolic e = true -> eval I e = VSeq []) B)
      by (apply min_length_tight; [exact HB | rewrite <- E, LA; exact L]).
    split; [exact SB | ]. f_equal. rewrite <- FA, E.
    apply symbolic_empty_val. exact SB.
Qed.

Lemma reduce_by_length_ok (ls rs : list expr) (eqs : list (expr * expr)) :
  Forall wf_operand ls -> Forall wf_operand rs ->
  weq_refines seq_val ls rs eqs (reduce_by_length ls rs eqs).
Proof.
  intros Hl Hr.
  pose proof (@weq_refines_refl seq_val ls rs eqs Hl Hr) as Same.
  assert (Body :
    weq_refines seq_val ls rs eqs
      (let '(bounded1, len1) := min_length ls in
       let '(bounded2, len2) := min_length rs in
       if bounded1 && (len1 <? len2) then Refuted
       else if bounded2 && (len2 <? len1) then Refuted
       else if bounded1 && (len1 =? len2) && (0 <? len1) then
         match set_empty rs false eqs with
         | None => Refuted
         | Some eqs' =>
             match concat_non_empty ls, concat_non_empty rs with
             | Some l, Some r => Reduced ([], [], eqs' ++ [(l, r)])
             | _, _ => Undefined
             end
         end
       else if bounded2 && (len1 =? len2) && (0 <? len1) then
         match set_empty ls false eqs with
         | None => Refuted
         | Some eqs' =>
             match concat_non_empty ls, concat_non_empty rs with
             | Some l, Some r => Reduced ([], [], eqs' ++ [(l, r)])
             | _, _ => Undefined
             end
         end
       else Reduced (ls, rs, eqs))).
  { pose proof (fun I => min_length_spec I ls) as M1.
    pose proof (fun I => min_length_spec I rs) as M2.
    pose proof (@equal_length_step ls rs eqs Hl Hr) as S1.
    pose proof (@equal_length_step rs ls eqs Hr Hl) as S2.
    destruct (min_length ls) as [b1 len1]. destruct (min_length rs) as [b2 len2].
    cbn [fst snd] in *.
    destruct (b1 && (len1 <? len2)) eqn:C1.
    { apply andb_prop in C1. destruct C1 as [B C]. apply Nat.ltb_lt in C.
      intros I E. destruct (M1 I) as [_ F]. destruct (F B) as [L _].
      destruct (M2 I) as [G _]. rewrite <- E, L in G. lia. }
    destruct (b2 && (len2 <? len1)) eqn:C2.
    { apply andb_prop in C2. destruct C2 as [B C]. apply Nat.ltb_lt in C.
      intros I E. destruct (M2 I) as [_ F]. destruct (F B) as [L _].
      destruct (M1 I) as [G _]. rewrite E, L in G. lia. }
    destruct (b1 && (len1 =? len2) && (0 <? len1)) eqn:C3.
    { apply andb_prop in C3. destruct C3 as [C3 P].
      apply andb_prop in C3. destruct C3 as [B C].
      apply Nat.eqb_eq in C. apply Nat.ltb_lt in P.
      destruct (S1 B C P) as (new & cA & cB & -> & -> & -> & H).
      split; [constructor | ]. split; [constructor | ].
      exists (new ++ [(cA, cB)]). split; [symmetry; apply app_assoc | ].
      intros I. rewrite eqs_hold_app, eqs_hold_one, <- (H I).
      split; [intros [K _]; exact K | intros K; split; [exact K | reflexivity]]. }
    destruct (b2 && (len1 =? len2) && (0 <? len1)) eqn:C4.
    { apply andb_prop in C4. destruct C4 as [C4 P].
      apply andb_prop in C4. destruct C4 as [B C].
      apply Nat.eqb_eq in C. apply Nat.ltb_lt in P.
      destruct (S2 B (eq_sym C) ltac:(lia)) as (new & cA & cB & -> & -> & -> & H).
      split; [constructor | ]. split; [constructor | ].
      exists (new ++ [(cB, cA)]). split; [symmetry; apply app_assoc | ].
      intros I. rewrite eqs_hold_app, eqs_hold_one. specialize (H I). split.
      - intros [[K1 K2] _]. symmetry. apply H. split; [exact K1 | ].
        symmetry. exact K2.
      - intros K. symmetry in K. apply H in K. destruct K as [K1 K2].
        split; [split; [exact K1 | symmetry; exact K2] | reflexivity]. }
    exact Same. }
  unfold reduce_by_length.
  destruct ls as [ | l ls]; destruct rs as [ | r rs];
    [exact Same | exact Body | exact Body | exact Body].
Qed.

(** *** Subsequences *)

Lemma side_length_split (I : interp) (sel : nat -> bool) (rs : list expr) :
  forall i, length (seq_val I rs)
            = side_length I sel rs i + side_length I (fun k => negb (sel k)) rs i.
Proof.
  induction rs as [ | y rs IH]; intros i; [reflexivity | ].
  rewrite seq_val_cons, length_app, (IH (S i)). cbn [side_length].
  destruct (sel i); simpl; lia.
Qed.

Lemma side_length_ext (I : interp) (f g : nat -> bool) (rs : list expr) :
  forall i, (forall k, i <= k -> f k = g k) ->
            side_length I f rs i = side_length I g rs i.
Proof.
  induction rs as [ | y rs IH]; intros i H; [reflexivity | ].
  cbn [side_length]. rewrite (H i (le_n i)), (IH (S i)); [reflexivity | ].
  intros k Hk. apply H. lia.
Qed.

Lemma find_match_ge (x : expr) (rs : list expr) (rpos : list nat) :
  forall i j, find_match x rs rpos i = Some j -> i <= j.
Proof.
  induction rs as [ | y rs IH]; intros i j H; [discriminate | ].
  simpl in H. destruct (_ && _) in H.
  - inversion H. lia.
  - apply IH in H. lia.
Qed.

Lemma same_length (I : interp) (x y : expr) :
  expr_eqb x y || (is_unit_b x && is_unit_b y) = true ->
  length (as_seq (eval I x)) = length (as_seq (eval I y)).
Proof.
  intros H. apply orb_prop in H. destruct H as [H | H].
  - apply expr_eqb_eq in H. subst. reflexivity.
  - apply andb_prop in H. destruct H as [Hx Hy].
    destruct (is_unit_b_some x Hx) as [a Ha].
    destruct (is_unit_b_some y Hy) as [b Hb].
    rewrite (is_unit_eval I x Ha), (is_unit_eval I y Hb). reflexivity.
Qed.

Lemma find_match_length (I : interp) (x : expr) (rs : list expr)
  (rpos : list nat) :
  forall i j, find_match x rs rpos i = Some j ->
    side_length I (matched (j :: rpos)) rs i
    = side_length I (matched rpos) rs i + length (as_seq (eval I x)).
Proof.
  induction rs as [ | y rs IH]; intros i j H; [discriminate | ].
  cbn [find_match] in H. cbn [side_length].
  destruct (negb (existsb (Nat.eqb i) rpos)) eqn:F; cbn [andb] in H.
  - destruct (expr_eqb x y || (is_unit_b x && is_unit_b y)) eqn:C.
    + inversion H; subst j. apply negb_true_iff in F.
      unfold matched at 1 3. cbn [existsb]. rewrite Nat.eqb_refl, F. cbn [orb].
      rewrite (same_length I x y C).
      rewrite (@side_length_ext I (matched (i :: rpos)) (matched rpos) rs (S i)).
      * lia.
      * intros k Hk. unfold matched. cbn [existsb].
        destruct (Nat.eqb_spec k i); [lia | reflexivity].
    + pose proof (find_match_ge _ _ _ _ H) as G.
      rewrite (IH (S i) j H). unfold matched at 1 3. cbn [existsb].
      destruct (Nat.eqb_spec i j); [lia | ]. cbn [orb]. lia.
  - pose proof (find_match_ge _ _ _ _ H) as G.
    rewrite (IH (S i) j H). unfold matched at 1 3. cbn [existsb].
    destruct (Nat.eqb_spec i j); [lia | ]. cbn [orb]. lia.
Qed.

Lemma side_length_none (I : interp) (rs : list expr) :
  forall i, side_length I (matched []) rs i = 0.
Proof. induction rs as [ | y rs IH]; intros i; [reflexivity | apply IH]. Qed.

Lemma match_all_length (I : interp) (ls rs : list expr) :
  forall rpos0 rpos, match_all ls rs rpos0 = Some rpos ->
    side_length I (matched rpos) rs 0
    = side_length I (matched rpos0) rs 0 + length (seq_val I ls).
Proof.
  induction ls as [ | x ls IH]; intros rpos0 rpos H.
  - inversion H; subst. simpl. lia.
  - cbn [match_all] in H. destruct (find_match x rs rpos0 0) as [j | ] eqn:F;
      [ | discriminate].
    rewrite (IH _ _ H), (find_match_length I _ _ _ _ F).
    rewrite seq_val_cons, length_app. lia.
Qed.

Lemma set_empty_single (y : expr) (eqs : list (expr * expr)) :
  wf_operand y ->
  match set_empty [y] true eqs with
  | None => forall I, 0 < length (as_seq (eval I y))
  | Some eqs1 =>
      exists new, eqs1 = eqs ++ new
        /\ forall I, eqs_hold I new <-> length (as_seq (eval I y)) = 0
  end.
Proof.
  intros Hy. unfold set_empty. cbn [set_empty_loop]. unfold is_unit_b.
  destruct (str.is_unit y) as [a | ] eqn:U.
  { intros I. rewrite (is_unit_eval I y U). simpl. lia. }
  assert (Nothing : (forall I, eval I y = VSeq []) ->
            exists new, eqs = eqs ++ new
              /\ forall I, eqs_hold I new <-> length (as_seq (eval I y)) = 0).
  { intros H. exists []. split; [symmetry; apply app_nil_r | ].
    intros I. rewrite (H I). split; [reflexivity | constructor]. }
  destruct (str.is_empty y) eqn:E.
  { apply Nothing. intros I. apply is_empty_eval. exact E. }
  destruct (str.is_string y) as [[ | c s] | ] eqn:S.
  - apply Nothing. intros I. apply (is_string_eval I y S).
  - intros I. rewrite (is_string_eval I y S). simpl. lia.
  - exists [(str.mk_empty (get_sort y), y)]. split; [reflexivity | ].
    intros I. rewrite eqs_hold_one.
    change (eval I (str.mk_empty (get_sort y))) with (VSeq []). split.
    + intros <-. reflexivity.
    + intros L. symmetry. apply (wf_empty_value I Hy).
      apply length_zero_iff_nil. exact L.
Qed.

Lemma keep_matched_spec (rpos : list nat) (rs : list expr) :
  Forall wf_operand rs ->
  forall (i : nat) (eqs : list (expr * expr)),
    match keep_matched rs rpos i eqs with
    | None =>
        forall I, 0 < side_length I (fun k => negb (matched rpos k)) rs i
    | Some (kept, eqs') =>
        Forall wf_operand kept
        /\ exists new, eqs' = eqs ++ new
           /\ forall I,
                length (seq_val I kept) = side_length I (matched rpos) rs i
                /\ (eqs_hold I new
                    <-> side_length I (fun k => negb (matched rpos k)) rs i = 0)
                /\ (side_length I (fun k => negb (matched rpos k)) rs i = 0 ->
                    seq_val I rs = seq_val I kept)
    end.
Proof.
  induction 1 as [ | y rs Hy Hrs IH]; intros i eqs.
  - simpl. split; [constructor | ]. exists [].
    split; [symmetry; apply app_nil_r | ].
    intros I. split; [reflexivity | ]. split; [ | reflexivity].
    split; [reflexivity | constructor].
  - cbn [keep_matched side_length]. fold (matched rpos i).
    destruct (matched rpos i) eqn:M; cbn [negb].
    + specialize (IH (S i) eqs).
      destruct (keep_matched rs rpos (S i) eqs) as [[kept eqs'] | ].
      * destruct IH as (Wk & new & -> & H). split; [constructor; assumption | ].
        exists new. split; [reflexivity | ]. intros I.
        destruct (H I) as (H1 & H2 & H3).
        rewrite !seq_val_cons, length_app, H1.
        split; [reflexivity | ]. split; [exact H2 | ].
        intros Z. rewrite (H3 Z). reflexivity.
      * intros I. specialize (IH I). lia.
    + pose proof (set_empty_single eqs Hy) as SE.
      destruct (set_empty [y] true eqs) as [eqs1 | ].
      * destruct SE as (new1 & -> & H1). specialize (IH (S i) (eqs ++ new1)).
        destruct (keep_matched rs rpos (S i) (eqs ++ new1)) as [[kept eqs'] | ].
        -- destruct IH as (Wk & new & -> & H). split; [exact Wk | ].
           exists (new1 ++ new). split; [symmetry; apply app_assoc | ].
           intros I. destruct (H I) as (K1 & K2 & K3).
           split; [rewrite K1; reflexivity | ].
           rewrite eqs_hold_app, (H1 I), K2. split; [lia | ].
           intros Z. rewrite seq_val_cons.
           assert (L : length (as_seq (eval I y)) = 0) by lia.
           apply length_zero_iff_nil in L. rewrite L. apply K3. lia.
        -- intros I. specialize (IH I). lia.
      * intros I. specialize (SE I). lia.
Qed.

Lemma reduce_subsequence_ok (ls rs : list expr) (eqs : list (expr * expr)) :
  Forall wf_operand ls -> Forall wf_operand rs ->
  weq_refines seq_val ls rs eqs (reduce_subsequence ls rs eqs).
Proof.
  assert (Body : forall ls rs, Forall wf_operand ls -> Forall wf_operand rs ->
    weq_refines seq_val ls rs eqs
      (if length ls =? length rs then Reduced (ls, rs, eqs)
       else if (length ls =? 0) && (length rs =? 1) then Reduced (ls, rs, eqs)
       else
         match match_all ls rs [] with
         | None => Reduced (ls, rs, eqs)
         | Some rpos =>
             match keep_matched rs rpos 0 eqs with
             | None => Refuted
             | Some (kept, eqs') =>
                 if length kept =? length rs then Reduced (ls, rs, eqs')
                 else
                   match ls with
                   | [] => Reduced (ls, kept, eqs')
                   | l0 :: _ =>
                       let srt := get_sort l0 in
                       Reduced ([], [],
                                eqs' ++ [(mk_concat_n ls srt, mk_concat_n kept srt)])
                   end
             end
         end)).
  { clear ls rs. intros ls rs Hl Hr.
    pose proof (@weq_refines_refl seq_val ls rs eqs Hl Hr) as Same.
    destruct (length ls =? length rs); [exact Same | ].
    destruct ((length ls =? 0) && (length rs =? 1)); [exact Same | ].
    destruct (match_all ls rs []) as [rpos | ] eqn:MA; [ | exact Same].
    assert (Lm : forall I, side_length I (matched rpos) rs 0 = length (seq_val I ls)).
    { intros I. rewrite (match_all_length I _ _ _ MA), side_length_none.
      reflexivity. }
    pose proof (keep_matched_spec rpos Hr 0 eqs) as KM.
    destruct (keep_matched rs rpos 0 eqs) as [[kept eqs'] | ].
    - destruct KM as (Wk & new & -> & H).
      assert (Core : forall I,
                 (eqs_hold I new /\ seq_val I ls = seq_val I kept)
                 <-> seq_val I ls = seq_val I rs).
      { intros I. destruct (H I) as (K1 & K2 & K3). split.
        - intros [Hn E]. apply K2 in Hn. rewrite (K3 Hn). exact E.
        - intros E.
          assert (Z : side_length I (fun k => negb (matched rpos k)) rs 0 = 0).
          { pose proof (side_length_split I (matched rpos) rs 0) as Sp.
            rewrite <- E, Lm in Sp. lia. }
          split; [apply K2; exact Z | ]. rewrite <- (K3 Z). exact E. }
      destruct (length kept =? length rs).
      + split; [exact Hl | ]. split; [exact Hr | ].
        exists new. split; [reflexivity | ]. intros I. split.
        * intros [_ E]. exact E.
        * intros E. split; [ | exact E]. apply (Core I). exact E.
      + destruct ls as [ | l0 ls'].
        * split; [constructor | ]. split; [exact Wk | ].
          exists new. split; [reflexivity | ]. exact Core.
        * cbv zeta. split; [constructor | ]. split; [constructor | ].
          eexists. split; [symmetry; apply app_assoc | ].
          intros I. rewrite eqs_hold_app, eqs_hold_one, <- (Core I).
          rewrite !eval_mk_concat_n.
          -- split.
             ++ intros [[Hn E] _]. injection E as E. split; assumption.
             ++ intros [Hn E]. split; [split; [exact Hn | ] | reflexivity].
                rewrite E. reflexivity.
          -- apply forallb_forall. intros x Hx. apply wf_operand_seq.
             rewrite Forall_forall in Wk. apply Wk. exact Hx.
          -- apply forallb_forall. intros x Hx. apply wf_operand_seq.
             rewrite Forall_forall in Hl. apply Hl. exact Hx.
    - intros I E.
      pose proof (side_length_split I (matched rpos) rs 0) as Sp.
      rewrite <- E, Lm in Sp. specialize (KM I). lia. }
  intros Hl Hr. unfold reduce_subsequence.
  destruct (length rs <? length ls).
  - apply weq_refines_sym. apply Body; assumption.
  - apply Body; assumption.
Qed.

(** *** Runs of units that cannot overlap *)

Lemma units_map_eval (I : interp) (es : list expr) :
  forallb is_unit_b es = true ->
  map (eval I) es = map (fun v => VSeq [v]) (seq_val I es).
Proof.
  induction es as [ | e es IH]; intros H; [reflexivity | ].
  simpl in H. apply andb_prop in H. destruct H as [He Hes].
  destruct (is_unit_b_some e He) as [a Ha].
  rewrite (@seq_val_unit I e a es Ha). cbn [map].
  rewrite (is_unit_eval I e Ha), (IH Hes). reflexivity.
Qed.

Lemma units_length (I : interp) (es : list expr) :
  forallb is_unit_b es = true -> length (seq_val I es) = length es.
Proof.
  intros H. rewrite <- (length_map (fun v => VSeq [v]) (seq_val I es)).
  rewrite <- (units_map_eval I es H). apply length_map.
Qed.

(** A run of units [P] that lies in [rs] at offset [length u] agrees
    with [rs] position by position. *)
Lemma aligned_units (I : interp) (P rs : list expr) (u v : list value) :
  forallb is_unit_b P = true -> forallb is_unit_b rs = true ->
  u ++ seq_val I P ++ v = seq_val I rs ->
  forall i, i < length P ->
    eval I (nth i P mk_true) = eval I (nth (length u + i) rs mk_true).
Proof.
  intros HP Hrs E i Hi.
  apply (f_equal (map (fun x => VSeq [x]))) in E.
  rewrite !map_app, <- (units_map_eval I P HP), <- (units_map_eval I rs Hrs) in E.
  rewrite <- (map_nth (eval I) rs mk_true), <- E.
  rewrite <- (length_map (fun x => VSeq [x]) u), app_nth2_plus.
  rewrite app_nth1 by (rewrite length_map; exact Hi).
  symmetry. apply map_nth.
Qed.

Lemma existsb_false (A : Type) (f : A -> bool) (l : list A) (x : A) :
  existsb f l = false -> In x l -> f x = false.
Proof.
  intros H Hx. destruct (f x) eqn:E; [ | reflexivity].
  assert (T : existsb f l = true) by (apply existsb_exists; exists x; auto).
  rewrite H in T. discriminate.
Qed.

Section non_overlap.
Context {ext : externals}.
Hypothesis are_distinct_sound :
  forall a b, are_distinct a b = true -> forall I, eval I a <> eval I b.

Lemma can_overlap_false (p1 p2 : list expr) (start2 : nat) :
  forall n i, can_overlap p1 p2 start2 i n = false ->
    exists k, i <= k < i + n
      /\ are_distinct (nth k p1 mk_true) (nth (start2 + k) p2 mk_true) = true.
Proof.
  induction n as [ | n IH]; intros i H; [discriminate | ].
  cbn [can_overlap] in H.
  destruct (are_distinct (nth i p1 mk_true) (nth (start2 + i) p2 mk_true)) eqn:D.
  - exists i. split; [lia | exact D].
  - destruct (negb _) in H; [discriminate | ].
    destruct (IH (S i) H) as (k & Hk & Dk). exists k. split; [lia | exact Dk].
Qed.

Lemma non_overlap_core_sound (p1 p2 : list expr) :
  forallb is_unit_b p1 = true -> length p1 <= length p2 ->
  non_overlap_core p1 p2 = true ->
  forall o, o + length p1 <= length p2 ->
    exists k, k < length p1
      /\ are_distinct (nth k p1 mk_true) (nth (o + k) p2 mk_true) = true.
Proof.
  intros U L H o Ho. unfold non_overlap_core in H.
  destruct ((length p1 =? 0) || (length p2 =? 0)) eqn:Z; [discriminate | ].
  apply orb_false_elim in Z. destruct Z as [Z1 _]. apply Nat.eqb_neq in Z1.
  assert (S : match p1, p2 with
              | [e1], [e2] =>
                  match str.is_string e1, str.is_string e2 with
                  | Some s1, Some s2 => Some (s1, s2)
                  | _, _ => None
                  end
              | _, _ => None
              end = None).
  { destruct p1 as [ | e1 [ | ? ?]]; try reflexivity.
    destruct p2 as [ | e2 [ | ? ?]]; try reflexivity.
    simpl in U. rewrite andb_true_r in U.
    destruct (is_unit_b_some e1 U) as [a Ha].
    rewrite (is_unit_not_string e1 Ha). reflexivity. }
  cbv zeta in H. rewrite S in H. rewrite U in H. cbn [negb] in H.
  destruct (forallb is_unit_b p2); cbn [negb] in H; [ | discriminate].
  apply andb_prop in H. destruct H as [H H3].
  apply andb_prop in H. destruct H as [_ H2].
  apply negb_true_iff in H2. apply negb_true_iff in H3.
  destruct (Nat.lt_ge_cases o (length p2 - length p1)) as [Lt | Ge].
  - pose proof (@existsb_false _ _ _ o H2) as F.
    cbv beta in F. destruct (can_overlap_false _ _ _ _ _ (F ltac:(apply in_seq; lia)))
      as (k & Hk & D).
    exists k. split; [lia | exact D].
  - pose proof (@existsb_false _ _ _ o H3) as F. cbv beta in F.
    replace (length p2 - o) with (length p1) in F by lia.
    destruct (can_overlap_false _ _ _ _ _ (F ltac:(apply in_seq; lia)))
      as (k & Hk & D).
    exists k. split; [lia | exact D].
Qed.

Lemma non_overlap_sound (P rs : list expr) :
  forallb is_unit_b P = true -> forallb is_unit_b rs = true ->
  non_overlap P rs = true ->
  forall I u v, u ++ seq_val I P ++ v <> seq_val I rs.
Proof.
  intros HP Hrs H I u v E.
  assert (L : length u + length P + length v = length rs).
  { rewrite <- (units_length I rs Hrs), <- E, !length_app,
      (units_length I P HP). lia. }
  unfold non_overlap in H.
  destruct (Nat.ltb_spec (length rs) (length P)) as [Lt | Ge]; [lia | ].
  destruct (@non_overlap_core_sound P rs HP Ge H (length u) ltac:(lia))
    as (k & Hk & D).
  apply (are_distinct_sound _ _ D I).
  apply (@aligned_units I P rs u v HP Hrs E k Hk).
Qed.

Lemma scan_patterns_false (rs : list expr) (ls : list expr) :
  forall pattern, forallb is_unit_b pattern = true ->
    scan_patterns ls pattern rs = false ->
    exists A P B, pattern ++ ls = A ++ P ++ B
      /\ forallb is_unit_b P = true /\ non_overlap P rs = true.
Proof.
  induction ls as [ | x ls IH]; intros pattern U H.
  - cbn [scan_patterns] in H. destruct pattern as [ | p pattern]; [discriminate | ].
    apply negb_false_iff in H. exists [], (p :: pattern), [].
    split; [reflexivity | split; assumption].
  - cbn [scan_patterns] in H. destruct (is_unit_b x) eqn:Ux.
    + destruct (IH (pattern ++ [x])) as (A & P & B & E & UP & N).
      * rewrite forallb_app, U. simpl. rewrite Ux. reflexivity.
      * exact H.
      * exists A, P, B. rewrite <- E, <- app_assoc. split; [reflexivity | ].
        split; assumption.
    + assert (Rest : scan_patterns ls [] rs = false ->
                exists A P B, pattern ++ x :: ls = A ++ P ++ B
                  /\ forallb is_unit_b P = true /\ non_overlap P rs = true).
      { intros H'. destruct (IH [] eq_refl H') as (A & P & B & E & UP & N).
        exists (pattern ++ x :: A), P, B. simpl in E. rewrite E.
        rewrite <- app_assoc. split; [reflexivity | split; assumption]. }
      destruct pattern as [ | p pattern]; [exact (Rest H) | ].
      destruct (non_overlap (p :: pattern) rs) eqn:N; [ | exact (Rest H)].
      exists [], (p :: pattern), (x :: ls). split; [reflexivity | ].
      split; assumption.
Qed.

Lemma reduce_non_overlap_sound (ls rs : list expr) (eqs : list (expr * expr)) :
  reduce_non_overlap ls rs eqs = false ->
  forall I, seq_val I ls <> seq_val I rs.
Proof.
  unfold reduce_non_overlap. intros H I E.
  destruct (forallb is_unit_b rs) eqn:U; cbn [negb] in H; [ | discriminate].
  destruct (@scan_patterns_false rs ls [] eq_refl H) as (A & P & B & L & UP & N).
  simpl in L. subst ls. rewrite !seq_val_app in E.
  exact (@non_overlap_sound P rs UP U N I _ _ E).
Qed.

End non_overlap.

(** *** The reduction as a whole *)

Section reduce_eq_properties.
Context {ext : externals}.
Hypothesis are_distinct_sound :
  forall a b, are_distinct a b = true -> forall I, eval I a <> eval I b.

Lemma reduce_non_overlap_ok (ls rs : list expr) (eqs : list (expr * expr)) :
  Forall wf_operand ls -> Forall wf_operand rs ->
  weq_refines seq_val ls rs eqs
    (and_then (of_bool (reduce_non_overlap ls rs eqs) (ls, rs, eqs))
       (fun st => of_bool (reduce_non_overlap rs ls eqs) st)).
Proof.
  intros Hl Hr.
  destruct (reduce_non_overlap ls rs eqs) eqn:N1; cbn [of_bool and_then].
  - destruct (reduce_non_overlap rs ls eqs) eqn:N2; cbn [of_bool].
    + apply weq_refines_refl; assumption.
    + intros I E. symmetry in E.
      exact (reduce_non_overlap_sound are_distinct_sound _ _ _ N2 I E).
  - exact (reduce_non_overlap_sound are_distinct_sound _ _ _ N1).
Qed.

End reduce_eq_properties.

(** The oracle of the concrete managers only tells apart terms of
    different values. *)
Lemma literals_distinct_sound (a : expr) :
  forall b, literals_distinct a b = true -> forall I, eval I a <> eval I b.
Proof.
  induction a as [k ps args IH] using expr_ind. intros [k' ps' args'] H I.
  destruct k; try discriminate H.
  - destruct ps as [ | [x | | | | ] [ | ? ?]]; try discriminate H.
    destruct k'; try discriminate H.
    destruct ps' as [ | [y | | | | ] [ | ? ?]]; try discriminate H.
    simpl in H. apply negb_true_iff in H. apply Z.eqb_neq in H.
    cbn. congruence.
  - destruct ps as [ | [ | | | | ] [ | ? ?]]; try discriminate H.
    destruct k'; try discriminate H.
    destruct ps' as [ | [ | | | | ] [ | ? ?]]; try discriminate H.
    simpl in H. apply negb_true_iff in H. apply Nat.eqb_neq in H.
    cbn. congruence.
  - destruct args as [ | x [ | ? ?]]; try discriminate H.
    destruct k'; try discriminate H.
    destruct args' as [ | y [ | ? ?]]; try discriminate H.
    inversion IH as [ | ? ? IHx _]; subst.
    cbn in H. specialize (IHx y H I). cbn. congruence.
Qed.

Section signed_numerals.
Context {ext : externals}.

(** C1 fails on [itos(n) = "-5"]: [reduce_itos] tests neither digits
    nor sign, so with a numeral reader that reads ["-5"] as [-5] and
    prints it back, [reduce_eq] answers [true] with the single equality
    [n = -5] and empty sides.  No interpretation satisfies the original
    equation, since [itos] only produces digits, while the equality
    derived from it has a solution: the two are not equivalent. *)
Theorem reduce_eq_equates_minus_five (name : nat) :
  zencode [45; 53] = [45; 53] ->
  rational_of_string [45; 53] = (-5)%Z ->
  rational_to_string (-5)%Z = [45; 53] ->
  fst (reduce_eq [str.mk_itos (mk_const name Int_sort)]
         [str.mk_string [45; 53]] [] false)
  = Reduced ([], [], [(mk_const name Int_sort, autil.mk_numeral (-5))])
  /\ (forall I, seq_val I [str.mk_itos (mk_const name Int_sort)]
                <> seq_val I [str.mk_string [45; 53]])
  /\ (exists I, eqs_hold I [(mk_const name Int_sort, autil.mk_numeral (-5))]
                /\ seq_val I [] = seq_val I []).
Proof.
  intros Henc Hread Hprint. split; [ | split].
  - unfold reduce_eq. cbv zeta.
    change (remove_empty_and_concats [str.mk_itos (mk_const name Int_sort)])
      with [str.mk_itos (mk_const name Int_sort)].
    change (remove_empty_and_concats [str.mk_string [45; 53]])
      with [str.mk_string [45; 53]].
    assert (B : reduce_back [str.mk_itos (mk_const name Int_sort)]
                  [str.mk_string [45; 53]] []
                = Reduced ([str.mk_itos (mk_const name Int_sort)],
                           [str.mk_string [45; 53]], [])).
    { unfold reduce_back. cbn [weight fold_right str.is_string str.mk_itos
                                 str.mk_string length Nat.add rev app].
      cbn [reduce_back_loop reduce_back_step is_unit_b is_string_b str.is_unit
             str.is_string str.mk_itos str.mk_string andb].
      unfold reduce_back_round, expr_eqb.
      destruct (expr_eq_dec _ _) as [E | _]; [discriminate E | reflexivity]. }
    assert (F : reduce_front [str.mk_itos (mk_const name Int_sort)]
                  [str.mk_string [45; 53]] []
                = Reduced ([str.mk_itos (mk_const name Int_sort)],
                           [str.mk_string [45; 53]], [])).
    { unfold reduce_front. cbn [weight fold_right str.is_string str.mk_itos
                                 str.mk_string length Nat.add].
      cbn [reduce_front_loop reduce_front_step is_unit_b is_string_b str.is_unit
             str.is_string str.mk_itos str.mk_string andb].
      unfold reduce_front_round, expr_eqb.
      destruct (expr_eq_dec _ _) as [E | _]; [discriminate E | reflexivity]. }
    rewrite B. cbn [and_then]. rewrite F. cbn [and_then].
    assert (T : reduce_itos [str.mk_itos (mk_const name Int_sort)]
                  [str.mk_string [45; 53]] []
                = Reduced ([], [], [(mk_const name Int_sort,
                                      autil.mk_numeral (-5))])).
    { unfold reduce_itos.
      change (str.is_itos (str.mk_itos (mk_const name Int_sort)))
        with (Some (mk_const name Int_sort)).
      change (is_string_vec [str.mk_string [45; 53]] []) with (Some [45; 53]).
      cbv beta iota zeta. rewrite Henc, Hread, Hprint.
      destruct (list_eq_dec Nat.eq_dec [45; 53] [45; 53]) as [_ | N];
        [reflexivity | contradiction N; reflexivity]. }
    rewrite T. cbn [and_then]. reflexivity.
  - intros I H. unfold seq_val in H. cbn [flat_map] in H.
    rewrite !app_nil_r in H.
    change (eval I (str.mk_itos (mk_const name Int_sort)))
      with (VSeq (map VChar
                    (itos_sem (as_int (eval I (mk_const name Int_sort)))))) in H.
    change (eval I (str.mk_string [45; 53]))
      with (VSeq (map VChar [45; 53])) in H.
    cbn [as_seq] in H. apply map_VChar_inj in H.
    pose proof (itos_sem_digits (as_int (eval I (mk_const name Int_sort)))) as D.
    rewrite H in D. discriminate D.
  - exists (fun _ _ _ => VInt (-5)). split; [ | reflexivity].
    constructor; [reflexivity | constructor].
Qed.

End signed_numerals.

Lemma reduce_eq_equates_minus_five_witness :
  fst (reduce_eq (ext := examples.signed_manager)
         [str.mk_itos examples.num] [str.mk_string [45; 53]] [] false)
  = Reduced ([], [], [(examples.num, autil.mk_numeral (-5))])
  /\ (forall I, seq_val I [str.mk_itos examples.num]
                <> seq_val I [str.mk_string [45; 53]])
  /\ (exists I, eqs_hold I [(examples.num, autil.mk_numeral (-5))]
                /\ seq_val I [] = seq_val I []).
Proof.
  exact (@reduce_eq_equates_minus_five examples.signed_manager 10
           eq_refl eq_refl eq_refl).
Defined.

(** * Further properties

    ** The reductions of a word equation, one by one *)

(** X2. [remove_empty_and_concats] keeps the sequence a side denotes
    under every interpretation, and leaves no operand that is an empty
    sequence. *)
Theorem remove_empty_and_concats_denotes (es : list expr) :
  (forall I, seq_val I (remove_empty_and_concats es) = seq_val I es)
  /\ Forall (fun e => str.is_empty e = false) (remove_empty_and_concats es).
Proof.
  unfold remove_empty_and_concats.
  assert (F : (forall I, seq_val I (filter (fun e => negb (str.is_empty e)) es)
                         = seq_val I es)
              /\ Forall (fun e => str.is_empty e = false)
                   (filter (fun e => negb (str.is_empty e)) es)).
  { split.
    - intros I. induction es as [ | e es IH]; [reflexivity | ].
      cbn [filter]. destruct (str.is_empty e) eqn:E; cbn [negb].
      + rewrite seq_val_cons, (is_empty_eval I e E), IH. reflexivity.
      + rewrite !seq_val_cons, IH. reflexivity.
    - apply Forall_forall. intros x Hx. apply filter_In in Hx.
      destruct Hx as [_ Hx]. apply negb_true_iff in Hx. exact Hx. }
  destruct F as [F1 F2].
  destruct (existsb is_concat_b es); [ | split; assumption].
  split.
  - intros I. rewrite <- F1. clear.
    induction (filter (fun e => negb (str.is_empty e)) es) as [ | e l IH];
      [reflexivity | ].
    cbn [flat_map]. rewrite seq_val_app, get_concat_val, seq_val_cons, IH.
    reflexivity.
  - apply Forall_forall. intros x Hx. apply in_flat_map in Hx.
    destruct Hx as (e & _ & Hx). clear - Hx.
    induction e as [k ps args IH] using expr_ind.
    assert (Leaf : forall e0 : expr,
               In x (if str.is_empty e0 then [] else [e0]) ->
               str.is_empty x = false).
    { intros e0 H0. destruct (str.is_empty e0) eqn:E; [contradiction | ].
      destruct H0 as [<- | []]. exact E. }
    destruct k;
      try (match type of Hx with In _ (get_concat ?e) => exact (Leaf e Hx) end).
    destruct args as [ | a [ | b [ | c args]]];
      try (match type of Hx with In _ (get_concat ?e) => exact (Leaf e Hx) end).
    inversion IH as [ | ? ? IHa IH']; subst.
    inversion IH' as [ | ? ? IHb _]; subst.
    change (get_concat (App OP_SEQ_CONCAT ps [a; b]))
      with (get_concat a ++ get_concat b) in Hx.
    apply in_app_or in Hx. destruct Hx as [Hx | Hx]; auto.
Qed.

(** X8. [min_length] answers a length that every value of the side
    reaches, and when it answers [true] (the side is bounded) the side
    has exactly that length under every interpretation. *)
Theorem min_length_bounds (es : list expr) (I : interp) :
  snd (min_length es) <= length (seq_val I es)
  /\ (fst (min_length es) = true -> length (seq_val I es) = snd (min_length es)).
Proof.
  destruct (min_length_spec I es) as [H1 H2]. split; [exact H1 | ].
  intros B. apply (H2 B).
Qed.

Section stripping_properties.
Context {ext : externals}.
Hypothesis are_distinct_sound :
  forall a b, are_distinct a b = true -> forall I, eval I a <> eval I b.

(** X3. [reduce_front] on sides without empty operands: the loop ends
    without reading past a literal or a side; when it answers [true],
    the equalities it adds together with what is left of the two sides
    hold exactly when the equation it was given holds; when it answers
    [false], nothing satisfies that equation. *)
Theorem reduce_front_sound (ls rs : list expr) (eqs : list (expr * expr)) :
  Forall wf_operand ls -> Forall wf_operand rs ->
  match reduce_front ls rs eqs with
  | Reduced (ls', rs', eqs') =>
      exists new, eqs' = eqs ++ new
        /\ forall I, (eqs_hold I new /\ seq_val I ls' = seq_val I rs')
                     <-> seq_val I ls = seq_val I rs
  | Refuted => forall I, seq_val I ls <> seq_val I rs
  | Undefined => False
  end.
Proof.
  intros Hl Hr. pose proof (reduce_front_ok are_distinct_sound eqs Hl Hr) as H.
  destruct (reduce_front ls rs eqs) as [[[ls' rs'] eqs'] | | ];
    [ | exact H | exact H].
  destruct H as (_ & _ & H). exact H.
Qed.

(** X4. [reduce_back], which strips the two sides from their last
    operands: same guarantees as [reduce_front]. *)
Theorem reduce_back_sound (ls rs : list expr) (eqs : list (expr * expr)) :
  Forall wf_operand ls -> Forall wf_operand rs ->
  match reduce_back ls rs eqs with
  | Reduced (ls', rs', eqs') =>
      exists new, eqs' = eqs ++ new
        /\ forall I, (eqs_hold I new /\ seq_val I ls' = seq_val I rs')
                     <-> seq_val I ls = seq_val I rs
  | Refuted => forall I, seq_val I ls <> seq_val I rs
  | Undefined => False
  end.
Proof.
  intros Hl Hr. pose proof (reduce_back_ok are_distinct_sound eqs Hl Hr) as H.
  destruct (reduce_back ls rs eqs) as [[[ls' rs'] eqs'] | | ];
    [ | exact H | exact H].
  destruct H as (_ & _ & H). exact H.
Qed.

(** X7. When [reduce_non_overlap] answers [false], no interpretation
    makes the two sides equal: a run of units of [ls] would have to lie
    somewhere in [rs], and at every offset the oracle tells two units
    apart. *)
Theorem reduce_non_overlap_refutes (ls rs : list expr) (eqs : list (expr * expr)) :
  reduce_non_overlap ls rs eqs = false ->
  forall I, seq_val I ls <> seq_val I rs.
Proof. apply (reduce_non_overlap_sound are_distinct_sound). Qed.

End stripping_properties.

(** X5. [reduce_by_length] on sides without empty operands: it never
    reads the first operand of an empty side; its answer [false] is
    given only to equations nothing satisfies, and the equalities it
    adds on the answer [true] hold exactly when the equation does. *)
Theorem reduce_by_length_sound (ls rs : list expr)
  (eqs : list (expr * expr)) :
  Forall wf_operand ls -> Forall wf_operand rs ->
  match reduce_by_length ls rs eqs with
  | Reduced (ls', rs', eqs') =>
      exists new, eqs' = eqs ++ new
        /\ forall I, (eqs_hold I new /\ seq_val I ls' = seq_val I rs')
                     <-> seq_val I ls = seq_val I rs
  | Refuted => forall I, seq_val I ls <> seq_val I rs
  | Undefined => False
  end.
Proof.
  intros Hl Hr. pose proof (reduce_by_length_ok eqs Hl Hr) as H.
  destruct (reduce_by_length ls rs eqs) as [[[ls' rs'] eqs'] | | ];
    [ | exact H | exact H].
  destruct H as (_ & _ & H). exact H.
Qed.

(** X6. [reduce_subsequence] on sides without empty operands: when every
    operand of the shorter side is matched in the longer one, setting
    the unmatched operands to empty loses no solution and adds none, and
    the answer [false] is given only to equations nothing satisfies. *)
Theorem reduce_subsequence_sound (ls rs : list expr)
  (eqs : list (expr * expr)) :
  Forall wf_operand ls -> Forall wf_operand rs ->
  match reduce_subsequence ls rs eqs with
  | Reduced (ls', rs', eqs') =>
      exists new, eqs' = eqs ++ new
        /\ forall I, (eqs_hold I new /\ seq_val I ls' = seq_val I rs')
                     <-> seq_val I ls = seq_val I rs
  | Refuted => forall I, seq_val I ls <> seq_val I rs
  | Undefined => False
  end.
Proof.
  intros Hl Hr. pose proof (reduce_subsequence_ok eqs Hl Hr) as H.
  destruct (reduce_subsequence ls rs eqs) as [[[ls' rs'] eqs'] | | ];
    [ | exact H | exact H].
  destruct H as (_ & _ & H). exact H.
Qed.

(** The reductions at explicit inputs. *)
Lemma reduce_front_sound_witness :
  reduce_front (ext := examples.manager)
    [str.mk_string [97; 98]; examples.sx]
    [str.mk_unit examples.ch; str.mk_string [98]; examples.sx] []
  = Reduced ([], [], [(mk_char 97, examples.ch)])
  /\ forall I,
      (eqs_hold I [(mk_char 97, examples.ch)] /\ seq_val I [] = seq_val I [])
      <-> seq_val I [str.mk_string [97; 98]; examples.sx]
          = seq_val I [str.mk_unit examples.ch; str.mk_string [98]; examples.sx].
Proof.
  assert (R : reduce_front (ext := examples.manager)
                [str.mk_string [97; 98]; examples.sx]
                [str.mk_unit examples.ch; str.mk_string [98]; examples.sx] []
              = Reduced ([], [], [(mk_char 97, examples.ch)]))
    by (vm_compute; reflexivity).
  split; [exact R | ].
  pose proof (@reduce_front_sound examples.manager
                (fun a b => literals_distinct_sound a b)
                [str.mk_string [97; 98]; examples.sx]
                [str.mk_unit examples.ch; str.mk_string [98]; examples.sx] []
                ltac:(repeat constructor) ltac:(repeat constructor)) as H.
  rewrite R in H. destruct H as (new & E & H).
  simpl in E. subst new. exact H.
Defined.

Lemma reduce_back_sound_witness :
  reduce_back (ext := examples.manager)
    [examples.sx; str.mk_string [97; 98]]
    [examples.sy; str.mk_string [97; 99]] []
  = Refuted
  /\ forall I,
      seq_val I [examples.sx; str.mk_string [97; 98]]
      <> seq_val I [examples.sy; str.mk_string [97; 99]].
Proof.
  assert (R : reduce_back (ext := examples.manager)
                [examples.sx; str.mk_string [97; 98]]
                [examples.sy; str.mk_string [97; 99]] []
              = Refuted)
    by (vm_compute; reflexivity).
  split; [exact R | ].
  pose proof (@reduce_back_sound examples.manager
                (fun a b => literals_distinct_sound a b)
                [examples.sx; str.mk_string [97; 98]]
                [examples.sy; str.mk_string [97; 99]] []
                ltac:(repeat constructor) ltac:(repeat constructor)) as H.
  rewrite R in H. exact H.
Defined.

Lemma reduce_by_length_sound_witness :
  reduce_by_length [str.mk_string [97]]
    [examples.sx; str.mk_unit examples.ch; examples.sy;
     str.mk_unit (mk_char 98)] []
  = Refuted
  /\ forall I,
      seq_val I [str.mk_string [97]]
      <> seq_val I [examples.sx; str.mk_unit examples.ch; examples.sy;
                    str.mk_unit (mk_char 98)].
Proof.
  assert (R : reduce_by_length [str.mk_string [97]]
                [examples.sx; str.mk_unit examples.ch; examples.sy;
                 str.mk_unit (mk_char 98)] []
              = Refuted)
    by (vm_compute; reflexivity).
  split; [exact R | ].
  pose proof (@reduce_by_length_sound
                [str.mk_string [97]]
                [examples.sx; str.mk_unit examples.ch; examples.sy;
                 str.mk_unit (mk_char 98)] []
                ltac:(repeat constructor) ltac:(repeat constructor)) as H.
  rewrite R in H. exact H.
Defined.

Lemma reduce_subsequence_sound_witness :
  reduce_subsequence [examples.sx] [examples.sx; examples.sy] []
  = Reduced ([], [],
             [(str.mk_empty examples.string_sort, examples.sy);
              (examples.sx, examples.sx)])
  /\ forall I,
      (eqs_hold I [(str.mk_empty examples.string_sort, examples.sy);
                   (examples.sx, examples.sx)]
       /\ seq_val I [] = seq_val I [])
      <-> seq_val I [examples.sx] = seq_val I [examples.sx; examples.sy].
Proof.
  assert (R : reduce_subsequence [examples.sx] [examples.sx; examples.sy] []
              = Reduced ([], [],
                         [(str.mk_empty examples.string_sort, examples.sy);
                          (examples.sx, examples.sx)]))
    by (vm_compute; reflexivity).
  split; [exact R | ].
  pose proof (@reduce_subsequence_sound
                [examples.sx] [examples.sx; examples.sy] []
                ltac:(repeat constructor) ltac:(repeat constructor)) as H.
  rewrite R in H. destruct H as (new & E & H).
  simpl in E. subst new. exact H.
Defined.

Lemma reduce_non_overlap_refutes_witness :
  reduce_non_overlap (ext := examples.manager)
    [examples.sx; str.mk_unit (mk_char 97); str.mk_unit (mk_char 98);
     examples.sy]
    [str.mk_unit (mk_char 99); str.mk_unit (mk_char 99)] [] = false
  /\ forall I,
      seq_val I [examples.sx; str.mk_unit (mk_char 97);
                 str.mk_unit (mk_char 98); examples.sy]
      <> seq_val I [str.mk_unit (mk_char 99); str.mk_unit (mk_char 99)].
Proof.
  split; [reflexivity | ].
  exact (@reduce_non_overlap_refutes examples.manager
           (fun a b => literals_distinct_sound a b)
           [examples.sx; str.mk_unit (mk_char 97); str.mk_unit (mk_char 98);
            examples.sy]
           [str.mk_unit (mk_char 99); str.mk_unit (mk_char 99)] [] eq_refl).
Defined.

(** ** The reduction as a whole, without integer-to-string conversions *)


Lemma itos_free_not_itos (e : expr) : itos_free e = true -> not_itos e.
Proof.
  destruct e as [k ps args]. destruct k; try reflexivity.
  intros H. discriminate H.
Qed.

Lemma get_concat_not_itos (e : expr) :
  itos_free e = true -> Forall not_itos (get_concat e).
Proof.
  induction e as [k ps args IH] using expr_ind. intros H.
  assert (Leaf : forall e0, itos_free e0 = true ->
             Forall not_itos (if str.is_empty e0 then [] else [e0])).
  { intros e0 H0. destruct (str.is_empty e0); constructor;
      [apply itos_free_not_itos; exact H0 | constructor]. }
  destruct k;
    try (match goal with |- Forall _ (get_concat ?e) => exact (Leaf e H) end).
  destruct args as [ | a [ | b [ | c args]]];
    try (match goal with |- Forall _ (get_concat ?e) => exact (Leaf e H) end).
  inversion IH as [ | ? ? IHa IH']; subst.
  inversion IH' as [ | ? ? IHb _]; subst.
  change (get_concat (App OP_SEQ_CONCAT ps [a; b]))
    with (get_concat a ++ get_concat b).
  cbn [itos_free] in H. apply andb_true_iff in H. destruct H as [Ha Hb].
  apply Forall_app. split; auto.
Qed.

Lemma remove_empty_and_concats_not_itos (es : list expr) :
  Forall (fun e => itos_free e = true) es ->
  Forall not_itos (remove_empty_and_concats es).
Proof.
  intros H. unfold remove_empty_and_concats.
  assert (F : Forall (fun e => itos_free e = true)
                (filter (fun e => negb (str.is_empty e)) es)).
  { apply Forall_forall. intros x Hx. apply filter_In in Hx.
    rewrite Forall_forall in H. apply H. apply Hx. }
  destruct (existsb is_concat_b es).
  - induction F as [ | e l He _ IH]; [constructor | ].
    cbn [flat_map]. apply Forall_app. split; [ | exact IH].
    apply get_concat_not_itos. exact He.
  - eapply Forall_impl; [ | exact F]. apply itos_free_not_itos.
Qed.

Section keeps.
Context {ext : externals}.
Variable Q : expr -> Prop.
Hypothesis Q_string : forall s, Q (str.mk_string s).

Lemma reduce_front_round_keeps (l : expr) (ls : list expr) (r : expr)
  (rs : list expr) (eqs : list (expr * expr)) :
  Q l -> Forall Q ls -> Q r -> Forall Q rs ->
  round_sides_of Q (reduce_front_round l ls r rs eqs).
Proof.
  intros Hl Hls Hr Hrs. unfold reduce_front_round.
  repeat match goal with
         | |- round_sides_of _ (match ?x with _ => _ end) => destruct x
         | |- round_sides_of _ (if ?x then _ else _) => destruct x
         end;
    cbn [round_sides_of sides_of]; auto;
    split; repeat match goal with
                  | |- Forall _ (if ?x then _ else _) => destruct x
                  | |- Forall _ (_ :: _) => constructor
                  end; auto.
Qed.

Lemma reduce_back_round_keeps (l : expr) (ls : list expr) (r : expr)
  (rs : list expr) (eqs : list (expr * expr)) :
  Q l -> Forall Q ls -> Q r -> Forall Q rs ->
  round_sides_of Q (reduce_back_round l ls r rs eqs).
Proof.
  intros Hl Hls Hr Hrs. unfold reduce_back_round.
  repeat match goal with
         | |- round_sides_of _ (match ?x with _ => _ end) => destruct x
         | |- round_sides_of _ (if ?x then _ else _) => destruct x
         end;
    cbn [round_sides_of sides_of]; auto;
    split; repeat match goal with
                  | |- Forall _ (if ?x then _ else _) => destruct x
                  | |- Forall _ (_ :: _) => constructor
                  end; auto.
Qed.

Lemma reduce_front_step_keeps (ls rs : list expr) (eqs : list (expr * expr)) :
  Forall Q ls -> Forall Q rs ->
  round_sides_of Q (reduce_front_step ls rs eqs).
Proof.
  intros Hls Hrs. unfold reduce_front_step.
  destruct ls as [ | l ls]; [simpl; auto | ].
  destruct rs as [ | r rs]; [simpl; auto | ].
  inversion Hls; subst. inversion Hrs; subst.
  destruct (is_unit_b r && is_string_b l);
    apply reduce_front_round_keeps; assumption.
Qed.

Lemma reduce_back_step_keeps (ls rs : list expr) (eqs : list (expr * expr)) :
  Forall Q ls -> Forall Q rs ->
  round_sides_of Q (reduce_back_step ls rs eqs).
Proof.
  intros Hls Hrs. unfold reduce_back_step.
  destruct ls as [ | l ls]; [simpl; auto | ].
  destruct rs as [ | r rs]; [simpl; auto | ].
  inversion Hls; subst. inversion Hrs; subst.
  destruct (is_unit_b r && is_string_b l);
    apply reduce_back_round_keeps; assumption.
Qed.

Lemma reduce_front_loop_keeps (fuel : nat) :
  forall ls rs eqs, Forall Q ls -> Forall Q rs ->
    sides_of Q (reduce_front_loop fuel ls rs eqs).
Proof.
  induction fuel as [ | fuel IH]; intros ls rs eqs Hls Hrs;
    pose proof (reduce_front_step_keeps eqs Hls Hrs) as K;
    cbn [reduce_front_loop];
    destruct (reduce_front_step ls rs eqs) as [[[ls' rs'] eqs'] | res];
    try exact K; [exact I | ].
  destruct K as [K1 K2]. apply IH; assumption.
Qed.

Lemma reduce_back_loop_keeps (fuel : nat) :
  forall ls rs eqs, Forall Q ls -> Forall Q rs ->
    sides_of Q (reduce_back_loop fuel ls rs eqs).
Proof.
  induction fuel as [ | fuel IH]; intros ls rs eqs Hls Hrs;
    pose proof (reduce_back_step_keeps eqs Hls Hrs) as K;
    cbn [reduce_back_loop];
    destruct (reduce_back_step ls rs eqs) as [[[ls' rs'] eqs'] | res];
    try exact K; [exact I | ].
  destruct K as [K1 K2]. apply IH; assumption.
Qed.

Lemma reduce_front_keeps (ls rs : list expr) (eqs : list (expr * expr)) :
  Forall Q ls -> Forall Q rs -> sides_of Q (reduce_front ls rs eqs).
Proof. apply reduce_front_loop_keeps. Qed.

Lemma reduce_back_keeps (ls rs : list expr) (eqs : list (expr * expr)) :
  Forall Q ls -> Forall Q rs -> sides_of Q (reduce_back ls rs eqs).
Proof.
  intros Hls Hrs. unfold reduce_back.
  pose proof (@reduce_back_loop_keeps (weight ls + weight rs) (rev ls) (rev rs)
                eqs (Forall_rev Hls) (Forall_rev Hrs)) as K.
  destruct (reduce_back_loop _ _ _ _) as [[[ls' rs'] eqs'] | | ];
    [ | exact I | exact I].
  destruct K as [K1 K2]. split; apply Forall_rev; assumption.
Qed.

End keeps.

Lemma reduce_itos_not_itos {ext : externals} (ls rs : list expr)
  (eqs : list (expr * expr)) :
  Forall not_itos ls -> reduce_itos ls rs eqs = Reduced (ls, rs, eqs).
Proof.
  intros H. unfold reduce_itos.
  destruct ls as [ | l0 [ | ? ?]]; try reflexivity.
  inversion H as [ | ? ? H0 _]; subst. unfold not_itos in H0. rewrite H0.
  reflexivity.
Qed.

Section reduce_eq_itos_free.
Context {ext : externals}.
Hypothesis are_distinct_sound :
  forall a b, are_distinct a b = true -> forall I, eval I a <> eval I b.

Lemma reduce_eq_refines_itos_free (ls rs : list expr)
  (eqs : list (expr * expr)) (change : bool) :
  Forall (fun e => weq_operand e = true) ls ->
  Forall (fun e => weq_operand e = true) rs ->
  Forall (fun e => itos_free e = true) ls ->
  Forall (fun e => itos_free e = true) rs ->
  weq_refines seq_val ls rs eqs (fst (reduce_eq ls rs eqs change)).
Proof.
  intros Hl Hr Fl Fr.
  destruct (remove_empty_and_concats_spec Hl) as [Wl Vl].
  destruct (remove_empty_and_concats_spec Hr) as [Wr Vr].
  pose proof (remove_empty_and_concats_not_itos Fl) as Ql.
  pose proof (remove_empty_and_concats_not_itos Fr) as Qr.
  unfold reduce_eq. cbv zeta.
  set (ls1 := remove_empty_and_concats ls) in *.
  set (rs1 := remove_empty_and_concats rs) in *.
  match goal with
  | |- weq_refines _ _ _ _ (fst (match ?r with _ => _ end)) =>
      assert (R : weq_refines seq_val ls1 rs1 eqs r); [ | set (res := r) in * ]
  end.
  { pose proof (reduce_back_ok are_distinct_sound eqs Wl Wr) as B.
    pose proof (@reduce_back_keeps _ not_itos (fun s => eq_refl) ls1 rs1 eqs Ql Qr)
      as KB.
    destruct (reduce_back ls1 rs1 eqs) as [[[ls2 rs2] eqs2] | | ];
      [ | exact B | exact B].
    cbn [and_then]. eapply weq_refines_trans; [exact B | ].
    destruct B as (Wl2 & Wr2 & _). destruct KB as [Ql2 Qr2].
    pose proof (reduce_front_ok are_distinct_sound eqs2 Wl2 Wr2) as F.
    pose proof (@reduce_front_keeps _ not_itos (fun s => eq_refl) ls2 rs2 eqs2
                  Ql2 Qr2) as KF.
    destruct (reduce_front ls2 rs2 eqs2) as [[[ls3 rs3] eqs3] | | ];
      [ | exact F | exact F].
    cbn [and_then]. eapply weq_refines_trans; [exact F | ].
    destruct F as (Wl3 & Wr3 & _). destruct KF as [Ql3 Qr3].
    rewrite (reduce_itos_not_itos rs3 eqs3 Ql3). cbn [and_then].
    rewrite (reduce_itos_not_itos ls3 eqs3 Qr3). cbn [and_then].
    apply weq_refines_and_then; [apply reduce_by_length_ok; assumption | ].
    intros ls6 rs6 eqs6 Hl6 Hr6. cbv beta iota.
    apply weq_refines_and_then; [apply reduce_subsequence_ok; assumption | ].
    intros ls7 rs7 eqs7 Hl7 Hr7. cbv beta iota.
    apply reduce_non_overlap_ok; assumption. }
  assert (F : fst (match res with
                   | Reduced (ls', rs', eqs') =>
                       (res,
                        negb (vector_hash ls =? vector_hash ls')
                        || negb (vector_hash rs =? vector_hash rs')
                        || negb (length eqs' =? length eqs))
                   | _ => (res, change)
                   end) = res)
    by (destruct res as [[[? ?] ?] | | ]; reflexivity).
  rewrite F. clear F.
  destruct res as [[[ls' rs'] eqs'] | | ]; simpl in *.
  - destruct R as (Hl' & Hr' & new & -> & H). repeat split; try assumption.
    exists new. split; [reflexivity | ].
    intros I. rewrite (H I), (Vl I), (Vr I). reflexivity.
  - intros I. rewrite <- (Vl I), <- (Vr I). apply R.
  - exact R.
Qed.

End reduce_eq_itos_free.

(** X1. On sides made of sequence operands none of which is an
    integer-to-string conversion, and whatever the numeral reader does,
    [reduce_eq] is a sound and complete reducer: when the answer is
    [true], the equalities added to [eqs] together with the residual
    equation [ls' = rs'] hold under exactly the interpretations under
    which [ls = rs] holds; when the answer is [false], no interpretation
    satisfies [ls = rs]; and the reduction never reads past the end of a
    literal or of a side.  The oracle [are_distinct] is taken to tell
    apart only terms of different values. *)
Theorem reduce_eq_sound_itos_free {ext : externals}
  (ls rs : list expr) (eqs : list (expr * expr)) (change : bool) :
  (forall a b, are_distinct a b = true -> forall I, eval I a <> eval I b) ->
  Forall (fun e => weq_operand e = true) ls ->
  Forall (fun e => weq_operand e = true) rs ->
  Forall (fun e => itos_free e = true) ls ->
  Forall (fun e => itos_free e = true) rs ->
  match fst (reduce_eq ls rs eqs change) with
  | Reduced (ls', rs', eqs') =>
      exists new, eqs' = eqs ++ new
        /\ forall I, (eqs_hold I new /\ seq_val I ls' = seq_val I rs')
                     <-> seq_val I ls = seq_val I rs
  | Refuted => forall I, seq_val I ls <> seq_val I rs
  | Undefined => False
  end.
Proof.
  intros Hd Hl Hr Fl Fr.
  pose proof (reduce_eq_refines_itos_free Hd eqs change Hl Hr Fl Fr) as H.
  destruct (fst (reduce_eq ls rs eqs change)) as [[[ls' rs'] eqs'] | | ];
    [ | exact H | exact H].
  destruct H as (_ & _ & H). exact H.
Qed.

Lemma reduce_eq_sound_itos_free_witness :
  fst (reduce_eq (ext := examples.signed_manager)
         [str.mk_string [97; 98]; examples.sx]
         [str.mk_unit examples.ch; str.mk_string [98]; examples.sx] [] false)
  = Reduced ([], [], [(mk_char 97, examples.ch)])
  /\ forall I,
      (eqs_hold I [(mk_char 97, examples.ch)] /\ seq_val I [] = seq_val I [])
      <-> seq_val I [str.mk_string [97; 98]; examples.sx]
          = seq_val I [str.mk_unit examples.ch; str.mk_string [98]; examples.sx].
Proof.
  assert (R : fst (reduce_eq (ext := examples.signed_manager)
                     [str.mk_string [97; 98]; examples.sx]
                     [str.mk_unit examples.ch; str.mk_string [98]; examples.sx]
                     [] false)
              = Reduced ([], [], [(mk_char 97, examples.ch)]))
    by (vm_compute; reflexivity).
  split; [exact R | ].
  pose proof (@reduce_eq_sound_itos_free examples.signed_manager
                [str.mk_string [97; 98]; examples.sx]
                [str.mk_unit examples.ch; str.mk_string [98]; examples.sx]
                [] false
                (fun a b => literals_distinct_sound a b)
                ltac:(repeat constructor) ltac:(repeat constructor)
                ltac:(repeat constructor) ltac:(repeat constructor)) as H.
  rewrite R in H. destruct H as (new & E & H).
  simpl in E. subst new. exact H.
Defined.

(** ** The if-then-else canonicalizer: termination and form of the result *)

Section combine_form.
Context {ext : externals}.

(** The cases of the if-then-else mode, with what the tests have
    established when a case is taken. *)
Lemma combine_step_ite_tests (a b cnd : expr) :
  let settled e :=
    match is_ite e with
    | Some (c, _, _) => get_id c <= get_id cnd /\ c <> cnd
    | None => True
    end in
  match combine_step_of OP_ITE a b (Some cnd) with
  | Push x1 y1 x2 y2 inner outer_k oc =>
      inner = Some cnd /\ outer_k = OP_ITE /\ get_id cnd < get_id oc
      /\ ((exists ps, a = App OP_ITE ps [oc; x1; x2] /\ y1 = b /\ y2 = b)
          \/ (exists ps, b = App OP_ITE ps [oc; y1; y2] /\ x1 = a /\ x2 = a))
  | Collapse x y =>
      (exists ps a2, a = App OP_ITE ps [cnd; x; a2] /\ y = b)
      \/ (exists ps b1, b = App OP_ITE ps [cnd; b1; y] /\ x = a)
  | Leaf r => r = mk_ite cnd a b /\ settled a /\ settled b
  | Crash => False
  end.
Proof.
  intros settled. unfold combine_step_of.
  destruct (decl_kind_eq_dec OP_ITE OP_ITE) as [_ | NE]; [ | contradiction].
  assert (Test : forall c, (get_id cnd <? get_id c) = false ->
                           expr_eqb cnd c = false ->
                           get_id c <= get_id cnd /\ c <> cnd).
  { intros c H1 H2. apply Nat.ltb_ge in H1. split; [exact H1 | ].
    intros ->. rewrite expr_eqb_refl in H2. discriminate. }
  destruct (is_ite a) as [[[acond a1] a2] | ] eqn:Ea.
  - destruct (is_ite_some _ Ea) as (ps & ->).
    destruct (get_id cnd <? get_id acond) eqn:Elt.
    { apply Nat.ltb_lt in Elt. repeat split; eauto. }
    destruct (expr_eqb cnd acond) eqn:Eeq.
    { apply expr_eqb_eq in Eeq. subst acond. left. eauto. }
    assert (Sa : settled (App OP_ITE ps [acond; a1; a2]))
      by (unfold settled; rewrite Ea; apply Test; assumption).
    destruct (is_ite b) as [[[bcond b1] b2] | ] eqn:Eb.
    + destruct (is_ite_some _ Eb) as (ps' & ->).
      destruct (get_id cnd <? get_id bcond) eqn:Elt'.
      { apply Nat.ltb_lt in Elt'. repeat split; eauto. }
      destruct (expr_eqb cnd bcond) eqn:Eeq'.
      { apply expr_eqb_eq in Eeq'. subst bcond. right. eauto. }
      split; [reflexivity | ]. split; [exact Sa | ].
      unfold settled. rewrite Eb. apply Test; assumption.
    + split; [reflexivity | ]. split; [exact Sa | ].
      unfold settled. rewrite Eb. exact I.
  - assert (Sa : settled a) by (unfold settled; rewrite Ea; exact I).
    destruct (is_ite b) as [[[bcond b1] b2] | ] eqn:Eb.
    + destruct (is_ite_some _ Eb) as (ps' & ->).
      destruct (get_id cnd <? get_id bcond) eqn:Elt'.
      { apply Nat.ltb_lt in Elt'. repeat split; eauto. }
      destruct (expr_eqb cnd bcond) eqn:Eeq'.
      { apply expr_eqb_eq in Eeq'. subst bcond. right. eauto. }
      split; [reflexivity | ]. split; [exact Sa | ].
      unfold settled. rewrite Eb. apply Test; assumption.
    + split; [reflexivity | ]. split; [exact Sa | ].
      unfold settled. rewrite Eb. exact I.
Qed.

Lemma bdd_below_ite (bound : option nat) ps c t el :
  bdd_below bound (App OP_ITE ps [c; t; el]) = true
  <-> below bound (get_id c)
      /\ bdd_below (Some (get_id c)) t = true
      /\ bdd_below (Some (get_id c)) el = true.
Proof.
  cbn [bdd_below]. rewrite !andb_true_iff.
  destruct bound as [n | ]; cbn [below]; [rewrite Nat.ltb_lt | ]; tauto.
Qed.

Lemma bdd_below_not_ite (bound bound' : option nat) (e : expr) :
  is_ite e = None -> bdd_below bound e = true ->
  bdd_below bound' e = true /\ ite_free e = true.
Proof.
  intros Hi H. destruct e as [k ps args].
  destruct k; try (split; exact H).
  destruct args as [ | c [ | t [ | el [ | x args]]]];
    try discriminate Hi; split; exact H.
Qed.

Lemma bdd_below_weaken (n : nat) (e : expr) (bound : option nat) :
  bdd_below (Some n) e = true -> below bound n -> bdd_below bound e = true.
Proof.
  intros H B. destruct (is_ite e) as [[[c t] el] | ] eqn:Ei.
  - destruct (is_ite_some _ Ei) as (ps & ->).
    apply bdd_below_ite in H. destruct H as (Hc & Ht & Hel).
    apply bdd_below_ite. split; [ | split; assumption].
    cbn [below] in Hc. destruct bound as [m | ]; cbn [below] in *; [lia | exact I].
  - apply (bdd_below_not_ite (Some n) bound e Ei H).
Qed.

Lemma ite_conds_ite ps c t el :
  ite_conds (App OP_ITE ps [c; t; el]) = c :: ite_conds t ++ ite_conds el.
Proof. reflexivity. Qed.

Lemma ite_conds_not_ite (e : expr) : is_ite e = None -> ite_conds e = [].
Proof.
  intros Hi. destruct e as [k ps args]. destruct k; try reflexivity.
  destruct args as [ | c [ | t [ | el [ | x args]]]];
    try reflexivity; discriminate Hi.
Qed.

Section known_conditions.
Variable conds : list expr.
Hypothesis get_id_inj :
  forall x y, In x conds -> In y conds -> get_id x = get_id y -> x = y.

Lemma bdd_within_branches bound ps c t el :
  bdd_within conds bound (App OP_ITE ps [c; t; el]) ->
  In c conds /\ below bound (get_id c)
  /\ bdd_within conds (Some (get_id c)) t /\ bdd_within conds (Some (get_id c)) el.
Proof.
  intros [H1 H2]. apply bdd_below_ite in H1. destruct H1 as (Hc & Ht & Hel).
  rewrite ite_conds_ite in H2.
  split; [apply H2; left; reflexivity | ]. split; [exact Hc | ].
  split; (split; [assumption | ]); intros x Hx; apply H2; right;
    apply in_or_app; [left | right]; exact Hx.
Qed.

Lemma bdd_within_weaken n e bound :
  bdd_within conds (Some n) e -> below bound n -> bdd_within conds bound e.
Proof.
  intros [H1 H2] B. split; [eapply bdd_below_weaken; eassumption | exact H2].
Qed.

(** An operand the tests of the if-then-else mode have passed over lies
    below the condition. *)
Lemma settled_below (bound : option nat) (cnd e : expr) :
  In cnd conds -> bdd_within conds bound e ->
  match is_ite e with
  | Some (c, _, _) => get_id c <= get_id cnd /\ c <> cnd
  | None => True
  end ->
  bdd_within conds (Some (get_id cnd)) e.
Proof.
  intros Hc He S. destruct (is_ite e) as [[[c t] el] | ] eqn:Ei.
  - destruct (is_ite_some _ Ei) as (ps & ->). destruct S as [Le Ne].
    destruct (bdd_within_branches He) as (Hin & _ & Ht & Hel).
    split; [ | exact (proj2 He)].
    apply bdd_below_ite. cbn [below].
    split; [ | split; [exact (proj1 Ht) | exact (proj1 Hel)]].
    destruct (Nat.eq_dec (get_id c) (get_id cnd)) as [E | NE]; [ | lia].
    destruct (Ne (get_id_inj c cnd Hin Hc E)).
  - split; [ | exact (proj2 He)].
    apply (bdd_below_not_ite bound (Some (get_id cnd)) e Ei (proj1 He)).
Qed.

Lemma combine_spec_bdd k a b cond r :
  combine_spec k a b cond r ->
  forall bound,
    bdd_within conds bound a -> bdd_within conds bound b ->
    (forall cnd, cond = Some cnd -> In cnd conds /\ below bound (get_id cnd)) ->
    (k = OP_ITE -> cond <> None) ->
    bdd_within conds bound r.
Proof.
  induction 1 as [k a b cond x1 y1 x2 y2 inner ok oc r1 r2 r Hs S1 IH1 S2 IH2 S3 IH3
                 | k a b cond x y r Hs S1 IH
                 | k a b cond r Hs];
    intros bound Ha Hb Hcond Hmode.
  - destruct (decl_kind_eq_dec k OP_ITE) as [-> | NE].
    + destruct cond as [cnd | ]; [ | destruct (Hmode eq_refl eq_refl)].
      destruct (Hcond cnd eq_refl) as [Hin Hlt].
      pose proof (combine_step_ite_tests a b cnd) as T. cbv zeta in T.
      rewrite Hs in T. destruct T as (-> & -> & Hlt' & Shape).
      assert (Hoc : In oc conds /\ below bound (get_id oc)
                    /\ bdd_within conds bound x1 /\ bdd_within conds bound y1
                    /\ bdd_within conds bound x2 /\ bdd_within conds bound y2).
      { destruct Shape as [(ps & -> & -> & ->) | (ps & -> & -> & ->)].
        - destruct (bdd_within_branches Ha) as (I1 & I2 & I3 & I4).
          repeat split; try assumption;
            try (eapply bdd_within_weaken; [eassumption | exact I2]);
            apply Hb.
        - destruct (bdd_within_branches Hb) as (I1 & I2 & I3 & I4).
          repeat split; try assumption;
            try (eapply bdd_within_weaken; [eassumption | exact I2]);
            apply Ha. }
      destruct Hoc as (O1 & O2 & X1 & Y1 & X2 & Y2).
      apply IH3.
      * apply IH1; assumption.
      * apply IH2; assumption.
      * intros c Hc. inversion Hc; subst. split; assumption.
      * discriminate.
    + pose proof (combine_step_binary a b cond NE) as T.
      rewrite Hs in T. destruct T as (-> & -> & Shape).
      assert (Hoc : In oc conds /\ below bound (get_id oc)
                    /\ bdd_within conds bound x1 /\ bdd_within conds bound y1
                    /\ bdd_within conds bound x2 /\ bdd_within conds bound y2).
      { destruct Shape as [(ps & -> & -> & ->) | (ps & -> & -> & ->)].
        - destruct (bdd_within_branches Ha) as (I1 & I2 & I3 & I4).
          repeat split; try assumption;
            try (eapply bdd_within_weaken; [eassumption | exact I2]);
            apply Hb.
        - destruct (bdd_within_branches Hb) as (I1 & I2 & I3 & I4).
          repeat split; try assumption;
            try (eapply bdd_within_weaken; [eassumption | exact I2]);
            apply Ha. }
      destruct Hoc as (O1 & O2 & X1 & Y1 & X2 & Y2).
      apply IH3.
      * apply IH1; try assumption; [discriminate | intros E; contradiction].
      * apply IH2; try assumption; [discriminate | intros E; contradiction].
      * intros c Hc. inversion Hc; subst. split; assumption.
      * discriminate.
  - destruct (decl_kind_eq_dec k OP_ITE) as [-> | NE].
    + destruct cond as [cnd | ]; [ | destruct (Hmode eq_refl eq_refl)].
      pose proof (combine_step_ite_tests a b cnd) as T. cbv zeta in T.
      rewrite Hs in T.
      apply IH; try assumption.
      * destruct T as [(ps & a2 & -> & ->) | (ps & b1 & -> & ->)];
          [ | exact Ha].
        destruct (bdd_within_branches Ha) as (I1 & I2 & I3 & I4).
        eapply bdd_within_weaken; eassumption.
      * destruct T as [(ps & a2 & -> & ->) | (ps & b1 & -> & ->)];
          [exact Hb | ].
        destruct (bdd_within_branches Hb) as (I1 & I2 & I3 & I4).
        eapply bdd_within_weaken; eassumption.
    + pose proof (combine_step_binary a b cond NE) as T.
      rewrite Hs in T. destruct T.
  - destruct (decl_kind_eq_dec k OP_ITE) as [-> | NE].
    + destruct cond as [cnd | ]; [ | destruct (Hmode eq_refl eq_refl)].
      destruct (Hcond cnd eq_refl) as [Hin Hlt].
      pose proof (combine_step_ite_tests a b cnd) as T. cbv zeta in T.
      rewrite Hs in T. destruct T as (-> & Sa & Sb).
      pose proof (@settled_below bound cnd a Hin Ha Sa) as A.
      pose proof (@settled_below bound cnd b Hin Hb Sb) as B.
      split.
      * apply bdd_below_ite. split; [exact Hlt | ].
        split; [exact (proj1 A) | exact (proj1 B)].
      * unfold mk_ite. rewrite ite_conds_ite. intros x [<- | Hx]; [exact Hin | ].
        apply in_app_or in Hx. destruct Hx as [Hx | Hx];
          [apply (proj2 Ha) | apply (proj2 Hb)]; exact Hx.
    + pose proof (combine_step_binary a b cond NE) as T.
      rewrite Hs in T. subst r.
      unfold combine_step_of in Hs.
      destruct (decl_kind_eq_dec k OP_ITE) as [E | _]; [contradiction | ].
      destruct (is_ite a) as [[[? ?] ?] | ] eqn:Ea; [discriminate Hs | ].
      destruct (is_ite b) as [[[? ?] ?] | ] eqn:Eb; [discriminate Hs | ].
      destruct (bdd_below_not_ite bound bound a Ea (proj1 Ha)) as [_ Fa].
      destruct (bdd_below_not_ite bound bound b Eb (proj1 Hb)) as [_ Fb].
      split.
      * unfold mk_app. destruct k; try contradiction; try reflexivity;
          cbn; rewrite Fa, Fb; reflexivity.
      * unfold mk_app. destruct k; try contradiction;
          intros x Hx; destruct Hx.
Qed.

End known_conditions.

(** X9. [combine_ites] returns on every input that respects the
    precondition on its mode (a condition comes with [OP_ITE]): some
    amount of fuel is enough from every cache, and every call that
    returns, from whatever cache and with whatever fuel, returns the
    same term. *)
Theorem combine_ites_returns (k : decl_kind) (a b : expr) (cond : option expr) :
  (k = OP_ITE -> cond <> None) ->
  exists fuel r,
    (forall c, exists c', combine_ites fuel k a b cond c = Done r c')
    /\ (forall fuel' c r' c',
          combine_ites fuel' k a b cond c = Done r' c' -> r' = r).
Proof.
  intros Hpre. destruct (combine_spec_total a b Hpre) as [r Hr].
  destruct (combine_ites_complete Hr) as [fuel Hf].
  exists fuel, r. split.
  - intros c. apply Hf; [apply Nat.le_refl | apply cache_all_any].
  - intros fuel' c r' c' H.
    destruct (combine_ites_sound _ _ _ _ _ (@cache_all_any combine_entry c) H)
      as [Hr' _].
    eapply combine_spec_functional; eassumption.
Qed.

(** X10. The postcondition of [combine_ites]: when the operands are in
    BDD form, so is the result, and its conditions are among those of
    the operands and the condition given.  Identifiers are taken to tell
    the conditions apart. *)
Theorem combine_ites_bdd (conds : list expr) (fuel : nat) (k : decl_kind)
  (a b : expr) (cond : option expr) (c : op_cache) (r : expr) (c' : op_cache) :
  (forall x y, In x conds -> In y conds -> get_id x = get_id y -> x = y) ->
  (k = OP_ITE -> cond <> None) ->
  (forall cnd, cond = Some cnd -> In cnd conds) ->
  is_bdd_form a = true -> incl (ite_conds a) conds ->
  is_bdd_form b = true -> incl (ite_conds b) conds ->
  combine_ites fuel k a b cond c = Done r c' ->
  is_bdd_form r = true /\ incl (ite_conds r) conds.
Proof.
  intros Hinj Hpre Hcond Ha Ia Hb Ib H.
  destruct (combine_ites_sound _ _ _ _ _ (@cache_all_any combine_entry c) H)
    as [Hr _].
  apply (@combine_spec_bdd conds Hinj k a b cond r Hr None).
  - split; assumption.
  - split; assumption.
  - intros cnd E. split; [apply Hcond; exact E | exact I].
  - exact Hpre.
Qed.

End combine_form.

Lemma combine_ites_returns_witness :
  exists fuel r,
    (forall c, exists c',
        combine_ites (ext := examples.manager) fuel OP_RE_CONCAT
          (mk_ite examples.cond1 examples.ra examples.rb) examples.rx None c
        = Done r c')
    /\ (forall fuel' c r' c',
          combine_ites (ext := examples.manager) fuel' OP_RE_CONCAT
            (mk_ite examples.cond1 examples.ra examples.rb) examples.rx None c
          = Done r' c' -> r' = r).
Proof.
  apply (@combine_ites_returns examples.manager). discriminate.
Defined.

Lemma combine_ites_bdd_witness :
  exists r c',
    combine_ites (ext := examples.manager) 5 OP_RE_CONCAT
      (mk_ite examples.cond1 examples.ra examples.rb)
      (mk_ite examples.cond2 examples.rx examples.ry) None
      (op_cache_ops.empty 100) = Done r c'
    /\ is_bdd_form (ext := examples.manager) r = true
    /\ incl (ite_conds r) [examples.cond1; examples.cond2].
Proof.
  eexists. eexists. split; [vm_compute; reflexivity | ].
  eapply (@combine_ites_bdd examples.manager [examples.cond1; examples.cond2] 5
           OP_RE_CONCAT (mk_ite examples.cond1 examples.ra examples.rb)
           (mk_ite examples.cond2 examples.rx examples.ry) None
           (op_cache_ops.empty 100)).
  - intros x y [<- | [<- | []]] [<- | [<- | []]] H;
      try reflexivity; vm_compute in H; discriminate H.
  - discriminate.
  - discriminate.
  - reflexivity.
  - intros x [<- | []]. left. reflexivity.
  - reflexivity.
  - intros x [<- | []]. right. left. reflexivity.
  - vm_compute. reflexivity.
Defined.

(** ** [extract] with a position or a length that rules the result out *)

(** X11. Whatever the sequence [a], symbolic or not: when the position
    is a negative numeral or the length a numeral that is not positive,
    [mk_seq_extract] is done with the empty sequence of the sort of
    [a]. *)
Theorem mk_seq_extract_empty (a b c : expr) (z : Z) :
  (autil.is_numeral b = Some z /\ (z < 0)%Z)
  \/ (autil.is_numeral c = Some z /\ (z <= 0)%Z) ->
  mk_seq_extract a b c = (BR_DONE, Some (str.mk_empty (get_sort a))).
Proof.
  intros H. unfold mk_seq_extract. cbv zeta.
  destruct (match sign_is_determined c with
            | Some sign_neg => true
            | _ => false
            end); [reflexivity | ].
  destruct H as [[Hb Hz] | [Hc Hz]].
  - rewrite Hb.
    replace (z <? 0)%Z with true by (symmetry; apply Z.ltb_lt; exact Hz).
    reflexivity.
  - rewrite Hc.
    replace (0 <? z)%Z with false by (symmetry; apply Z.ltb_ge; exact Hz).
    cbn [negb]. rewrite orb_true_r. reflexivity.
Qed.

Lemma mk_seq_extract_empty_witness :
  mk_seq_extract examples.sx examples.num (autil.mk_int 0)
  = (BR_DONE, Some (str.mk_empty examples.string_sort)).
Proof.
  apply (@mk_seq_extract_empty examples.sx examples.num (autil.mk_int 0) 0).
  right. split; [reflexivity | lia].
Defined.

(** ** An integer-to-string conversion against a numeral *)

(** X12. When the left side is [itos(n)] for an integer term [n] and
    the right side is concrete and spells the decimal numeral of a
    non-negative integer [m], the equality [n = m] that [reduce_itos]
    puts in place of the equation holds under exactly the
    interpretations under which the equation holds.  The numeral reader
    is taken to read the numeral of [m] as [m] and to print [m] as that
    numeral. *)
Theorem reduce_itos_numeral_sound {ext : externals} (n : expr)
  (rs : list expr) (eqs : list (expr * expr)) (m : nat) :
  zencode (decimal m) = decimal m ->
  rational_of_string (decimal m) = Z.of_nat m ->
  rational_to_string (Z.of_nat m) = decimal m ->
  is_int_term n = true ->
  is_string_vec rs [] = Some (decimal m) ->
  reduce_itos [str.mk_itos n] rs eqs
  = Reduced ([], [], eqs ++ [(n, autil.mk_numeral (Z.of_nat m))])
  /\ forall I,
      eval I n = eval I (autil.mk_numeral (Z.of_nat m))
      <-> seq_val I [str.mk_itos n] = seq_val I rs.
Proof.
  intros Henc Hread Hprint Hn Hs. split.
  - unfold reduce_itos.
    change (str.is_itos (str.mk_itos n)) with (Some n).
    rewrite Hs. cbv beta iota zeta. rewrite Henc, Hread, Hprint.
    destruct (list_eq_dec Nat.eq_dec (decimal m) (decimal m)) as [_ | N];
      [reflexivity | contradiction N; reflexivity].
  - intros I.
    change (eval I (autil.mk_numeral (Z.of_nat m))) with (VInt (Z.of_nat m)).
    pose proof (@is_string_vec_val I rs [] (decimal m) Hs) as Vs.
    simpl in Vs. rewrite <- Vs. clear Vs.
    destruct (is_int_term_eval I n Hn) as [z Hz].
    rewrite seq_val_cons. change (seq_val I []) with (@nil value).
    rewrite app_nil_r.
    change (eval I (str.mk_itos n))
      with (VSeq (map VChar (itos_sem (as_int (eval I n))))).
    rewrite Hz. simpl as_seq. simpl as_int.
    assert (D : itos_sem (Z.of_nat m) = decimal m).
    { unfold itos_sem. destruct (Z.ltb_spec (Z.of_nat m) 0); [lia | ].
      rewrite Nat2Z.id. reflexivity. }
    split.
    + intros H. injection H as ->. rewrite D. reflexivity.
    + intros H. apply map_VChar_inj in H. rewrite <- D in H.
      apply itos_sem_inj in H; [rewrite H; reflexivity | lia].
Qed.

Lemma reduce_itos_numeral_sound_witness :
  reduce_itos (ext := examples.signed_manager)
    [str.mk_itos examples.num] [str.mk_string [52]; str.mk_unit (mk_char 50)] []
  = Reduced ([], [], [(examples.num, autil.mk_numeral 42)])
  /\ forall I,
      eval I examples.num = eval I (autil.mk_numeral 42)
      <-> seq_val I [str.mk_itos examples.num]
          = seq_val I [str.mk_string [52]; str.mk_unit (mk_char 50)].
Proof.
  exact (@reduce_itos_numeral_sound examples.signed_manager examples.num
           [str.mk_string [52]; str.mk_unit (mk_char 50)] [] 42
           eq_refl eq_refl eq_refl eq_refl eq_refl).
Defined.
